(** * Graph and matrix algorithms of [graph_algorithms.py]

    A shallow embedding of the extended-real enum [values], of [Graph]
    (with its inner class [_Edge]) and of [Matrix], followed by the
    properties of the specification that were checked against it.

    Conventions of the embedding.
    - Python numbers are modelled by exact integers ([Z]); floating point
      is outside the model, so the default weight [0.0] is the number 0.
    - Python values that the program stores in dynamically typed fields
      (weights, labels, matrix entries, distances) are elements of [pyval].
    - A call either returns a value ([Ok]) or raises ([Raise]).  The marker
      [OutOfFuel] is not a Python exception: it is what a bounded loop of the
      model returns when its bound is exhausted, and the loops are shown never
      to reach it.
    - Vertices are integers, as in the graph [RISK] of the source, and a
      Python [set] of vertices is a [gset Z]; the order in which Python
      iterates over a freshly built set is not specified by the language, so
      it is a parameter ([set_order]) of the functions that depend on it.
    - The identity of objects ([is]) is not decided by the values of two
      integers; where the code tests it, in [_Edge.isIncident], the answer
      is given with the operand.
    - The set of edges hashes and compares edges by their endpoints only; it
      is a list of the stored edge objects together with Python's [set.add],
      which leaves the set unchanged when an equal element is present. *)

From stdpp Require Import gmap list sorting strings.
From Stdlib Require Import ZArith Lia.

Local Open Scope Z_scope.

(** ** Results of calls *)

Inductive exn :=
  | ValueError | TypeError | IndexError | KeyError | AttributeError
  | OutOfFuel.

Inductive result (A : Type) :=
  | Ok (a : A)
  | Raise (e : exn).

Arguments Ok {A} a.
Arguments Raise {A} e.

#[global] Instance result_ret : MRet result := λ A a, Ok a.

#[global] Instance result_bind : MBind result := λ A B k m,
  match m with
  | Ok a => k a
  | Raise e => Raise e
  end.

(** Monadic traversals of a list, left to right, stopping at the first
    exception: the shape of a [for] loop and of a list comprehension. *)
Fixpoint mapM {A B} (f : A → result B) (l : list A) : result (list B) :=
  match l with
  | [] => Ok []
  | x :: l' => y ← f x; ys ← mapM f l'; Ok (y :: ys)
  end.

Fixpoint foldM {A S} (f : S → A → result S) (l : list A) (s : S) : result S :=
  match l with
  | [] => Ok s
  | x :: l' => s' ← f s x; foldM f l' s'
  end.

(** [range(n)] *)
Definition range (n : nat) : list nat := seq 0 n.

(** [l[i]] for a non-negative index. *)
Definition getitem {A} (l : list A) (i : nat) : result A :=
  match l !! i with
  | Some x => Ok x
  | None => Raise IndexError
  end.

(** ** The enum [values] *)

Inductive values := _neg_inf | _inf.

Definition value (x : values) : Z :=
  match x with
  | _neg_inf => 1
  | _inf => 2
  end.

Definition values_eqb (x y : values) : bool := value x =? value y.

(** Dynamically typed values. *)
Inductive pyval :=
  | VInt (n : Z)
  | VEnum (x : values)
  | VNone
  | VStr (s : string).

(** [values.__gt__]: [None] is the Python value [None], returned when the
    method falls off its end. *)
Definition values_gt (self : values) (other : pyval) : option bool :=
  match other with
  | VEnum o => Some (value self >? value o)
  | VInt _ => Some (values_eqb self _inf)
  | _ => None
  end.

(** [values.__lt__] *)
Definition values_lt (self : values) (other : pyval) : option bool :=
  match other with
  | VEnum o => Some (value self <? value o)
  | VInt _ => Some (values_eqb self _neg_inf)
  | _ => None
  end.

(** [values.__add__]: the last statement is the bare expression
    [NotImplemented], so the method then returns [None]. *)
Definition values_add (self : values) (other : pyval) : pyval :=
  match other with
  | VInt _ => VEnum self
  | VEnum o => if value self =? value o then VEnum self else VNone
  | _ => VNone
  end.

(** [values.__radd__] *)
Definition values_radd (self : values) (other : pyval) : pyval :=
  values_add self other.

(** Truth value of what a comparison method returned. *)
Definition truthy (r : option bool) : bool :=
  match r with
  | Some b => b
  | None => false
  end.

(** The operator [a + b].  A left operand of the enum answers with
    [__add__]; for any other left operand and a right operand of the enum the
    interpreter falls back to [__radd__]. *)
Definition py_add (a b : pyval) : result pyval :=
  match a, b with
  | VInt x, VInt y => Ok (VInt (x + y))
  | VEnum s, _ => Ok (values_add s b)
  | _, VEnum s => Ok (values_radd s a)
  | VStr x, VStr y => Ok (VStr (x +:+ y))
  | _, _ => Raise TypeError
  end.

Fixpoint str_repeat (n : nat) (s : string) : string :=
  match n with
  | O => EmptyString
  | S n' => s +:+ str_repeat n' s
  end.

(** The operator [a * b]; the enum defines no multiplication. *)
Definition py_mul (a b : pyval) : result pyval :=
  match a, b with
  | VInt x, VInt y => Ok (VInt (x * y))
  | VInt x, VStr s => Ok (VStr (str_repeat (Z.to_nat x) s))
  | VStr s, VInt x => Ok (VStr (str_repeat (Z.to_nat x) s))
  | _, _ => Raise TypeError
  end.

(** Truth value of [a > b]: [int.__gt__] does not know the enum, so
    [n > x] is answered by the reflected [x.__lt__(n)]. *)
Definition py_gt (a b : pyval) : result bool :=
  match a, b with
  | VInt x, VInt y => Ok (x >? y)
  | VEnum s, _ => Ok (truthy (values_gt s b))
  | _, VEnum s => Ok (truthy (values_lt s a))
  | VStr x, VStr y => Ok (String.ltb y x)
  | _, _ => Raise TypeError
  end.

(** Truth value of [a < b]. *)
Definition py_lt (a b : pyval) : result bool :=
  match a, b with
  | VInt x, VInt y => Ok (x <? y)
  | VEnum s, _ => Ok (truthy (values_lt s b))
  | _, VEnum s => Ok (truthy (values_gt s a))
  | VStr x, VStr y => Ok (String.ltb x y)
  | _, _ => Raise TypeError
  end.

(** [min(a, b)]: the first argument is kept unless [b < a]. *)
Definition py_min (a b : pyval) : result pyval :=
  py_lt b a ≫= λ c : bool, Ok (if c then b else a).

(** [sum(l)] *)
Definition py_sum (l : list pyval) : result pyval :=
  foldM py_add l (VInt 0).

(** ** Matrices *)

(** A [Matrix] is its field [_matrix]: a list of rows. *)
Abbreviation Matrix := (list (list pyval)).

(** [Matrix.__init__]: the row [matrix[0]] is read only while a row is
    being compared with it. *)
Definition Matrix_init (matrix : list (list pyval)) : result Matrix :=
  match matrix with
  | [] => Ok []
  | row0 :: _ =>
      if forallb (λ row, (length row =? length row0)%nat) matrix
      then Ok matrix
      else Raise ValueError
  end.

(** [Matrix.height] *)
Definition height (self : Matrix) : nat := length self.

(** [Matrix.width]: [len(self._matrix[0])] *)
Definition width (self : Matrix) : result nat :=
  row0 ← getitem self 0; Ok (length row0).

(** [self[i][j]] *)
Definition getitem2 (self : Matrix) (i j : nat) : result pyval :=
  row ← getitem self i; getitem row j.

(** [D[i][j] = x], an update in place of row [i]. *)
Definition setitem2 (D : Matrix) (i j : nat) (x : pyval) : result Matrix :=
  row ← getitem D i;
  if bool_decide (j < length row)%nat
  then Ok (<[i := <[j := x]> row]> D)
  else Raise IndexError.

(** What an attribute access can yield in [Matrix.__add__]: the integer a
    call returned, or the bound method itself when it is not called. *)
Inductive pyattr :=
  | AttrInt (n : nat)
  | AttrMethod.

(** [a != b]: an integer is never equal to a bound method. *)
Definition attr_ne (a b : pyattr) : bool :=
  match a, b with
  | AttrInt x, AttrInt y => negb (x =? y)%nat
  | AttrMethod, AttrMethod => false
  | _, _ => true
  end.

(** [Matrix.__add__].  The guard compares [self.width()] with the attribute
    [other.width], which is not called. *)
Definition Matrix_add (self other : Matrix) : result Matrix :=
  w ← width self;
  if attr_ne (AttrInt w) AttrMethod || negb (height self =? height other)%nat
  then Raise ValueError
  else
    rows ← mapM (λ i,
              mapM (λ j, a ← getitem2 self i j; b ← getitem2 other i j; py_add a b)
                   (range w))
            (range (height self));
    Matrix_init rows.

(** [Matrix.minor]: the chained comparison [0 <= p <= self.width() - 1]
    calls [width] only when [0 <= p] holds. *)
Definition minor (self : Matrix) (p q : Z) : result Matrix :=
  if p <? 0 then Raise ValueError else
  w ← width self;
  if Z.of_nat w - 1 <? p then Raise ValueError else
  if (q <? 0) || (Z.of_nat (height self) - 1 <? q) then Raise ValueError else
  rows ← mapM (λ j,
            mapM (λ i, getitem2 self j i)
                 (List.filter (λ i, negb (Z.of_nat i =? p)) (range w)))
          (List.filter (λ j, negb (Z.of_nat j =? q)) (range (height self)));
  Matrix_init rows.

(** [Matrix.det], the recursion bounded by [fuel]. *)
Fixpoint det_fuel (fuel : nat) (self : Matrix) : result pyval :=
  match fuel with
  | O => Raise OutOfFuel
  | S fuel' =>
      w ← width self;
      if negb (height self =? w)%nat then Raise ValueError else
      if (height self =? 2)%nat then
        a ← getitem2 self 0 0;
        d ← getitem2 self 1 1;
        ad ← py_mul a d;
        b ← getitem2 self 0 1;
        nb ← py_mul (VInt (-1)) b;
        c ← getitem2 self 1 0;
        nbc ← py_mul nb c;
        py_add ad nbc
      else
        terms ← mapM (λ i,
                   x ← getitem2 self 0 i;
                   sx ← py_mul (VInt ((-1) ^ Z.of_nat i)) x;
                   m ← minor self (Z.of_nat i) 0;
                   d ← det_fuel fuel' m;
                   py_mul sx d)
                 (range w);
        py_sum terms
  end.

(** Every recursive call is on a matrix with one row less, so
    [height self + 1] levels are enough. *)
Definition det (self : Matrix) : result pyval :=
  det_fuel (S (height self)) self.

(** ** Edges *)

Record Edge := mkEdge {
  _u : Z;
  _v : Z;
  _label : pyval;
  _weight : pyval
}.

(** [_Edge.__init__(self, u, v, weight=0.0, label=None)], arguments given
    by position. *)
Definition Edge_init (u v : Z) (weight label : pyval) : Edge :=
  {| _u := u; _v := v; _label := label; _weight := weight |}.

Definition default_weight : pyval := VInt 0.
Definition default_label : pyval := VNone.

(** [_Edge.isIncident]: [self._u is v or self._v is v].  The test is the
    identity of objects, which the values of two integers do not decide:
    [same a v] tells whether the endpoint [a] of this edge is the very
    object [v]. *)
Definition isIncident (same : Z → Z → bool) (self : Edge) (v : Z) : bool :=
  same (_u self) v || same (_v self) v.

(** [_Edge.reverse] *)
Definition reverse (self : Edge) : Edge :=
  Edge_init (_v self) (_u self) (_label self) (_weight self).

(** [_Edge.__eq__]; [__hash__] hashes the same pair of endpoints. *)
Definition Edge_eq (self other : Edge) : bool :=
  (_u other =? _u self) && (_v other =? _v self).

(** *** The set of edges *)

(** [e in s] *)
Definition set_contains (s : list Edge) (e : Edge) : bool :=
  existsb (λ stored, Edge_eq stored e) s.

(** [s.add(e)]: nothing changes when an element equal to [e] is stored. *)
Definition set_add (s : list Edge) (e : Edge) : list Edge :=
  if set_contains s e then s else s ++ [e].

(** [s.difference(t)] *)
Definition set_difference (s t : list Edge) : list Edge :=
  List.filter (λ e, negb (set_contains t e)) s.

(** A right operand of [s - other]. *)
Inductive set_operand :=
  | OperandSet (t : list Edge)
  | OperandEdge (e : Edge).

(** The operator [s - other] on a set: [set.__sub__] answers only for a
    set, and [_Edge] has no [__rsub__]. *)
Definition set_sub (s : list Edge) (other : set_operand) : result (list Edge) :=
  match other with
  | OperandSet t => Ok (set_difference s t)
  | OperandEdge _ => Raise TypeError
  end.

(** ** Graphs *)

Record Graph := mkGraph {
  _vertices : gset Z;
  _edges : list Edge;
  _directed : bool
}.

(** An element of the constructor's argument [edges]: a tuple of two, three
    or four components, or an [_Edge]. *)
Inductive edge_desc :=
  | Tuple2 (u v : Z)
  | Tuple3 (u v : Z) (weight : pyval)
  | Tuple4 (u v : Z) (weight label : pyval)
  | EdgeObj (e : Edge).

(** [edge[0]] and [edge[1]] *)
Definition desc_0 (edge : edge_desc) : Z :=
  match edge with
  | Tuple2 u _ | Tuple3 u _ _ | Tuple4 u _ _ _ => u
  | EdgeObj e => _u e
  end.

Definition desc_1 (edge : edge_desc) : Z :=
  match edge with
  | Tuple2 _ v | Tuple3 _ v _ | Tuple4 _ v _ _ => v
  | EdgeObj e => _v e
  end.

(** [self._edges.add(e)] followed, in an undirected graph, by
    [self._edges.add(mirror)]. *)
Definition add_pair (directed : bool) (s : list Edge) (e mirror : Edge) : list Edge :=
  let s1 := set_add s e in
  if negb directed then set_add s1 mirror else s1.

(** One round of the loop of [Graph._populate_edges]. *)
Definition populate_edge (vertices : gset Z) (directed : bool)
    (s : list Edge) (edge : edge_desc) : result (list Edge) :=
  if negb (bool_decide (desc_0 edge ∈ vertices))
     || negb (bool_decide (desc_1 edge ∈ vertices))
  then Raise ValueError
  else
    Ok match edge with
       | Tuple2 u v =>
           add_pair directed s (Edge_init u v default_weight default_label)
                               (Edge_init v u default_weight default_label)
       | Tuple3 u v w =>
           add_pair directed s (Edge_init u v w default_label)
                               (Edge_init v u w default_label)
       | Tuple4 u v w l =>
           add_pair directed s (Edge_init u v w l) (Edge_init v u w l)
       | EdgeObj e =>
           add_pair directed s e (reverse e)
       end.

(** [Graph._populate_edges]; [edges] lists the argument in the order of its
    iteration. *)
Definition _populate_edges (vertices : gset Z) (directed : bool)
    (edges : list edge_desc) : result (list Edge) :=
  foldM (populate_edge vertices directed) edges [].

(** [Graph.__init__] *)
Definition Graph_init (vertices : gset Z) (edges : list edge_desc)
    (directed : bool) : result Graph :=
  s ← _populate_edges vertices directed edges;
  Ok (mkGraph vertices s directed).

(** [Graph.new_edge(self, u, v, label=None, weight=0.0)]; the graph after
    the call. *)
Definition new_edge (self : Graph) (u v : Z) (label weight : pyval) : result Graph :=
  if negb (bool_decide (u ∈ _vertices self)) && bool_decide (v ∈ _vertices self)
  then Raise ValueError
  else
    let s1 := set_add (_edges self) (Edge_init u v label weight) in
    let s2 := if negb (_directed self)
              then set_add s1 (Edge_init v u label weight)
              else s1 in
    Ok (mkGraph (_vertices self) s2 (_directed self)).

(** [Graph._are_neighbors] *)
Definition _are_neighbors (self : Graph) (v1 v2 : Z) : bool :=
  set_contains (_edges self) (Edge_init v1 v2 default_weight default_label).

(** [Graph._get_edge]; [None] is Python's [None].  When the loop ends
    without [break], [edge] is the last element iterated over. *)
Definition _get_edge (self : Graph) (v1 v2 : Z) : option Edge :=
  if negb (set_contains (_edges self) (Edge_init v1 v2 default_weight default_label))
  then None
  else
    match List.find (λ edge, (_u edge =? v1) && (_v edge =? v2)) (_edges self) with
    | Some edge => Some edge
    | None => last (_edges self)
    end.

(** [Graph._edge_weight] *)
Definition _edge_weight (self : Graph) (v1 v2 : Z) : result pyval :=
  if negb (_are_neighbors self v1 v2) then Ok (VEnum _inf)
  else
    match _get_edge self v1 v2 with
    | Some edge => Ok (_weight edge)
    | None => Raise AttributeError
    end.

(** [vertices = list(self._vertices); vertices.sort()] *)
Definition sorted_vertices (self : Graph) : list Z :=
  merge_sort Z.le (elements (_vertices self)).

(** [d[k]] on a dictionary. *)
Definition dict_get (d : gmap Z pyval) (k : Z) : result pyval :=
  match d !! k with
  | Some x => Ok x
  | None => Raise KeyError
  end.

(** ** Traversals *)

Section Traversal.

(** The order in which a freshly built set of vertices is iterated over. *)
Variable set_order : list Z → list Z.

(** [Graph.neighbors]: the set comprehension over [self._vertices], given in
    the order in which the caller iterates over it. *)
Definition neighbors (self : Graph) (vertex : Z) : list Z :=
  set_order (List.filter (λ v, _are_neighbors self vertex v)
                         (elements (_vertices self))).

(** The body of [for neighbor in self.neighbors(current)] in
    [Graph.dijkstra]; the state is the dictionary and the queue. *)
Definition relax (self : Graph) (current : Z)
    (st : gmap Z pyval * list Z) (neighbor : Z) : result (gmap Z pyval * list Z) :=
  let '(distances, q) := st in
  dc ← dict_get distances current;
  w ← _edge_weight self current neighbor;
  tentative_dist ← py_add dc w;
  dn ← dict_get distances neighbor;
  py_gt dn tentative_dist ≫= λ c : bool,
  if c
  then Ok (<[neighbor := tentative_dist]> distances, q ++ [neighbor])
  else Ok (distances, q).

(** The loop [while not q.empty()] of [Graph.dijkstra]; [q] is the FIFO
    queue, its head the next element [q.get()] returns. *)
Fixpoint dijkstra_loop (fuel : nat) (self : Graph) (visited : gset Z)
    (distances : gmap Z pyval) (q : list Z) : result (gmap Z pyval) :=
  match q with
  | [] => Ok distances
  | current :: q' =>
      match fuel with
      | O => Raise OutOfFuel
      | S fuel' =>
          if bool_decide (current ∈ visited)
          then dijkstra_loop fuel' self visited distances q'
          else
            foldM (relax self current) (neighbors self current) (distances, q')
            ≫= λ st : gmap Z pyval * list Z,
            dijkstra_loop fuel' self ({[current]} ∪ visited) st.1 st.2
      end
  end.

(** A bound on the number of rounds of the loop: every round takes one
    element off the queue, and only the first visit of a vertex puts
    elements on it, at most one per vertex. *)
Definition dijkstra_fuel (self : Graph) : nat :=
  let n := size (_vertices self) in S (S ((S n) * n)).

(** [Graph.dijkstra] *)
Definition dijkstra (self : Graph) (vertex : Z) : result (gmap Z pyval) :=
  let vertices := sorted_vertices self in
  if negb (bool_decide (vertex ∈ vertices)) then Raise ValueError else
  let distances :=
    <[vertex := VInt 0]> (list_to_map ((λ v, (v, VEnum _inf)) <$> vertices)) in
  dijkstra_loop (dijkstra_fuel self) self ∅ distances [vertex].

End Traversal.

(** The initialisation of entry [(i, j)], [j != i], in
    [Graph.floyd_warshall]. *)
Definition fw_init_entry (self : Graph) (vertices : list Z) (i : nat)
    (D : Matrix) (j : nat) : result Matrix :=
  vi ← getitem vertices i;
  vj ← getitem vertices j;
  if _are_neighbors self vi vj
  then w ← _edge_weight self vi vj; setitem2 D i j w
  else setitem2 D i j (VEnum _inf).

(** The body of the first loop [for i in range(len(vertices))]. *)
Definition fw_init_row (self : Graph) (vertices : list Z)
    (D : Matrix) (i : nat) : result Matrix :=
  D' ← setitem2 D i i (VInt 0);
  foldM (fw_init_entry self vertices i)
        (List.filter (λ j, negb (j =? i)%nat) (range (length vertices))) D'.

(** [D[i][j] = min(D[i][j], D[i][k] + D[k][j])] *)
Definition fw_relax (k i : nat) (D : Matrix) (j : nat) : result Matrix :=
  dij ← getitem2 D i j;
  dik ← getitem2 D i k;
  dkj ← getitem2 D k j;
  s ← py_add dik dkj;
  m ← py_min dij s;
  setitem2 D i j m.

(** [Graph.floyd_warshall] (the printing of the steps left out). *)
Definition floyd_warshall (self : Graph) : result Matrix :=
  let vertices := sorted_vertices self in
  let n := length vertices in
  D0 ← Matrix_init ((λ _, (λ _, VInt 0) <$> vertices) <$> vertices);
  D1 ← foldM (fw_init_row self vertices) (range n) D0;
  foldM (λ D k,
           foldM (λ D i, foldM (fw_relax k i) (range n) D) (range n) D)
        (range n) D1.

(** The right operand of [self - other] on graphs.  The vertices of a
    graph or vertex operand are objects: with the operand comes [same],
    where [same e a v] tells whether the endpoint [a] of the stored edge
    [e] is the very object [v] of the operand. *)
Inductive sub_operand :=
  | SubEdge (e : Edge)
  | SubGraph (g : Graph) (same : Edge → Z → Z → bool)
  | SubVertex (v : Z) (same : Edge → Z → Z → bool).

(** The branch of [Graph.__sub__] for a graph: the vertices of [other] and
    the edges incident to them are removed from [self], which is returned. *)
Definition Graph_sub_graph (same : Edge → Z → Z → bool) (self other : Graph) :
    result Graph :=
  if negb (bool_decide (_vertices other ⊆ _vertices self))
  then Raise ValueError
  else
    Ok (foldl (λ g vertex,
                 mkGraph (_vertices g ∖ {[vertex]})
                         (set_difference (_edges g)
                            (List.filter (λ e, isIncident (same e) e vertex)
                                         (_edges g)))
                         (_directed g))
              self (elements (_vertices other))).

(** [Graph.__sub__]; the constructor is called without [directed], which
    is then [False]. *)
Definition Graph_sub (self : Graph) (other : sub_operand) : result Graph :=
  match other with
  | SubEdge e =>
      s ← set_sub (_edges self) (OperandEdge e);
      Graph_init (_vertices self) (EdgeObj <$> s) false
  | SubGraph g same => Graph_sub_graph same self g
  | SubVertex v same =>
      g ← Graph_init {[v]} [] false;
      Graph_sub_graph same self g
  end.

(** ** Notions used in the statements *)

(** An extended real that is [∞] or a non-negative number. *)
Definition ext_nonneg (x : pyval) : Prop :=
  x = VEnum _inf ∨ ∃ n, x = VInt n ∧ 0 ≤ n.

(** Every stored weight is a non-negative number. *)
Definition nonneg_weights (self : Graph) : Prop :=
  ∀ e, e ∈ _edges self → ∃ w, _weight e = VInt w ∧ 0 ≤ w.

(** The edge has the ordered endpoints [(u, v)]. *)
Definition has_endpoints (u v : Z) (e : Edge) : bool :=
  (_u e =? u) && (_v e =? v).

(** Number of stored edges with the ordered endpoints [(u, v)]. *)
Definition pair_count (s : list Edge) (u v : Z) : nat :=
  length (List.filter (has_endpoints u v) s).

(** The representation invariant of a set of edges: no two stored edges are
    equal for [_Edge.__eq__]. *)
Definition unique_pairs (s : list Edge) : Prop :=
  ∀ u v, (pair_count s u v ≤ 1)%nat.

(** The edge with the endpoints of [e] exchanged and its weight and label. *)
Definition mirror (e : Edge) : Edge :=
  {| _u := _v e; _v := _u e; _label := _label e; _weight := _weight e |}.

(** The invariant of an undirected graph: with every stored edge its mirror
    is stored. *)
Definition mirror_closed (s : list Edge) : Prop :=
  ∀ e, e ∈ s → mirror e ∈ s.

(** The description is a tuple, not an [_Edge]. *)
Definition is_tuple (edge : edge_desc) : Prop :=
  match edge with
  | EdgeObj _ => False
  | _ => True
  end.

(** The set of edges obtained from the empty set by the insertions [es], in
    this order. *)
Definition inserted (es : list Edge) : list Edge :=
  foldl set_add [] es.

(** What the loop of [dijkstra] maintains on its dictionary when the
    weights are non-negative numbers: every vertex is a key, every value is
    [∞] or a non-negative number, and the source is at distance 0. *)
Definition dist_inv (V : gset Z) (src : Z) (d : gmap Z pyval) : Prop :=
  (∀ x, x ∈ V → is_Some (d !! x))
  ∧ (∀ x y, d !! x = Some y → ext_nonneg y)
  ∧ d !! src = Some (VInt 0).

(** The quantity that decreases in every round of the loop. *)
Definition rounds_left (g : Graph) (visited : gset Z) (q : list Z) : nat :=
  length q + S (size (_vertices g)) * size (_vertices g ∖ visited).

(** A directed graph on which the first-in first-out queue visits vertex 2
    before its distance has settled: the edges are
    [1 → 2] of weight 10, [1 → 3], [3 → 5], [5 → 2] and [2 → 4] of weight 1. *)
Definition fifo_graph : Graph :=
  mkGraph {[1; 2; 3; 4; 5]}
    [ Edge_init 1 2 (VInt 10) VNone; Edge_init 1 3 (VInt 1) VNone;
      Edge_init 3 5 (VInt 1) VNone; Edge_init 5 2 (VInt 1) VNone;
      Edge_init 2 4 (VInt 1) VNone ]
    true.

(** A matrix of numbers as a [Matrix]. *)
Definition int_matrix (m : list (list Z)) : Matrix :=
  (λ row : list Z, VInt <$> row) <$> m.

(** [m] has [n] rows of [n] entries. *)
Definition square (n : nat) (m : list (list Z)) : Prop :=
  length m = n ∧ Forall (λ row, length row = n) m.

(** The minor of the specification: column [p] and the first row removed. *)
Definition minor_spec (p : nat) (m : list (list Z)) : list (list Z) :=
  (λ row : list Z, take p row ++ drop (S p) row) <$> drop 1 m.

(** The sum [Σ (i ∈ l) f i]. *)
Definition Zsum (f : nat → Z) (l : list nat) : Z :=
  foldl (λ acc i, acc + f i) 0 l.

(** The determinant of the specification for an [n × n] matrix, [2 ≤ n]:
    [a*d - b*c] for [n = 2], and otherwise the cofactor expansion along the
    first row. *)
Fixpoint det_spec (n : nat) (m : list (list Z)) : Z :=
  match n with
  | O => 0
  | S n' =>
      if (n =? 2)%nat then
        match m with
        | [a; b] :: [c; d] :: _ => a * d - b * c
        | _ => 0
        end
      else
        Zsum (λ i, (-1) ^ Z.of_nat i * nth i (hd [] m) 0
                   * det_spec n' (minor_spec i m))
             (range n)
  end.

(** The cofactor expansion along the first row, on the code's own
    operations: the general case of [Matrix.det] with the recursive calls
    made through [det]. *)
Definition cofactor_expansion (self : Matrix) : result pyval :=
  w ← width self;
  terms ← mapM (λ i,
             x ← getitem2 self 0 i;
             sx ← py_mul (VInt ((-1) ^ Z.of_nat i)) x;
             m ← minor self (Z.of_nat i) 0;
             d ← det m;
             py_mul sx d)
           (range w);
  py_sum terms.

(** * The rest of the two classes *)

(** ** Further operations of [Matrix] *)

(** The right operand of [self * other]: a number, a matrix, or a value of
    another type. *)
Inductive mul_operand :=
  | MulNumber (k : Z)
  | MulMatrix (other : Matrix)
  | MulOther.

(** [Matrix.__mul__].  In the product of two matrices the entry is a [sum]
    over a generator, which adds every term as soon as it is computed. *)
Definition Matrix_mul (self : Matrix) (other : mul_operand) : result Matrix :=
  match other with
  | MulNumber k =>
      rows ← mapM (λ i,
                w ← width self;
                mapM (λ j, x ← getitem2 self i j; py_mul (VInt k) x) (range w))
              (range (height self));
      Matrix_init rows
  | MulMatrix other =>
      w ← width self;
      if negb (height other =? w)%nat then Raise ValueError else
      rows ← mapM (λ i,
                w' ← width other;
                mapM (λ j,
                        foldM (λ acc k,
                                 a ← getitem2 self i k;
                                 b ← getitem2 other k j;
                                 t ← py_mul a b;
                                 py_add acc t)
                              (range (height other)) (VInt 0))
                     (range w'))
              (range (height self));
      Matrix_init rows
  | MulOther => Raise TypeError
  end.

(** [Matrix.__rmul__]: [other * self] for a left operand that is no
    matrix. *)
Definition Matrix_rmul (self : Matrix) (other : mul_operand) : result Matrix :=
  Matrix_mul self other.

(** [Matrix.__sub__]: [self + (-1 * other)], where [-1 * other] is answered
    by [other.__rmul__(-1)]. *)
Definition Matrix_sub (self other : Matrix) : result Matrix :=
  neg ← Matrix_rmul other (MulNumber (-1));
  Matrix_add self neg.

(** The loop [while index < other: result *= self] of [Matrix.__pow__],
    with the number of its rounds; [Matrix] has no [__imul__], so
    [result *= self] is [result = result * self]. *)
Fixpoint pow_loop (rounds : nat) (self result0 : Matrix) : result Matrix :=
  match rounds with
  | O => Ok result0
  | S rounds' =>
      r ← Matrix_mul result0 (MulMatrix self);
      pow_loop rounds' self r
  end.

(** The matrix [[1 if i == j else 0 for i in range(n)] for j in range(n)]. *)
Definition identity_rows (n : nat) : list (list pyval) :=
  (λ j : nat, (λ i : nat, VInt (if (i =? j)%nat then 1 else 0)) <$> range n) <$> range n.

(** [Matrix.__pow__]; the exponent is any value. *)
Definition Matrix_pow (self : Matrix) (other : pyval) : result Matrix :=
  match other with
  | VInt n =>
      w ← width self;
      if (height self =? w)%nat then
        if 1 <=? n then pow_loop (Z.to_nat (n - 1)) self self
        else if n =? 0 then Matrix_init (identity_rows (height self))
        else Raise ValueError
      else Raise ValueError
  | _ => Raise ValueError
  end.

(** [Matrix.__iter__]: the entries from left to right, top to bottom. *)
Definition Matrix_iter (self : Matrix) : list pyval := concat self.

(** [Matrix._cofactor] *)
Definition _cofactor (self : Matrix) (p q : nat) : result pyval :=
  m ← minor self (Z.of_nat p) (Z.of_nat q);
  d ← det m;
  py_mul (VInt ((-1) ^ Z.of_nat (p + q))) d.

(** [Matrix.cofactor]; [width] is called in the guard only when the height
    is 2. *)
Definition cofactor (self : Matrix) : result Matrix :=
  is2x2 ← (if (height self =? 2)%nat
           then w ← width self; Ok (w =? 2)%nat
           else Ok false);
  if is2x2 : bool then
    d ← getitem2 self 1 1;
    c ← getitem2 self 1 0;
    nc ← py_mul (VInt (-1)) c;
    b ← getitem2 self 0 1;
    nb ← py_mul (VInt (-1)) b;
    a ← getitem2 self 0 0;
    Matrix_init [[d; nc]; [nb; a]]
  else
    rows ← mapM (λ j, w ← width self; mapM (λ i, _cofactor self i j) (range w))
            (range (height self));
    Matrix_init rows.

(** ** Further operations of [Graph] *)

(** [isinstance(x, (int, float))] *)
Definition is_number (x : pyval) : bool :=
  match x with
  | VInt _ => true
  | _ => false
  end.

(** [Graph.is_connected] *)
Definition is_connected (self : Graph) : result bool :=
  D ← floyd_warshall self;
  Ok (forallb is_number (Matrix_iter D)).

(** [Graph.adjacency]: the row is built for [j], the entry in it for [i]. *)
Definition adjacency (self : Graph) : result Matrix :=
  let vertices := sorted_vertices self in
  Matrix_init
    ((λ j : Z,
        (λ i : Z, VInt (if _are_neighbors self i j then 1 else 0)) <$> vertices)
     <$> vertices).

(** [max(l)]: the first argument is kept unless a later one is greater;
    an empty argument raises [ValueError]. *)
Definition py_max (l : list pyval) : result pyval :=
  match l with
  | [] => Raise ValueError
  | x :: l' =>
      foldM (λ cur item, py_gt item cur ≫= λ c : bool, Ok (if c then item else cur))
            l' x
  end.

(** [s.union(t)]: a copy of [s] to which the elements of [t] are added. *)
Definition set_union (s t : list Edge) : list Edge := foldl set_add s t.

Section Derived.

Variable set_order : list Z → list Z.

(** [Graph.eccentricity(vertex)] for a vertex: the values of the
    dictionary are read in the order of its keys, the sorted vertices. *)
Definition eccentricity (self : Graph) (vertex : Z) : result pyval :=
  d ← dijkstra set_order self vertex;
  values ← mapM (dict_get d) (sorted_vertices self);
  py_max values.

(** The order in which the set of edges of a union is iterated over. *)
Variable edge_order : list Edge → list Edge.

(** The branch of [Graph.__add__] for a graph. *)
Definition Graph_add_graph (self other : Graph) : result Graph :=
  Graph_init (_vertices self ∪ _vertices other)
             (EdgeObj <$> edge_order (set_union (_edges self) (_edges other)))
             (_directed self || _directed other).

End Derived.

(** ** Further notions used in the statements *)

(** A number or one of the two infinities. *)
Definition ext_real (x : pyval) : Prop :=
  match x with
  | VInt _ | VEnum _ => True
  | _ => False
  end.

(** The order of the extended reals: [-∞] below every number, every number
    below [∞]. *)
Definition ext_ltb (a b : pyval) : bool :=
  match a, b with
  | VInt x, VInt y => x <? y
  | VEnum _neg_inf, VInt _ | VEnum _neg_inf, VEnum _inf | VInt _, VEnum _inf => true
  | _, _ => false
  end.

(** The edge a description stands for. *)
Definition desc_edge (edge : edge_desc) : Edge :=
  match edge with
  | Tuple2 u v => Edge_init u v default_weight default_label
  | Tuple3 u v w => Edge_init u v w default_label
  | Tuple4 u v w l => Edge_init u v w l
  | EdgeObj e => e
  end.

(** The edge stored as its mirror in an undirected graph: built with the
    same arguments for a tuple, and by [reverse] for an [_Edge]. *)
Definition desc_mirror (edge : edge_desc) : Edge :=
  match edge with
  | Tuple2 u v => Edge_init v u default_weight default_label
  | Tuple3 u v w => Edge_init v u w default_label
  | Tuple4 u v w l => Edge_init v u w l
  | EdgeObj e => reverse e
  end.

(** The edges the constructor inserts for the descriptions [edges], in the
    order of their insertion. *)
Definition described (directed : bool) (edges : list edge_desc) : list Edge :=
  flat_map (λ edge, desc_edge edge :: if directed then [] else [desc_mirror edge])
           edges.

(** Both endpoints of the description are vertices. *)
Definition desc_valid (vertices : gset Z) (edge : edge_desc) : Prop :=
  desc_0 edge ∈ vertices ∧ desc_1 edge ∈ vertices.

(** The endpoints of every stored edge are vertices of the graph. *)
Definition endpoints_in (self : Graph) : Prop :=
  ∀ e, e ∈ _edges self → _u e ∈ _vertices self ∧ _v e ∈ _vertices self.

(** [D] has [n] rows of [n] entries. *)
Definition shape (n : nat) (D : Matrix) : Prop :=
  length D = n ∧ Forall (λ row, length row = n) D.

(** The matrix [D] of [floyd_warshall] on a graph with non-negative
    weights: [n] rows of [n] entries that are [∞] or non-negative numbers,
    with zeros on the diagonal. *)
Definition fw_inv (n : nat) (D : Matrix) : Prop :=
  shape n D
  ∧ (∀ i j x, getitem2 D i j = Ok x → ext_nonneg x)
  ∧ (∀ i, (i < n)%nat → getitem2 D i i = Ok (VInt 0)).

(** The product of two matrices of numbers, entry by entry. *)
Definition matmul_spec (a b : list (list Z)) : list (list Z) :=
  (λ row : list Z,
     (λ j : nat,
        foldl (λ acc k, acc + nth k row 0 * nth j (nth k b []) 0) 0
              (range (length b)))
     <$> range (length (hd [] b)))
  <$> a.

(** The identity matrix of the specification. *)
Definition identity_spec (n : nat) : list (list Z) :=
  (λ j : nat, (λ i : nat, if (i =? j)%nat then 1 else 0) <$> range n) <$> range n.

(** The minor of the specification: column [p] and row [q] removed. *)
Definition minor_pq (p q : nat) (m : list (list Z)) : list (list Z) :=
  (λ row : list Z, take p row ++ drop (S p) row) <$> (take q m ++ drop (S q) m).

(** [m] has [h] rows of [w] entries. *)
Definition rect (h w : nat) (m : list (list Z)) : Prop :=
  length m = h ∧ Forall (λ row, length row = w) m.

(** ** Walks, and what the traversals maintain *)

(** An undirected graph with the two vertices 1 and 2 and one edge of
    weight 5 between them, stored in both directions. *)
Definition two_cycle : Graph :=
  mkGraph {[1; 2]}
    [Edge_init 1 2 (VInt 5) VNone; Edge_init 2 1 (VInt 5) VNone] false.

(** A walk along stored edges: [walk g u v d] when stored edges with
    numbers as weights lead from [u] to [v] and their weights add up to
    [d]. *)
Inductive walk (g : Graph) : Z → Z → Z → Prop :=
  | walk_nil (v : Z) : walk g v v 0
  | walk_step (u v x a b : Z) (e : Edge) :
      walk g u v a →
      e ∈ _edges g → _u e = v → _v e = x → _weight e = VInt b →
      walk g u x (a + b).

(** What holds of the entry [x] at position [(i, j)] of the matrix of
    [floyd_warshall] on a graph with non-negative weights: it is [∞] or a
    non-negative number, 0 on the diagonal, and not above the weight
    [_edge_weight] gives for the two vertices. *)
Definition fw_entry (g : Graph) (i j : nat) (x : pyval) : Prop :=
  ext_nonneg x
  ∧ (i = j → x = VInt 0)
  ∧ (∀ vi vj w,
       sorted_vertices g !! i = Some vi → sorted_vertices g !! j = Some vj →
       _edge_weight g vi vj = Ok w → ext_ltb w x = false).

(** An entry that is a number is the length of a walk between the two
    vertices. *)
Definition fw_sound (g : Graph) (i j : nat) (x : pyval) : Prop :=
  ∀ vi vj d,
    sorted_vertices g !! i = Some vi → sorted_vertices g !! j = Some vj →
    x = VInt d → walk g vi vj d.

(** [D] has [n] rows of [n] entries, and [R] holds of every entry. *)
Definition entries (n : nat) (R : nat → nat → pyval → Prop) (D : Matrix) : Prop :=
  shape n D
  ∧ ∀ i j, (i < n)%nat → (j < n)%nat → ∃ x, getitem2 D i j = Ok x ∧ R i j x.

(** During the first loop of [floyd_warshall]: the entries of the rows in
    [rows], and of row [i] at the columns in [cols], have been
    initialised. *)
Definition fw_init_done (rows : list nat) (i : nat) (cols : list nat)
    (i' j' : nat) : Prop :=
  i' ∈ rows ∨ (i' = i ∧ j' ∈ cols).

(** What the first loop of [floyd_warshall] maintains. *)
Definition fw_init_inv (g : Graph) (rows : list nat) (i : nat) (cols : list nat)
    (D : Matrix) : Prop :=
  entries (length (sorted_vertices g))
    (λ i' j' y, fw_entry g i' j' y
                ∧ (fw_init_done rows i cols i' j' → fw_sound g i' j' y)) D.

(** What the second loop of [floyd_warshall] maintains. *)
Definition fw_full_inv (g : Graph) (D : Matrix) : Prop :=
  entries (length (sorted_vertices g))
    (λ i j y, fw_entry g i j y ∧ fw_sound g i j y) D.

(** What the loop of [dijkstra] maintains on its dictionary, whatever the
    weights are: the keys are the vertices of the graph, and every value
    that is a number is the length of a walk from the source. *)
Definition walk_inv (g : Graph) (src : Z) (d : gmap Z pyval) : Prop :=
  (∀ x, is_Some (d !! x) ↔ x ∈ _vertices g)
  ∧ (∀ x n, d !! x = Some (VInt n) → walk g src x n).

(** ** The matrix of cofactors *)

(** The matrix of cofactors of the specification for an [n × n] matrix:
    row [j] holds, for every column [i], the signed determinant of the
    matrix without row [j] and column [i]. *)
Definition cofactor_spec (n : nat) (m : list (list Z)) : list (list Z) :=
  (λ j : nat,
     (λ i : nat, (-1) ^ Z.of_nat (i + j) * det_spec (n - 1) (minor_pq i j m))
     <$> range n)
  <$> range n.

(** * Properties *)

(** ** Results and traversals *)

Lemma bind_ext {A B} (m : result A) (k1 k2 : A → result B) :
  (∀ a, m = Ok a → k1 a = k2 a) → m ≫= k1 = m ≫= k2.
Proof. destruct m; simpl; [|done]. intros H. by apply H. Qed.

Lemma bind_Ok_inv {A B} (m : result A) (k : A → result B) (b : B) :
  m ≫= k = Ok b → ∃ a, m = Ok a ∧ k a = Ok b.
Proof. destruct m as [a|e]; simpl; [eauto|done]. Qed.

Lemma bind_Raise_inv {A B} (m : result A) (k : A → result B) (e : exn) :
  m ≫= k = Raise e → m = Raise e ∨ ∃ a, m = Ok a ∧ k a = Raise e.
Proof. destruct m as [a|e']; simpl; [eauto|]. intros [= ->]. by left. Qed.

Lemma bind_Ok {A B} (a : A) (k : A → result B) : Ok a ≫= k = k a.
Proof. reflexivity. Qed.

Lemma foldM_cons {A S} (f : S → A → result S) (x : A) (l : list A) (s : S) :
  foldM f (x :: l) s = f s x ≫= foldM f l.
Proof. reflexivity. Qed.

Lemma mapM_length {A B} (f : A → result B) (l : list A) (ys : list B) :
  mapM f l = Ok ys → length ys = length l.
Proof.
  revert ys. induction l as [|x l IH]; intros ys; simpl.
  - by intros [= <-].
  - destruct (f x); simpl; [|done].
    destruct (mapM f l) as [zs|]; simpl; [|done].
    intros [= <-]. simpl. f_equal. by apply IH.
Qed.

Lemma mapM_ext {A B} (f g : A → result B) (l : list A) :
  (∀ x, x ∈ l → f x = g x) → mapM f l = mapM g l.
Proof.
  induction l as [|x l IH]; intros Hfg; simpl; [done|].
  rewrite (Hfg x) by left. rewrite IH; [done|].
  intros y Hy. apply Hfg. by right.
Qed.

Lemma mapM_Ok {A B} (f : A → result B) (h : A → B) (l : list A) :
  (∀ x, x ∈ l → f x = Ok (h x)) → mapM f l = Ok (h <$> l).
Proof.
  induction l as [|x l IH]; intros Hf; [done|].
  simpl. rewrite (Hf x) by left. simpl. rewrite IH; [done|].
  intros y Hy. apply Hf. by right.
Qed.

Lemma mapM_app {A B} (f : A → result B) (l1 l2 : list A) (ys1 ys2 : list B) :
  mapM f l1 = Ok ys1 → mapM f l2 = Ok ys2 → mapM f (l1 ++ l2) = Ok (ys1 ++ ys2).
Proof.
  revert ys1. induction l1 as [|x l1 IH]; intros ys1; simpl.
  - by intros [= <-].
  - intros H1 H2. apply bind_Ok_inv in H1 as (y & -> & H1).
    apply bind_Ok_inv in H1 as (ys & Hys & [= <-]).
    simpl. by rewrite (IH ys Hys H2).
Qed.

(** ** The enum [values] *)

Lemma values_add_number (x : values) (n : Z) :
  py_add (VEnum x) (VInt n) = Ok (VEnum x) ∧ py_add (VInt n) (VEnum x) = Ok (VEnum x).
Proof. split; reflexivity. Qed.

Lemma values_add_same (x : values) :
  py_add (VEnum x) (VEnum x) = Ok (VEnum x).
Proof. destruct x; reflexivity. Qed.

(** C4.  Adding a number to an infinity, in either order, and adding an
    infinity to itself give that infinity.  Adding [∞] and [-∞], in either
    order, raises nothing: the call returns [None]. *)
Theorem values_add_opposite_returns_None :
  (∀ n, py_add (VEnum _inf) (VInt n) = Ok (VEnum _inf)
        ∧ py_add (VInt n) (VEnum _inf) = Ok (VEnum _inf)
        ∧ py_add (VEnum _neg_inf) (VInt n) = Ok (VEnum _neg_inf)
        ∧ py_add (VInt n) (VEnum _neg_inf) = Ok (VEnum _neg_inf))
  ∧ py_add (VEnum _inf) (VEnum _inf) = Ok (VEnum _inf)
  ∧ py_add (VEnum _neg_inf) (VEnum _neg_inf) = Ok (VEnum _neg_inf)
  ∧ py_add (VEnum _inf) (VEnum _neg_inf) = Ok VNone
  ∧ py_add (VEnum _neg_inf) (VEnum _inf) = Ok VNone.
Proof.
  split.
  - intros n. repeat split; apply values_add_number.
  - repeat split; try apply values_add_same; reflexivity.
Qed.

(** ** [Matrix.__add__] *)

Lemma width_nonempty (row : list pyval) (rows : list (list pyval)) :
  width (row :: rows) = Ok (length row).
Proof. reflexivity. Qed.

Lemma width_empty : width [] = Raise IndexError.
Proof. reflexivity. Qed.

(** The guard of [Matrix.__add__] holds for every pair of matrices. *)
Lemma Matrix_add_raises (self other : Matrix) :
  Matrix_add self other = Raise (if self is [] then IndexError else ValueError).
Proof.
  destruct self as [|row rows]; [reflexivity|].
  unfold Matrix_add. rewrite width_nonempty. reflexivity.
Qed.

(** C2.  [Matrix.__add__] returns for no pair of matrices; the sum of the
    [1 × 1] matrices [[1]] and [[2]], which share height and width, raises
    [ValueError]. *)
Theorem Matrix_add_same_shape_raises :
  Matrix_add [[VInt 1]] [[VInt 2]] = Raise ValueError
  ∧ ∀ self other : Matrix, ∃ e, Matrix_add self other = Raise e.
Proof.
  split; [reflexivity|].
  intros self other. eexists. apply Matrix_add_raises.
Qed.

(** ** [Graph.new_edge] and [Graph.__sub__] *)

(** C3.  In the directed graph with the single vertex 1, [new_edge(1, 2)]
    raises nothing although 2 is not a vertex: it stores an edge from 1 to 2.
    So does [new_edge(3, 2)], with both endpoints absent. *)
Theorem new_edge_absent_endpoint_accepted :
  new_edge (mkGraph {[1]} [] true) 1 2 VNone (VInt 0)
  = Ok (mkGraph {[1]} [Edge_init 1 2 VNone (VInt 0)] true)
  ∧ new_edge (mkGraph {[1]} [] true) 3 2 VNone (VInt 0)
    = Ok (mkGraph {[1]} [Edge_init 3 2 VNone (VInt 0)] true).
Proof. split; reflexivity. Qed.

(** C8.  The difference of a graph and an edge raises [TypeError] for every
    graph and every edge: the set of edges is subtracted from by the edge
    itself, not by a set.  So it is for the directed graph on 1, 2 with the
    edge from 1 to 2 and that edge. *)
Theorem Graph_sub_edge_raises :
  (∃ g, Graph_init {[1; 2]} [Tuple2 1 2] true = Ok g
        ∧ _are_neighbors g 1 2 = true
        ∧ Graph_sub g (SubEdge (Edge_init 1 2 default_weight default_label))
          = Raise TypeError)
  ∧ ∀ (g : Graph) (e : Edge), Graph_sub g (SubEdge e) = Raise TypeError.
Proof.
  split.
  - eexists. split; [reflexivity|]. split; reflexivity.
  - intros g e. unfold Graph_sub, set_sub. reflexivity.
Qed.

(** ** The set of edges *)

Lemma Edge_eq_endpoints (stored e : Edge) :
  Edge_eq stored e = has_endpoints (_u e) (_v e) stored.
Proof.
  unfold Edge_eq, has_endpoints.
  by rewrite (Z.eqb_sym (_u e)), (Z.eqb_sym (_v e)).
Qed.

Lemma has_endpoints_eq (u v : Z) (e : Edge) :
  has_endpoints u v e = true ↔ _u e = u ∧ _v e = v.
Proof. unfold has_endpoints. rewrite andb_true_iff, !Z.eqb_eq. done. Qed.

Lemma set_contains_existsb (s : list Edge) (e : Edge) :
  set_contains s e = existsb (has_endpoints (_u e) (_v e)) s.
Proof.
  unfold set_contains. induction s as [|x s IH]; simpl; [done|].
  by rewrite IH, Edge_eq_endpoints.
Qed.

Lemma find_none_existsb (P : Edge → bool) (s : list Edge) :
  List.find P s = None ↔ existsb P s = false.
Proof.
  induction s as [|x s IH]; simpl; [done|].
  destruct (P x); simpl; [split; discriminate|done].
Qed.

Lemma find_app_single (P : Edge → bool) (s : list Edge) (e : Edge) :
  List.find P (s ++ [e])
  = match List.find P s with
    | Some x => Some x
    | None => if P e then Some e else None
    end.
Proof.
  induction s as [|x s IH]; simpl; [done|].
  by destruct (P x).
Qed.

Lemma find_elem (P : Edge → bool) (s : list Edge) (x : Edge) :
  List.find P s = Some x → x ∈ s ∧ P x = true.
Proof.
  induction s as [|y s IH]; simpl; [done|].
  destruct (P y) eqn:Hy.
  - intros [= ->]. split; [left|done].
  - intros H. destruct (IH H). split; [by right|done].
Qed.

Lemma set_contains_find (s : list Edge) (e : Edge) :
  set_contains s e = false ↔ List.find (has_endpoints (_u e) (_v e)) s = None.
Proof. by rewrite set_contains_existsb, find_none_existsb. Qed.

(** [set.add] and the search of [_get_edge]: an edge stored for the pair
    stays the one that is found. *)
Lemma find_set_add (u v : Z) (s : list Edge) (e : Edge) :
  List.find (has_endpoints u v) (set_add s e)
  = match List.find (has_endpoints u v) s with
    | Some x => Some x
    | None => if has_endpoints u v e then Some e else None
    end.
Proof.
  unfold set_add. destruct (set_contains s e) eqn:Hc.
  - destruct (List.find (has_endpoints u v) s) eqn:Hf; [done|].
    destruct (has_endpoints u v e) eqn:He; [|done].
    apply has_endpoints_eq in He as [<- <-].
    apply set_contains_find in Hf. congruence.
  - apply find_app_single.
Qed.

Lemma pair_count_app_single (s : list Edge) (e : Edge) (u v : Z) :
  pair_count (s ++ [e]) u v
  = (pair_count s u v + if has_endpoints u v e then 1 else 0)%nat.
Proof.
  unfold pair_count. rewrite List.filter_app, length_app. simpl.
  by destruct (has_endpoints u v e).
Qed.

Lemma pair_count_find_none (s : list Edge) (u v : Z) :
  List.find (has_endpoints u v) s = None ↔ pair_count s u v = 0%nat.
Proof.
  unfold pair_count. induction s as [|x s IH]; simpl; [done|].
  destruct (has_endpoints u v x); simpl; [split; discriminate|done].
Qed.

Lemma unique_pairs_nil : unique_pairs [].
Proof. intros u v. unfold pair_count. simpl. lia. Qed.

(** [set.add] keeps the stored edges pairwise different. *)
Lemma unique_pairs_set_add (s : list Edge) (e : Edge) :
  unique_pairs s → unique_pairs (set_add s e).
Proof.
  intros Hs u v. unfold set_add. destruct (set_contains s e) eqn:Hc; [apply Hs|].
  rewrite pair_count_app_single.
  destruct (has_endpoints u v e) eqn:He; [|specialize (Hs u v); lia].
  apply has_endpoints_eq in He as [<- <-].
  apply set_contains_find, pair_count_find_none in Hc. lia.
Qed.

Lemma unique_pairs_add_pair (directed : bool) (s : list Edge) (e e' : Edge) :
  unique_pairs s → unique_pairs (add_pair directed s e e').
Proof.
  intros Hs. unfold add_pair.
  destruct directed; simpl; auto using unique_pairs_set_add.
Qed.

Lemma unique_pairs_inserted_from (es acc : list Edge) :
  unique_pairs acc → unique_pairs (foldl set_add acc es).
Proof.
  revert acc. induction es as [|e es IH]; intros acc Hacc; simpl; [done|].
  by apply IH, unique_pairs_set_add.
Qed.

Lemma find_inserted_from (u v : Z) (es acc : list Edge) :
  List.find (has_endpoints u v) (foldl set_add acc es)
  = match List.find (has_endpoints u v) acc with
    | Some x => Some x
    | None => List.find (has_endpoints u v) es
    end.
Proof.
  revert acc. induction es as [|e es IH]; intros acc; simpl.
  - by destruct (List.find _ acc).
  - rewrite IH, find_set_add.
    destruct (List.find (has_endpoints u v) acc); [done|].
    by destruct (has_endpoints u v e).
Qed.

Lemma pair_count_one (s : list Edge) (u v : Z) (x : Edge) :
  unique_pairs s → List.find (has_endpoints u v) s = Some x →
  pair_count s u v = 1%nat.
Proof.
  intros Hs Hf. specialize (Hs u v).
  destruct (pair_count s u v) as [|n] eqn:Hn; [|lia].
  apply pair_count_find_none in Hn. congruence.
Qed.

(** [_get_edge] returns the first stored edge with the endpoints asked for,
    and [None] when there is none. *)
Lemma _get_edge_find (self : Graph) (v1 v2 : Z) :
  _get_edge self v1 v2 = List.find (has_endpoints v1 v2) (_edges self).
Proof.
  unfold _get_edge.
  destruct (set_contains _ _) eqn:Hc; simpl.
  - change (λ edge : Edge, (_u edge =? v1) && (_v edge =? v2)) with (has_endpoints v1 v2).
    destruct (List.find (has_endpoints v1 v2) (_edges self)) eqn:Hf; [done|].
    apply (set_contains_find _ (Edge_init v1 v2 default_weight default_label)) in Hf. congruence.
  - symmetry. by apply (set_contains_find _ (Edge_init v1 v2 default_weight default_label)).
Qed.

Lemma _are_neighbors_find (self : Graph) (v1 v2 : Z) :
  _are_neighbors self v1 v2 = false
  ↔ List.find (has_endpoints v1 v2) (_edges self) = None.
Proof. apply (set_contains_find _ (Edge_init v1 v2 default_weight default_label)). Qed.


(** ** [Graph.new_edge]: the arguments of the constructor *)

(** The edge [new_edge] builds: the constructor takes the weight before the
    label, and is given the label before the weight. *)
Lemma new_edge_builds (u v : Z) (label weight : pyval) :
  Edge_init u v label weight
  = {| _u := u; _v := v; _label := weight; _weight := label |}.
Proof. reflexivity. Qed.

Lemma new_edge_returns (g : Graph) (u v : Z) (label weight : pyval) :
  u ∈ _vertices g →
  new_edge g u v label weight
  = Ok (mkGraph (_vertices g)
          (add_pair (_directed g) (_edges g)
             (Edge_init u v label weight) (Edge_init v u label weight))
          (_directed g)).
Proof.
  intros Hu. unfold new_edge. by rewrite (bool_decide_eq_true_2 _ Hu).
Qed.

Lemma find_add_pair (a b : Z) (directed : bool) (s : list Edge) (e e' : Edge) :
  List.find (has_endpoints a b) (add_pair directed s e e')
  = match List.find (has_endpoints a b) s with
    | Some x => Some x
    | None =>
        if has_endpoints a b e then Some e
        else if negb directed && has_endpoints a b e' then Some e' else None
    end.
Proof.
  unfold add_pair. destruct directed; simpl; rewrite !find_set_add.
  - destruct (List.find _ s); [done|]. by destruct (has_endpoints a b e).
  - destruct (List.find _ s); [done|]. by destruct (has_endpoints a b e).
Qed.

Lemma _edge_weight_stored (g : Graph) (v1 v2 : Z) (e : Edge) :
  _get_edge g v1 v2 = Some e → _edge_weight g v1 v2 = Ok (_weight e).
Proof.
  intros He. unfold _edge_weight. rewrite He.
  destruct (_are_neighbors g v1 v2) eqn:Hn; [done|].
  apply _are_neighbors_find in Hn. rewrite _get_edge_find in He. congruence.
Qed.

(** C10, as amended.  For endpoints in the vertex set, [new_edge] returns.
    When no edge from [u] to [v] was stored, the edge stored for [(u, v)]
    has the label argument as its weight and the weight argument as its
    label, so [_edge_weight] returns the label argument, which is [None] for
    the default arguments.  When an edge from [u] to [v] was stored, it
    stays the stored one. *)
Theorem new_edge_transposes (g : Graph) (u v : Z) (label weight : pyval) :
  u ∈ _vertices g → v ∈ _vertices g →
  ∃ g', new_edge g u v label weight = Ok g'
    ∧ (_are_neighbors g u v = false →
       _get_edge g' u v
       = Some {| _u := u; _v := v; _label := weight; _weight := label |}
       ∧ _edge_weight g' u v = Ok label
       ∧ (label = VNone → _edge_weight g' u v = Ok VNone))
    ∧ (_are_neighbors g u v = true → _get_edge g' u v = _get_edge g u v).
Proof.
  intros Hu Hv. eexists. split; [by apply new_edge_returns|].
  assert (He : has_endpoints u v (Edge_init u v label weight) = true)
    by by apply has_endpoints_eq.
  split.
  - intros Hn. apply _are_neighbors_find in Hn.
    assert (Hg : _get_edge
              (mkGraph (_vertices g)
                 (add_pair (_directed g) (_edges g)
                    (Edge_init u v label weight) (Edge_init v u label weight))
                 (_directed g)) u v
            = Some (Edge_init u v label weight)).
    { rewrite _get_edge_find. simpl. by rewrite find_add_pair, Hn, He. }
    split; [exact Hg|].
    apply _edge_weight_stored in Hg. simpl in Hg.
    split; [exact Hg|]. intros ->. exact Hg.
  - intros Hn. rewrite !_get_edge_find. simpl. rewrite find_add_pair.
    destruct (List.find (has_endpoints u v) (_edges g)) eqn:Hf; [done|].
    apply _are_neighbors_find in Hf. congruence.
Qed.

Lemma new_edge_transposes_witness :
  ∃ g', new_edge (mkGraph {[1; 2]} [] true) 1 2 VNone (VInt 0) = Ok g'
    ∧ _edge_weight g' 1 2 = Ok VNone.
Proof.
  destruct (new_edge_transposes (mkGraph {[1; 2]} [] true) 1 2 VNone (VInt 0))
    as (g' & Hg' & Hfresh & _);
    [apply (bool_decide_unpack _); reflexivity
    |apply (bool_decide_unpack _); reflexivity|].
  exists g'. split; [exact Hg'|].
  apply Hfresh; reflexivity.
Defined.

(** C10, without the hypothesis on the stored edges: an edge from 1 to 2
    of weight 5 is stored, [new_edge(1, 2)] is called with the default
    arguments, and [_edge_weight(1, 2)] still returns 5. *)
Lemma new_edge_keeps_stored_weight :
  (g ← Graph_init {[1; 2]} [Tuple3 1 2 (VInt 5)] true;
   g' ← new_edge g 1 2 VNone (VInt 0);
   _edge_weight g' 1 2) = Ok (VInt 5).
Proof. reflexivity. Qed.

(** [new_edge] raises, and then [ValueError], exactly when the first
    endpoint is absent and the second one is present.  In every other case
    it returns the graph with the same vertices and flag in which [u] and
    [v] are joined (in both directions when the graph is undirected), every
    edge stored before is still stored, and the edge found for a pair is
    the one stored before when there was one, and otherwise the edge the
    call built for that pair. *)
Theorem new_edge_raises_iff (self : Graph) (u v : Z) (label weight : pyval) :
  ((∃ e, new_edge self u v label weight = Raise e)
   ↔ (u ∉ _vertices self) ∧ (v ∈ _vertices self))
  ∧ ((u ∉ _vertices self) ∧ (v ∈ _vertices self) →
     new_edge self u v label weight = Raise ValueError)
  ∧ (¬ ((u ∉ _vertices self) ∧ (v ∈ _vertices self)) →
     ∃ g', new_edge self u v label weight = Ok g'
           ∧ _vertices g' = _vertices self
           ∧ _directed g' = _directed self
           ∧ _are_neighbors g' u v = true
           ∧ (_directed self = false → _are_neighbors g' v u = true)
           ∧ (∀ e, e ∈ _edges self → e ∈ _edges g')
           ∧ (∀ a b,
                _get_edge g' a b
                = match _get_edge self a b with
                  | Some stored => Some stored
                  | None =>
                      if has_endpoints a b (Edge_init u v label weight)
                      then Some (Edge_init u v label weight)
                      else if negb (_directed self)
                              && has_endpoints a b (Edge_init v u label weight)
                           then Some (Edge_init v u label weight)
                           else None
                  end)).
Proof.
  assert (Hguard : negb (bool_decide (u ∈ _vertices self))
                   && bool_decide (v ∈ _vertices self) = true
                   ↔ (u ∉ _vertices self) ∧ (v ∈ _vertices self)).
  { rewrite andb_true_iff, negb_true_iff, bool_decide_eq_false, bool_decide_eq_true.
    done. }
  assert (Hraise : (u ∉ _vertices self) ∧ (v ∈ _vertices self) →
                   new_edge self u v label weight = Raise ValueError).
  { intros H. apply Hguard in H. unfold new_edge. by rewrite H. }
  assert (Hok : ¬ ((u ∉ _vertices self) ∧ (v ∈ _vertices self)) →
                new_edge self u v label weight
                = Ok (mkGraph (_vertices self)
                        (add_pair (_directed self) (_edges self)
                           (Edge_init u v label weight) (Edge_init v u label weight))
                        (_directed self))).
  { intros H.
    assert (E : negb (bool_decide (u ∈ _vertices self))
                && bool_decide (v ∈ _vertices self) = false).
    { apply not_true_is_false. intros E. by apply Hguard in E. }
    unfold new_edge, add_pair. rewrite E. by destruct (_directed self). }
  split; [|split; [exact Hraise|]].
  - split.
    + intros [e He]. destruct (decide ((u ∉ _vertices self) ∧ (v ∈ _vertices self)))
        as [H|H]; [done|]. by rewrite (Hok H) in He.
    + intros H. rewrite (Hraise H). eauto.
  - intros H. eexists. split; [exact (Hok H)|]. simpl.
    assert (Hfind : ∀ a b,
              List.find (has_endpoints a b)
                (add_pair (_directed self) (_edges self)
                   (Edge_init u v label weight) (Edge_init v u label weight))
              = match List.find (has_endpoints a b) (_edges self) with
                | Some stored => Some stored
                | None =>
                    if has_endpoints a b (Edge_init u v label weight)
                    then Some (Edge_init u v label weight)
                    else if negb (_directed self)
                            && has_endpoints a b (Edge_init v u label weight)
                         then Some (Edge_init v u label weight)
                         else None
                end) by (intros a b; apply find_add_pair).
    assert (Huv : has_endpoints u v (Edge_init u v label weight) = true)
      by by apply has_endpoints_eq.
    assert (Hvu : has_endpoints v u (Edge_init v u label weight) = true)
      by by apply has_endpoints_eq.
    split; [done|]. split; [done|]. split; [|split; [|split]].
    + destruct (_are_neighbors _ u v) eqn:E; [done|].
      apply _are_neighbors_find in E. simpl in E. rewrite Hfind, Huv in E.
      by destruct (List.find (has_endpoints u v) (_edges self)).
    + intros Hd. destruct (_are_neighbors _ v u) eqn:E; [done|].
      apply _are_neighbors_find in E. simpl in E. rewrite Hfind, Hvu, Hd in E.
      destruct (List.find (has_endpoints v u) (_edges self)); [done|].
      by destruct (has_endpoints v u (Edge_init u v label weight)).
    + intros e He. unfold add_pair.
      assert (Hadd : ∀ s x, e ∈ s → e ∈ set_add s x).
      { intros s x Hs. unfold set_add. destruct (set_contains s x); [done|].
        apply elem_of_app. by left. }
      destruct (negb (_directed self)); auto.
    + intros a b. rewrite !_get_edge_find. simpl. apply Hfind.
Qed.

(** ** Mirrors in undirected graphs *)

(** C5.  The undirected graph built from the vertices 1, 2 and the [_Edge]
    from 1 to 2 of weight 5 and no label stores, as the edge from 2 to 1,
    an edge without weight whose label is 5: [reverse] gives the label to
    the constructor as the weight and the weight as the label. *)
Theorem reverse_exchanges_weight_and_label :
  Graph_init {[1; 2]} [EdgeObj (Edge_init 1 2 (VInt 5) VNone)] false
  = Ok (mkGraph {[1; 2]}
          [ {| _u := 1; _v := 2; _label := VNone; _weight := VInt 5 |};
            {| _u := 2; _v := 1; _label := VInt 5; _weight := VNone |} ]
          false)
  ∧ ¬ mirror_closed
        [ {| _u := 1; _v := 2; _label := VNone; _weight := VInt 5 |};
          {| _u := 2; _v := 1; _label := VInt 5; _weight := VNone |} ].
Proof.
  split; [reflexivity|].
  intros H.
  specialize (H {| _u := 1; _v := 2; _label := VNone; _weight := VInt 5 |}).
  unfold mirror in H. simpl in H.
  assert (Hin : {| _u := 2; _v := 1; _label := VNone; _weight := VInt 5 |}
                ∈ [ {| _u := 1; _v := 2; _label := VNone; _weight := VInt 5 |};
                    {| _u := 2; _v := 1; _label := VInt 5; _weight := VNone |} ])
    by (apply H; left).
  apply list_elem_of_In in Hin. simpl in Hin.
  destruct Hin as [Hin|[Hin|[]]]; discriminate Hin.
Qed.

(** ** The invariants of the set of edges *)

Lemma populate_edge_unique (vertices : gset Z) (directed : bool)
    (s s' : list Edge) (edge : edge_desc) :
  unique_pairs s → populate_edge vertices directed s edge = Ok s' →
  unique_pairs s'.
Proof.
  intros Hs. unfold populate_edge.
  destruct (_ || _); [done|].
  intros [= <-]. destruct edge; by apply unique_pairs_add_pair.
Qed.

Lemma foldM_populate_unique (vertices : gset Z) (directed : bool)
    (edges : list edge_desc) (s s' : list Edge) :
  unique_pairs s → foldM (populate_edge vertices directed) edges s = Ok s' →
  unique_pairs s'.
Proof.
  revert s. induction edges as [|edge edges IH]; intros s Hs; simpl.
  - by intros [= <-].
  - intros H. apply bind_Ok_inv in H as (s1 & H1 & H).
    eapply IH; [|exact H]. by eapply populate_edge_unique.
Qed.

(** Every graph the constructor returns, and every graph [new_edge] makes of
    it, stores at most one edge per ordered pair of vertices. *)
Lemma Graph_unique_pairs (vertices : gset Z) (edges : list edge_desc)
    (directed : bool) (g : Graph) :
  Graph_init vertices edges directed = Ok g →
  unique_pairs (_edges g)
  ∧ ∀ u v label weight g',
      new_edge g u v label weight = Ok g' → unique_pairs (_edges g').
Proof.
  unfold Graph_init. intros H. apply bind_Ok_inv in H as (s & Hs & [= <-]).
  assert (Hu : unique_pairs s)
    by (eapply foldM_populate_unique; [apply unique_pairs_nil|exact Hs]).
  split; [exact Hu|].
  intros u v label weight g'. unfold new_edge. destruct (_ && _); [done|].
  intros [= <-]. simpl.
  destruct directed; simpl; auto using unique_pairs_set_add.
Qed.

Lemma Graph_unique_pairs_witness :
  unique_pairs
    [Edge_init 1 2 (VInt 5) VNone; Edge_init 2 1 (VInt 5) VNone].
Proof.
  apply (Graph_unique_pairs {[1; 2]} [Tuple3 1 2 (VInt 5); Tuple3 1 2 (VInt 7)] false
           (mkGraph {[1; 2]}
              [Edge_init 1 2 (VInt 5) VNone; Edge_init 2 1 (VInt 5) VNone] false)).
  reflexivity.
Defined.

Lemma set_contains_true (s : list Edge) (e : Edge) :
  set_contains s e = true ↔ ∃ x, x ∈ s ∧ _u x = _u e ∧ _v x = _v e.
Proof.
  rewrite set_contains_existsb, existsb_exists. split.
  - intros (x & Hx & He). apply has_endpoints_eq in He.
    exists x. by rewrite list_elem_of_In.
  - intros (x & Hx & He). exists x. rewrite <- list_elem_of_In.
    split; [done|]. by apply has_endpoints_eq.
Qed.

Lemma mirror_involutive (e : Edge) : mirror (mirror e) = e.
Proof. by destruct e. Qed.

Lemma mirror_loop (e : Edge) : _u e = _v e → mirror e = e.
Proof. destruct e as [u v l w]. simpl. intros ->. reflexivity. Qed.

(** Inserting an edge and then its mirror keeps the set closed under
    mirrors. *)
Lemma mirror_closed_add_pair (s : list Edge) (e : Edge) :
  mirror_closed s → mirror_closed (add_pair false s e (mirror e)).
Proof.
  intros Hs. unfold add_pair. simpl. unfold set_add at 2.
  destruct (set_contains s e) eqn:Hc.
  - unfold set_add. rewrite (proj2 (set_contains_true s (mirror e))); [done|].
    apply set_contains_true in Hc as (x & Hx & Hu & Hv).
    exists (mirror x). split; [by apply Hs|]. simpl. done.
  - unfold set_add. destruct (set_contains (s ++ [e]) (mirror e)) eqn:Hc2.
    + intros y Hy. apply elem_of_app in Hy as [Hy|Hy].
      * apply elem_of_app. left. by apply Hs.
      * apply list_elem_of_singleton in Hy as ->.
        apply set_contains_true in Hc2 as (x & Hx & Hu & Hv). simpl in Hu, Hv.
        apply elem_of_app in Hx as [Hx|Hx].
        -- assert (Hc' : set_contains s e = true).
           { apply set_contains_true. exists (mirror x).
             split; [by apply Hs|]. simpl. done. }
           congruence.
        -- apply list_elem_of_singleton in Hx as ->.
           rewrite mirror_loop by done. apply elem_of_app. right. left.
    + intros y Hy. apply elem_of_app in Hy as [Hy|Hy].
      * apply elem_of_app in Hy as [Hy|Hy].
        -- apply elem_of_app. left. apply elem_of_app. left. by apply Hs.
        -- apply list_elem_of_singleton in Hy as ->.
           apply elem_of_app. right. left.
      * apply list_elem_of_singleton in Hy as ->.
        rewrite mirror_involutive. apply elem_of_app. left.
        apply elem_of_app. right. left.
Qed.

Lemma populate_edge_mirror_closed (vertices : gset Z)
    (s s' : list Edge) (edge : edge_desc) :
  is_tuple edge → mirror_closed s →
  populate_edge vertices false s edge = Ok s' → mirror_closed s'.
Proof.
  intros Ht Hs. unfold populate_edge. destruct (_ || _); [done|].
  intros [= <-]. destruct edge; [| | |done];
    apply (mirror_closed_add_pair s (Edge_init _ _ _ _) Hs).
Qed.

Lemma foldM_populate_mirror_closed (vertices : gset Z)
    (edges : list edge_desc) (s s' : list Edge) :
  Forall is_tuple edges → mirror_closed s →
  foldM (populate_edge vertices false) edges s = Ok s' → mirror_closed s'.
Proof.
  intros Ht. revert s. induction Ht as [|edge edges Hedge _ IH]; intros s Hs; simpl.
  - by intros [= <-].
  - intros H. apply bind_Ok_inv in H as (s1 & H1 & H).
    eapply IH; [|exact H]. by eapply populate_edge_mirror_closed.
Qed.

(** An undirected graph built from tuples stores with every edge its mirror,
    with the same weight and label, and [new_edge] keeps it so: only the
    descriptions that are [_Edge] objects break the invariant. *)
Lemma undirected_mirror_closed (vertices : gset Z) (edges : list edge_desc)
    (g : Graph) :
  Forall is_tuple edges →
  Graph_init vertices edges false = Ok g →
  mirror_closed (_edges g)
  ∧ ∀ g0 u v label weight g',
      _directed g0 = false → mirror_closed (_edges g0) →
      new_edge g0 u v label weight = Ok g' → mirror_closed (_edges g').
Proof.
  intros Ht. unfold Graph_init. intros H.
  apply bind_Ok_inv in H as (s & Hs & [= <-]). split.
  - simpl. eapply foldM_populate_mirror_closed; [exact Ht| |exact Hs].
    intros e He. by apply elem_of_nil in He.
  - intros g0 u v label weight g' Hd Hg0. unfold new_edge.
    destruct (_ && _); [done|]. intros [= <-]. simpl. rewrite Hd.
    apply (mirror_closed_add_pair (_edges g0) (Edge_init u v label weight) Hg0).
Qed.

Lemma undirected_mirror_closed_witness :
  mirror_closed [Edge_init 1 2 (VInt 5) VNone; Edge_init 2 1 (VInt 5) VNone].
Proof.
  apply (undirected_mirror_closed {[1; 2]} [Tuple3 1 2 (VInt 5)]
           (mkGraph {[1; 2]}
              [Edge_init 1 2 (VInt 5) VNone; Edge_init 2 1 (VInt 5) VNone] false)).
  - repeat constructor.
  - reflexivity.
Defined.

(** ** [Matrix.det] *)

Lemma Matrix_init_returns (rows : list (list pyval)) (m : Matrix) :
  Matrix_init rows = Ok m → m = rows.
Proof.
  unfold Matrix_init. destruct rows as [|row0 rows']; [by intros [= <-]|].
  destruct (forallb _ _); [by intros [= <-]|done].
Qed.

Lemma filter_seq_positive (s n : nat) :
  (1 ≤ s)%nat →
  List.filter (λ j, negb (Z.of_nat j =? 0)) (seq s n) = seq s n.
Proof.
  revert s. induction n as [|n IH]; intros s Hs; simpl; [done|].
  destruct (Z.of_nat s =? 0) eqn:E; [apply Z.eqb_eq in E; lia|].
  simpl. f_equal. apply IH. lia.
Qed.

(** A minor along the first row has one row less. *)
Lemma minor_height (self m : Matrix) (p : Z) :
  minor self p 0 = Ok m → S (height m) = height self.
Proof.
  unfold minor.
  destruct (p <? 0); [done|].
  destruct (width self) as [w|]; simpl; [|done].
  destruct (Z.of_nat w - 1 <? p); [done|].
  destruct (Z.of_nat (height self) - 1 <? 0) eqn:Hh; [done|].
  simpl.
  destruct (mapM _ _) as [rows|] eqn:Hrows; simpl; [|done].
  intros Hm. apply Matrix_init_returns in Hm as ->.
  apply mapM_length in Hrows. apply Z.ltb_ge in Hh.
  unfold height, range in *. rewrite Hrows.
  destruct (length self) as [|h]; [lia|].
  simpl. rewrite filter_seq_positive by lia.
  by rewrite length_seq.
Qed.

(** The two-by-two case. *)
Lemma det_2x2 (a b c d : Z) :
  det [[VInt a; VInt b]; [VInt c; VInt d]] = Ok (VInt (a * d - b * c)).
Proof.
  unfold det. simpl. do 2 f_equal. lia.
Qed.

(** The general case: [det] on a square matrix that has not two rows is the
    cofactor expansion along the first row, the determinants of the minors
    being those [det] returns. *)
Lemma det_general (self : Matrix) (w : nat) :
  width self = Ok w → height self = w → w ≠ 2%nat →
  det self = cofactor_expansion self.
Proof.
  intros Hw Hh Hw2. unfold det, cofactor_expansion. simpl.
  rewrite Hw. simpl. rewrite Hh, Nat.eqb_refl. simpl.
  destruct (w =? 2)%nat eqn:E; [apply Nat.eqb_eq in E; done|].
  f_equal. apply mapM_ext. intros i _.
  apply bind_ext; intros x _. apply bind_ext; intros sx _.
  apply bind_ext; intros m Hm.
  apply minor_height in Hm. unfold det. by rewrite Hm, Hh.
Qed.

(** *** Matrices of numbers *)

(** Reading the positions [a, ..., a + k - 1] of a list. *)
Lemma mapM_seq_lookup {A B} (f : nat → result B) (h : A → B) (l : list A) (k a : nat) :
  (∀ j x, l !! j = Some x → f j = Ok (h x)) →
  (a + k ≤ length l)%nat →
  mapM f (seq a k) = Ok (h <$> take k (drop a l)).
Proof.
  intros Hf. revert a. induction k as [|k IH]; intros a Hlen; simpl.
  - done.
  - destruct (lookup_lt_is_Some_2 l a) as [x Hx]; [lia|].
    rewrite (Hf a x Hx). simpl. rewrite IH by lia. simpl.
    by rewrite (drop_S l x a Hx).
Qed.

Lemma filter_all {A} (f : A → bool) (l : list A) :
  (∀ x, x ∈ l → f x = true) → List.filter f l = l.
Proof.
  induction l as [|x l IH]; intros Hf; simpl; [done|].
  rewrite (Hf x) by left. f_equal. apply IH. intros y Hy. apply Hf. by right.
Qed.

(** The columns kept by [minor(p, q)]. *)
Lemma filter_seq_ne (p n : nat) :
  (p < n)%nat →
  List.filter (λ i, negb (Z.of_nat i =? Z.of_nat p)) (range n)
  = seq 0 p ++ seq (S p) (n - S p).
Proof.
  intros Hp. unfold range.
  replace n with (p + S (n - S p))%nat at 1 by lia.
  rewrite seq_app, List.filter_app. simpl.
  rewrite Z.eqb_refl. simpl. f_equal; apply filter_all.
  - intros x Hx. apply elem_of_seq in Hx.
    apply negb_true_iff, Z.eqb_neq. lia.
  - intros x Hx. apply elem_of_seq in Hx.
    apply negb_true_iff, Z.eqb_neq. lia.
Qed.

Lemma Matrix_init_rectangular (rows : list (list pyval)) (k : nat) :
  Forall (λ row, length row = k) rows → Matrix_init rows = Ok rows.
Proof.
  intros Hrows. unfold Matrix_init. destruct rows as [|row0 rows']; [done|].
  rewrite (proj2 (forallb_forall _ _)); [done|].
  intros row Hrow. apply Nat.eqb_eq.
  rewrite Forall_forall in Hrows.
  rewrite (Hrows row), (Hrows row0); [done|left|by apply list_elem_of_In].
Qed.

Lemma int_matrix_lookup (m : list (list Z)) (j : nat) (row : list Z) :
  m !! j = Some row → int_matrix m !! j = Some (VInt <$> row).
Proof. intros H. unfold int_matrix. by rewrite list_lookup_fmap, H. Qed.

Lemma getitem_Some {A} (l : list A) (i : nat) (x : A) :
  l !! i = Some x → getitem l i = Ok x.
Proof. intros H. unfold getitem. by rewrite H. Qed.

Lemma width_int_matrix (n : nat) (m : list (list Z)) :
  square n m → (1 ≤ n)%nat → width (int_matrix m) = Ok n.
Proof.
  intros [Hlen Hrows] Hn. destruct m as [|row m]; [simpl in Hlen; lia|].
  simpl. apply Forall_cons in Hrows as [Hrow _].
  unfold width. simpl. by rewrite length_fmap, Hrow.
Qed.

Lemma height_int_matrix (n : nat) (m : list (list Z)) :
  square n m → height (int_matrix m) = n.
Proof. intros [Hlen _]. unfold height, int_matrix. by rewrite length_fmap. Qed.

Lemma getitem2_int_matrix (n : nat) (m : list (list Z)) (i : nat) :
  square n m → (i < n)%nat →
  getitem2 (int_matrix m) 0 i = Ok (VInt (nth i (hd [] m) 0)).
Proof.
  intros [Hlen Hrows] Hi. destruct m as [|row m]; [simpl in Hlen; lia|].
  apply Forall_cons in Hrows as [Hrow _].
  unfold getitem2. simpl.
  destruct (lookup_lt_is_Some_2 row i) as [x Hx]; [lia|].
  rewrite (getitem_Some _ i (VInt x)) by by rewrite list_lookup_fmap, Hx.
  by rewrite (nth_lookup_Some _ _ _ _ Hx).
Qed.

Lemma square_minor_spec (n p : nat) (m : list (list Z)) :
  square (S n) m → (p < S n)%nat → square n (minor_spec p m).
Proof.
  intros [Hlen Hrows] Hp. unfold minor_spec. split.
  - rewrite length_fmap, length_drop. lia.
  - apply Forall_fmap, Forall_drop.
    eapply Forall_impl; [exact Hrows|]. intros row Hrow. simpl in *.
    rewrite length_app, length_take, length_drop. lia.
Qed.

(** On a square matrix of numbers the minor of the code is the minor of the
    specification. *)
Lemma minor_int_matrix (n p : nat) (m : list (list Z)) :
  square (S n) m → (p < S n)%nat →
  minor (int_matrix m) (Z.of_nat p) 0 = Ok (int_matrix (minor_spec p m)).
Proof.
  intros Hsq Hp. unfold minor.
  destruct (Z.of_nat p <? 0) eqn:E1; [apply Z.ltb_lt in E1; lia|].
  rewrite (width_int_matrix (S n) m Hsq), bind_Ok by lia.
  destruct (Z.of_nat (S n) - 1 <? Z.of_nat p) eqn:E2; [apply Z.ltb_lt in E2; lia|].
  rewrite (height_int_matrix (S n) m Hsq).
  destruct (Z.of_nat (S n) - 1 <? 0) eqn:E3; [apply Z.ltb_lt in E3; lia|].
  rewrite Z.ltb_irrefl. cbn [orb].
  rewrite filter_seq_ne by done.
  replace (List.filter (λ j, negb (Z.of_nat j =? 0)) (range (S n))) with (seq 1 n)
    by (unfold range; simpl; by rewrite filter_seq_positive).
  destruct Hsq as [Hlen Hrows].
  rewrite (mapM_seq_lookup _
             (λ row : list pyval, take p row ++ drop (S p) row)
             (int_matrix m) n 1).
  - rewrite bind_Ok.
    rewrite take_ge by (unfold int_matrix; rewrite length_drop, length_fmap; lia).
    assert (Heq : (λ row : list pyval, take p row ++ drop (S p) row) <$> drop 1 (int_matrix m)
                  = int_matrix (minor_spec p m)).
    { unfold int_matrix, minor_spec. rewrite <- fmap_drop, <- !list_fmap_compose.
      apply list_fmap_ext. intros i row _. simpl.
      by rewrite fmap_app, fmap_take, fmap_drop. }
    rewrite Heq. apply (Matrix_init_rectangular _ n).
    unfold int_matrix. apply Forall_fmap.
    destruct (square_minor_spec n p m (conj Hlen Hrows) Hp) as [_ H].
    eapply Forall_impl; [exact H|]. intros row Hrow. simpl. by rewrite length_fmap.
  - intros j row' Hj.
    unfold int_matrix in Hj. apply list_lookup_fmap_Some in Hj as (row & -> & Hrow).
    assert (Hl : length row = S n).
    { rewrite Forall_forall in Hrows. apply Hrows.
      by eapply list_elem_of_lookup_2. }
    assert (Hget : ∀ i, getitem2 (int_matrix m) j i = getitem (VInt <$> row) i).
    { intros i. unfold getitem2.
      by rewrite (getitem_Some _ j _ (int_matrix_lookup m j row Hrow)). }
    rewrite (mapM_ext _ (getitem (VInt <$> row))) by (intros; apply Hget).
    erewrite mapM_app; [done| |].
    + rewrite (mapM_seq_lookup _ id (VInt <$> row) p 0);
        [|intros ???; by apply getitem_Some|rewrite length_fmap; lia].
      by rewrite drop_0, list_fmap_id.
    + rewrite (mapM_seq_lookup _ id (VInt <$> row) (S n - S p) (S p));
        [|intros ???; by apply getitem_Some|rewrite length_fmap; lia].
      rewrite list_fmap_id, take_ge; [done|].
      rewrite length_drop, length_fmap. lia.
  - unfold int_matrix. rewrite length_fmap. lia.
Qed.

Lemma py_sum_ints (t : nat → Z) (l : list nat) (acc : Z) :
  foldM py_add ((λ i, VInt (t i)) <$> l) (VInt acc)
  = Ok (VInt (foldl (λ acc i, acc + t i) acc l)).
Proof.
  revert acc. induction l as [|i l IH]; intros acc; [done|].
  simpl. apply IH.
Qed.

Lemma det_fuel_S (fuel : nat) (self : Matrix) :
  det_fuel (S fuel) self
  = (w ← width self;
     if negb (height self =? w)%nat then Raise ValueError else
     if (height self =? 2)%nat then
       a ← getitem2 self 0 0;
       d ← getitem2 self 1 1;
       ad ← py_mul a d;
       b ← getitem2 self 0 1;
       nb ← py_mul (VInt (-1)) b;
       c ← getitem2 self 1 0;
       nbc ← py_mul nb c;
       py_add ad nbc
     else
       terms ← mapM (λ i,
                  x ← getitem2 self 0 i;
                  sx ← py_mul (VInt ((-1) ^ Z.of_nat i)) x;
                  m ← minor self (Z.of_nat i) 0;
                  d ← det_fuel fuel m;
                  py_mul sx d)
                (range w);
       py_sum terms).
Proof. reflexivity. Qed.

(** On an [n × n] matrix of numbers, [2 ≤ n], the recursion returns the
    determinant of the specification as soon as it is given [n - 1]
    levels. *)
Lemma det_fuel_spec (n : nat) :
  ∀ (fuel : nat) (m : list (list Z)),
    (2 ≤ n)%nat → square n m → (n ≤ S fuel)%nat →
    det_fuel fuel (int_matrix m) = Ok (VInt (det_spec n m)).
Proof.
  induction n as [|n IH]; intros fuel m Hn Hsq Hfuel; [lia|].
  destruct fuel as [|fuel]; [lia|].
  rewrite det_fuel_S, (width_int_matrix (S n) m Hsq), bind_Ok by lia.
  rewrite (height_int_matrix (S n) m Hsq), Nat.eqb_refl. cbn [negb].
  destruct (S n =? 2)%nat eqn:E2.
  - apply Nat.eqb_eq in E2. injection E2 as ->.
    destruct Hsq as [Hlen Hrows].
    destruct m as [|r1 [|r2 [|]]]; simpl in Hlen; try lia.
    apply Forall_cons in Hrows as [H1 Hrows].
    apply Forall_cons in Hrows as [H2 _].
    destruct r1 as [|a [|b [|]]]; simpl in H1; try lia.
    destruct r2 as [|c [|d [|]]]; simpl in H2; try lia.
    simpl. do 2 f_equal. lia.
  - apply Nat.eqb_neq in E2.
    pose (t := λ i : nat, (-1) ^ Z.of_nat i * nth i (hd [] m) 0
                          * det_spec n (minor_spec i m)).
    rewrite (mapM_Ok _ (λ i, VInt (t i))).
    + rewrite bind_Ok. unfold py_sum. rewrite (py_sum_ints t).
      simpl det_spec. destruct n as [|[|n']]; [lia|lia|]. reflexivity.
    + intros i Hi. apply elem_of_seq in Hi.
      rewrite (getitem2_int_matrix (S n) m i Hsq), bind_Ok by lia.
      cbn [py_mul]. rewrite bind_Ok.
      rewrite (minor_int_matrix n i m Hsq), bind_Ok by lia.
      rewrite (IH fuel (minor_spec i m)); [done|lia| |lia].
      apply square_minor_spec; [done|lia].
Qed.

(** [det] returns the determinant of the specification. *)
Lemma det_int_matrix (n : nat) (m : list (list Z)) :
  (2 ≤ n)%nat → square n m → det (int_matrix m) = Ok (VInt (det_spec n m)).
Proof.
  intros Hn Hsq. unfold det. rewrite (height_int_matrix n m Hsq).
  apply det_fuel_spec; [done|done|lia].
Qed.

(** *** The recursion of [det] never exhausts its bound *)

Lemma py_add_fuel (a b : pyval) : py_add a b ≠ Raise OutOfFuel.
Proof. by destruct a, b. Qed.

Lemma mapM_Raise_inv {A B} (f : A → result B) (l : list A) (e : exn) :
  mapM f l = Raise e → ∃ x, x ∈ l ∧ f x = Raise e.
Proof.
  induction l as [|x l IH]; simpl; [done|].
  intros H. apply bind_Raise_inv in H as [H|(y & _ & H)].
  - exists x. split; [left|done].
  - apply bind_Raise_inv in H as [H|(ys & _ & H)]; [|done].
    destruct (IH H) as (z & Hz & Hf). exists z. split; [by right|done].
Qed.

Lemma getitem_fuel {A} (l : list A) (i : nat) : getitem l i ≠ Raise OutOfFuel.
Proof. unfold getitem. by destruct (l !! i). Qed.

Lemma getitem2_fuel (self : Matrix) (i j : nat) :
  getitem2 self i j ≠ Raise OutOfFuel.
Proof.
  unfold getitem2. intros H.
  apply bind_Raise_inv in H as [H|(row & _ & H)]; by apply getitem_fuel in H.
Qed.

Lemma py_mul_fuel (a b : pyval) : py_mul a b ≠ Raise OutOfFuel.
Proof. by destruct a, b. Qed.

Lemma py_sum_fuel (l : list pyval) (acc : pyval) :
  foldM py_add l acc ≠ Raise OutOfFuel.
Proof.
  revert acc. induction l as [|x l IH]; intros acc; simpl; [done|].
  intros H. apply bind_Raise_inv in H as [H|(y & _ & H)].
  - by apply py_add_fuel in H.
  - by apply IH in H.
Qed.

Lemma width_fuel (self : Matrix) : width self ≠ Raise OutOfFuel.
Proof. by destruct self. Qed.

Lemma Matrix_init_fuel (rows : list (list pyval)) :
  Matrix_init rows ≠ Raise OutOfFuel.
Proof.
  unfold Matrix_init. destruct rows as [|row0 rows']; [done|].
  by destruct (forallb _ _).
Qed.

Lemma minor_fuel (self : Matrix) (p q : Z) : minor self p q ≠ Raise OutOfFuel.
Proof.
  unfold minor. destruct (p <? 0); [done|]. intros H.
  apply bind_Raise_inv in H as [H|(w & _ & H)]; [by apply width_fuel in H|].
  destruct (Z.of_nat w - 1 <? p); [done|].
  destruct (_ || _); [done|].
  apply bind_Raise_inv in H as [H|(rows & _ & H)]; [|by apply Matrix_init_fuel in H].
  apply mapM_Raise_inv in H as (j & _ & H).
  apply mapM_Raise_inv in H as (i & _ & H).
  by apply getitem2_fuel in H.
Qed.

Lemma det_fuel_enough (fuel : nat) (self : Matrix) :
  (height self < fuel)%nat → det_fuel fuel self ≠ Raise OutOfFuel.
Proof.
  revert self. induction fuel as [|fuel IH]; intros self Hh; [lia|].
  rewrite det_fuel_S. intros H.
  apply bind_Raise_inv in H as [H|(w & _ & H)]; [by apply width_fuel in H|].
  destruct (negb _); [done|].
  destruct (height self =? 2)%nat.
  - apply bind_Raise_inv in H as [H|(a & _ & H)]; [by apply getitem2_fuel in H|].
    apply bind_Raise_inv in H as [H|(d & _ & H)]; [by apply getitem2_fuel in H|].
    apply bind_Raise_inv in H as [H|(ad & _ & H)]; [by apply py_mul_fuel in H|].
    apply bind_Raise_inv in H as [H|(b & _ & H)]; [by apply getitem2_fuel in H|].
    apply bind_Raise_inv in H as [H|(nb & _ & H)]; [by apply py_mul_fuel in H|].
    apply bind_Raise_inv in H as [H|(c & _ & H)]; [by apply getitem2_fuel in H|].
    apply bind_Raise_inv in H as [H|(nbc & _ & H)]; [by apply py_mul_fuel in H|].
    by apply py_add_fuel in H.
  - apply bind_Raise_inv in H as [H|(terms & _ & H)]; [|by apply py_sum_fuel in H].
    apply mapM_Raise_inv in H as (i & _ & H).
    apply bind_Raise_inv in H as [H|(x & _ & H)]; [by apply getitem2_fuel in H|].
    apply bind_Raise_inv in H as [H|(sx & _ & H)]; [by apply py_mul_fuel in H|].
    apply bind_Raise_inv in H as [H|(m & Hm & H)]; [by apply minor_fuel in H|].
    apply bind_Raise_inv in H as [H|(d & _ & H)]; [|by apply py_mul_fuel in H].
    apply minor_height in Hm. revert H. apply IH. lia.
Qed.

(** [det] ends, with a value or an exception, on every matrix. *)
Lemma det_terminates (self : Matrix) : det self ≠ Raise OutOfFuel.
Proof. apply det_fuel_enough. lia. Qed.

(** The expansion of the specification along the first row. *)
Lemma det_spec_expansion (n : nat) (m : list (list Z)) :
  (2 ≤ n)%nat →
  det_spec (S n) m
  = Zsum (λ i, (-1) ^ Z.of_nat i * nth i (hd [] m) 0 * det_spec n (minor_spec i m))
         (range (S n)).
Proof. intros Hn. destruct n as [|[|n]]; [lia|lia|done]. Qed.

(** C7, as amended.  On every [n × n] matrix of numbers with [2 ≤ n],
    [det] returns a number, the one the two rules define: on
    [[a, b], [c, d]] it is [a*d - b*c]; with three rows or more, [det]
    returns a number on every [minor(i, 0)], and the determinant is the sum
    over [i] of [(-1)^i] times the entry [(0, i)] times the determinant of
    [minor(i, 0)].  The determinant of [[1, 2, 3], [4, 5, 6], [7, 8, 10]]
    is [-3]. *)
Theorem det_cofactor_expansion :
  (∀ (n : nat) (m : list (list Z)),
     (2 ≤ n)%nat → square n m →
     ∃ v, det (int_matrix m) = Ok (VInt v)
          ∧ v = det_spec n m
          ∧ (n = 2%nat → ∃ a b c d, m = [[a; b]; [c; d]] ∧ v = a * d - b * c)
          ∧ ((3 ≤ n)%nat →
             ∃ d : nat → Z,
               (∀ i, (i < n)%nat →
                  ∃ mi, minor (int_matrix m) (Z.of_nat i) 0 = Ok mi
                        ∧ det mi = Ok (VInt (d i)))
               ∧ v = Zsum (λ i, (-1) ^ Z.of_nat i * nth i (hd [] m) 0 * d i)
                          (range n)))
  ∧ det [[VInt 1; VInt 2; VInt 3]; [VInt 4; VInt 5; VInt 6]; [VInt 7; VInt 8; VInt 10]]
    = Ok (VInt (-3)).
Proof.
  split; [|reflexivity].
  intros n m Hn Hsq. exists (det_spec n m).
  split; [by apply det_int_matrix|]. split; [done|]. split.
  - intros ->. destruct Hsq as [Hlen Hrows].
    destruct m as [|r1 [|r2 [|]]]; simpl in Hlen; try lia.
    apply Forall_cons in Hrows as [H1 Hrows].
    apply Forall_cons in Hrows as [H2 _].
    destruct r1 as [|a [|b [|]]]; simpl in H1; try lia.
    destruct r2 as [|c [|d [|]]]; simpl in H2; try lia.
    by exists a, b, c, d.
  - intros H3. destruct n as [|n']; [lia|].
    exists (λ i, det_spec n' (minor_spec i m)). split.
    + intros i Hi. exists (int_matrix (minor_spec i m)).
      split; [by apply (minor_int_matrix n')|].
      apply (det_int_matrix n'); [lia|]. by apply square_minor_spec.
    + apply det_spec_expansion. lia.
Qed.

Lemma det_cofactor_expansion_witness :
  ∃ v, det (int_matrix [[2; 0; 1]; [1; 3; 2]; [1; 1; 1]]) = Ok (VInt v)
       ∧ v = det_spec 3%nat [[2; 0; 1]; [1; 3; 2]; [1; 1; 1]].
Proof.
  destruct (proj1 det_cofactor_expansion 3%nat [[2; 0; 1]; [1; 3; 2]; [1; 1; 1]])
    as (v & Hv & Hspec & _).
  - lia.
  - split; [reflexivity|]. repeat constructor.
  - exists v. split; [exact Hv|exact Hspec].
Defined.

(** No value on two square matrices: a single row of a single number, where
    the expansion reaches the matrix without rows, and a matrix with an
    infinite entry, which no multiplication accepts. *)
Lemma det_raises_on_1x1_and_infinity :
  det [[VInt 5]] = Raise IndexError
  ∧ det [[VEnum _inf; VInt 0]; [VInt 0; VInt 1]] = Raise TypeError.
Proof. split; reflexivity. Qed.

(** Without a row, and with a single row of a single entry, [det] raises
    [IndexError]: the expansion reaches the empty matrix, whose [width()]
    reads a row that does not exist. *)
Lemma det_small_raises (x : Z) :
  det [] = Raise IndexError ∧ det [[VInt x]] = Raise IndexError.
Proof. split; reflexivity. Qed.

(** ** [Graph.dijkstra] *)

Lemma dict_get_fuel (d : gmap Z pyval) (k : Z) : dict_get d k ≠ Raise OutOfFuel.
Proof. unfold dict_get. by destruct (d !! k). Qed.

Lemma py_gt_fuel (a b : pyval) : py_gt a b ≠ Raise OutOfFuel.
Proof. by destruct a, b. Qed.

Lemma _edge_weight_fuel (g : Graph) (a b : Z) : _edge_weight g a b ≠ Raise OutOfFuel.
Proof.
  unfold _edge_weight. destruct (negb _); [done|]. by destruct (_get_edge g a b).
Qed.

(** One round of the inner loop puts at most its neighbor on the queue. *)
Lemma relax_queue (g : Graph) (c x : Z) (d d' : gmap Z pyval) (q q' : list Z) :
  relax g c (d, q) x = Ok (d', q') → q' = q ∨ q' = q ++ [x].
Proof.
  unfold relax. intros H.
  apply bind_Ok_inv in H as (dc & _ & H).
  apply bind_Ok_inv in H as (w & _ & H).
  apply bind_Ok_inv in H as (t & _ & H).
  apply bind_Ok_inv in H as (dn & _ & H).
  apply bind_Ok_inv in H as (b & _ & H).
  destruct b; injection H as <- <-; auto.
Qed.

Lemma relax_fuel (g : Graph) (c x : Z) (st : gmap Z pyval * list Z) :
  relax g c st x ≠ Raise OutOfFuel.
Proof.
  destruct st as [d q]. unfold relax. intros H.
  apply bind_Raise_inv in H as [H|(dc & _ & H)]; [by apply dict_get_fuel in H|].
  apply bind_Raise_inv in H as [H|(w & _ & H)]; [by apply _edge_weight_fuel in H|].
  apply bind_Raise_inv in H as [H|(t & _ & H)]; [by apply py_add_fuel in H|].
  apply bind_Raise_inv in H as [H|(dn & _ & H)]; [by apply dict_get_fuel in H|].
  apply bind_Raise_inv in H as [H|(b & _ & H)]; [by apply py_gt_fuel in H|].
  by destruct b.
Qed.

Lemma foldM_relax_fuel (g : Graph) (c : Z) (ns : list Z)
    (st : gmap Z pyval * list Z) :
  foldM (relax g c) ns st ≠ Raise OutOfFuel.
Proof.
  revert st. induction ns as [|x ns IH]; intros st; simpl; [done|].
  intros H. apply bind_Raise_inv in H as [H|(st' & _ & H)].
  - by apply relax_fuel in H.
  - by apply IH in H.
Qed.

(** The inner loop appends to the queue, and only neighbors, each at most
    once. *)
Lemma foldM_relax_queue (g : Graph) (c : Z) (ns : list Z)
    (d d' : gmap Z pyval) (q q' : list Z) :
  foldM (relax g c) ns (d, q) = Ok (d', q') →
  ∃ pushed, q' = q ++ pushed
    ∧ (∀ y, y ∈ pushed → y ∈ ns)
    ∧ (length pushed ≤ length ns)%nat.
Proof.
  revert d q. induction ns as [|x ns IH]; intros d q; simpl.
  - intros [= <- <-]. exists []. rewrite app_nil_r. split; [done|].
    split; [by intros y Hy; apply elem_of_nil in Hy|done].
  - intros H. apply bind_Ok_inv in H as ([d1 q1] & H1 & H).
    apply IH in H as (pushed & -> & Hin & Hlen).
    apply relax_queue in H1 as [->| ->].
    + exists pushed. split; [done|]. split; [|lia].
      intros y Hy. right. by apply Hin.
    + exists (x :: pushed). rewrite <- app_assoc. split; [done|]. split; [|simpl; lia].
      intros y Hy. apply elem_of_cons in Hy as [->|Hy]; [left|right; by apply Hin].
Qed.

Section Dijkstra.

Variable set_order : list Z → list Z.
Hypothesis set_order_perm : ∀ l, set_order l ≡ₚ l.

Variable g : Graph.

Lemma neighbors_vertices (c x : Z) :
  x ∈ neighbors set_order g c → x ∈ _vertices g.
Proof.
  unfold neighbors. rewrite set_order_perm.
  intros H. apply list_elem_of_In, filter_In in H as [H _].
  by apply list_elem_of_In, elem_of_elements in H.
Qed.

Lemma neighbors_length (c : Z) :
  (length (neighbors set_order g c) ≤ size (_vertices g))%nat.
Proof.
  unfold neighbors. rewrite set_order_perm. apply filter_length_le.
Qed.

Lemma visit_decreases (visited : gset Z) (c : Z) :
  c ∈ _vertices g → c ∉ visited →
  (size (_vertices g ∖ ({[c]} ∪ visited)) < size (_vertices g ∖ visited))%nat.
Proof.
  intros Hc Hv. apply subset_size. split.
  - intros x. rewrite !elem_of_difference, elem_of_union. tauto.
  - intros H. specialize (H c).
    rewrite !elem_of_difference, elem_of_union, elem_of_singleton in H. tauto.
Qed.

(** The loop never exhausts [dijkstra_fuel]. *)
Lemma dijkstra_loop_fuel (fuel : nat) (visited : gset Z)
    (d : gmap Z pyval) (q : list Z) :
  (∀ x, x ∈ q → x ∈ _vertices g) →
  (rounds_left g visited q < fuel)%nat →
  dijkstra_loop set_order fuel g visited d q ≠ Raise OutOfFuel.
Proof.
  revert visited d q. induction fuel as [|fuel IH]; intros visited d q Hq Hm; [lia|].
  destruct q as [|c q]; simpl; [done|].
  assert (Hc : c ∈ _vertices g) by (apply Hq; left).
  assert (Hq' : ∀ x, x ∈ q → x ∈ _vertices g) by (intros x Hx; apply Hq; by right).
  unfold rounds_left in Hm. simpl in Hm.
  destruct (bool_decide (c ∈ visited)) eqn:Hv.
  - apply IH; [done|]. unfold rounds_left. lia.
  - apply bool_decide_eq_false in Hv.
    intros H. apply bind_Raise_inv in H as [H|([d' q'] & Hf & H)].
    + by apply foldM_relax_fuel in H.
    + simpl in H. revert H.
      apply foldM_relax_queue in Hf as (pushed & -> & Hin & Hlen).
      apply IH.
      * intros x Hx. apply elem_of_app in Hx as [Hx|Hx]; [by apply Hq'|].
        eapply neighbors_vertices. by apply Hin.
      * pose proof (neighbors_length c) as Hn.
        pose proof (visit_decreases visited c Hc Hv) as Hd.
        unfold rounds_left. rewrite length_app. nia.
Qed.

(** [dijkstra] never returns the marker of exhausted fuel, whatever the
    weights are. *)
Lemma dijkstra_fuel_enough (v : Z) :
  dijkstra set_order g v ≠ Raise OutOfFuel.
Proof.
  unfold dijkstra. destruct (negb _) eqn:Hv; [done|].
  apply negb_false_iff, bool_decide_eq_true in Hv.
  unfold sorted_vertices in Hv. rewrite merge_sort_Permutation in Hv.
  apply elem_of_elements in Hv.
  apply dijkstra_loop_fuel.
  - intros x Hx. apply list_elem_of_singleton in Hx as ->. done.
  - unfold rounds_left, dijkstra_fuel. simpl.
    rewrite difference_empty_L. nia.
Qed.

End Dijkstra.

(** The call of [dijkstra] ends, with a dictionary or an exception, for
    every graph, every source and every order of iteration: the bound on the
    rounds of its loop is never exhausted. *)
Lemma dijkstra_terminates (set_order : list Z → list Z) (g : Graph) (v : Z) :
  (∀ l, set_order l ≡ₚ l) →
  ∃ r, dijkstra set_order g v = r ∧ r ≠ Raise OutOfFuel.
Proof.
  intros Hperm. eexists. split; [done|]. by apply dijkstra_fuel_enough.
Qed.

Lemma dijkstra_terminates_witness :
  ∃ r, dijkstra id fifo_graph 1 = r ∧ r ≠ Raise OutOfFuel.
Proof.
  apply dijkstra_terminates. intros l. reflexivity.
Defined.

(** *** Non-negative weights *)

Lemma ext_nonneg_inf : ext_nonneg (VEnum _inf).
Proof. by left. Qed.

Lemma ext_nonneg_int (n : Z) : 0 ≤ n → ext_nonneg (VInt n).
Proof. right. eauto. Qed.

Lemma py_add_ext_nonneg (a b : pyval) :
  ext_nonneg a → ext_nonneg b → ∃ c, py_add a b = Ok c ∧ ext_nonneg c.
Proof.
  intros [->|(n & -> & Hn)] [->|(m & -> & Hm)]; simpl; eexists; (split; [done|]).
  - apply ext_nonneg_inf.
  - apply ext_nonneg_inf.
  - apply ext_nonneg_inf.
  - apply ext_nonneg_int. lia.
Qed.

(** [a > b] holds for no [a] that is the number 0, and only for a number
    [b]. *)
Lemma py_gt_ext_nonneg (a b : pyval) :
  ext_nonneg a → ext_nonneg b →
  ∃ r, py_gt a b = Ok r ∧ (r = true → a ≠ VInt 0 ∧ ∃ m, b = VInt m ∧ 0 ≤ m).
Proof.
  intros [->|(n & -> & Hn)] [->|(m & -> & Hm)]; simpl; eexists; (split; [done|]).
  - done.
  - intros _. split; [done|eauto].
  - done.
  - intros Hgt. apply Z.gtb_lt in Hgt. split; [|eauto].
    intros [= ->]. lia.
Qed.

Lemma _edge_weight_ext_nonneg (g : Graph) (a b : Z) :
  nonneg_weights g → ∃ w, _edge_weight g a b = Ok w ∧ ext_nonneg w.
Proof.
  intros Hg. destruct (_get_edge g a b) as [e|] eqn:He.
  - exists (_weight e). split; [by apply _edge_weight_stored|].
    rewrite _get_edge_find in He. apply find_elem in He as [He _].
    destruct (Hg e He) as (w & -> & Hw). by apply ext_nonneg_int.
  - exists (VEnum _inf). split; [|apply ext_nonneg_inf].
    rewrite _get_edge_find in He. apply _are_neighbors_find in He.
    unfold _edge_weight. by rewrite He.
Qed.

Lemma dict_get_inv (V : gset Z) (src : Z) (d : gmap Z pyval) (x : Z) :
  dist_inv V src d → x ∈ V →
  ∃ y, d !! x = Some y ∧ dict_get d x = Ok y ∧ ext_nonneg y.
Proof.
  intros (Hkeys & Hvals & _) Hx. destruct (Hkeys x Hx) as [y Hy].
  exists y. unfold dict_get. rewrite Hy. eauto.
Qed.

Section DijkstraNonneg.

Variable set_order : list Z → list Z.
Hypothesis set_order_perm : ∀ l, set_order l ≡ₚ l.

Variable g : Graph.
Hypothesis g_nonneg : nonneg_weights g.

Variable src : Z.

Lemma relax_inv (c x : Z) (d : gmap Z pyval) (q : list Z) :
  dist_inv (_vertices g) src d → c ∈ _vertices g → x ∈ _vertices g →
  ∃ d' q', relax g c (d, q) x = Ok (d', q') ∧ dist_inv (_vertices g) src d'.
Proof.
  intros Hd Hc Hx. unfold relax.
  destruct (dict_get_inv _ _ _ c Hd Hc) as (dc & _ & -> & Hdc). simpl.
  destruct (_edge_weight_ext_nonneg g c x g_nonneg) as (w & -> & Hw). simpl.
  destruct (py_add_ext_nonneg dc w Hdc Hw) as (t & -> & Ht). simpl.
  destruct (dict_get_inv _ _ _ x Hd Hx) as (dn & Hdn & -> & Hdnn). simpl.
  destruct (py_gt_ext_nonneg dn t Hdnn Ht) as (r & -> & Hr). simpl.
  destruct r; [|eauto].
  destruct (Hr eq_refl) as (Hdn0 & m & -> & Hm).
  do 2 eexists. split; [done|].
  destruct Hd as (Hkeys & Hvals & Hsrc).
  assert (Hne : x ≠ src) by (intros ->; congruence).
  split; [|split].
  - intros y Hy. apply lookup_insert_is_Some'. right. by apply Hkeys.
  - intros y z Hz. apply lookup_insert_Some in Hz as [[_ <-]|[_ Hz]].
    + by apply ext_nonneg_int.
    + by eapply Hvals.
  - by rewrite lookup_insert_ne.
Qed.

Lemma foldM_relax_inv (c : Z) (ns : list Z) (d : gmap Z pyval) (q : list Z) :
  dist_inv (_vertices g) src d → c ∈ _vertices g →
  (∀ x, x ∈ ns → x ∈ _vertices g) →
  ∃ d' q', foldM (relax g c) ns (d, q) = Ok (d', q')
           ∧ dist_inv (_vertices g) src d'.
Proof.
  revert d q. induction ns as [|x ns IH]; intros d q Hd Hc Hns; [simpl; eauto|].
  rewrite foldM_cons.
  destruct (relax_inv c x d q Hd Hc) as (d1 & q1 & -> & Hd1); [apply Hns; left|].
  simpl. apply IH; [done|done|].
  intros y Hy. apply Hns. by right.
Qed.

(** Whatever the bound, the loop either exhausts it or returns a dictionary
    in which the source is at distance 0. *)
Lemma dijkstra_loop_inv (fuel : nat) (visited : gset Z)
    (d : gmap Z pyval) (q : list Z) :
  dist_inv (_vertices g) src d →
  (∀ x, x ∈ q → x ∈ _vertices g) →
  dijkstra_loop set_order fuel g visited d q = Raise OutOfFuel
  ∨ ∃ d', dijkstra_loop set_order fuel g visited d q = Ok d'
          ∧ dist_inv (_vertices g) src d'.
Proof.
  revert visited d q. induction fuel as [|fuel IH]; intros visited d q Hd Hq.
  - destruct q; simpl; eauto.
  - destruct q as [|c q]; simpl; [eauto|].
    assert (Hc : c ∈ _vertices g) by (apply Hq; left).
    assert (Hq' : ∀ x, x ∈ q → x ∈ _vertices g) by (intros x Hx; apply Hq; by right).
    destruct (bool_decide (c ∈ visited)); [by apply IH|].
    destruct (foldM_relax_inv c (neighbors set_order g c) d q Hd Hc)
      as (d' & q' & Hf & Hd'); [apply neighbors_vertices, set_order_perm|].
    rewrite Hf. simpl. apply IH; [done|].
    apply foldM_relax_queue in Hf as (pushed & -> & Hin & _).
    intros x Hx. apply elem_of_app in Hx as [Hx|Hx]; [by apply Hq'|].
    eapply neighbors_vertices; [apply set_order_perm|]. by apply Hin.
Qed.

End DijkstraNonneg.

Lemma lookup_constant_dict (c : pyval) (l : list Z) (x : Z) :
  (list_to_map ((λ v, (v, c)) <$> l) : gmap Z pyval) !! x
  = if bool_decide (x ∈ l) then Some c else None.
Proof.
  induction l as [|y l IH]; csimpl; [done|].
  destruct (decide (y = x)) as [->|Hne].
  - rewrite lookup_insert_eq. rewrite bool_decide_eq_true_2; [done|left].
  - rewrite lookup_insert_ne by done. rewrite IH.
    destruct (decide (x ∈ l)) as [Hx|Hx].
    + rewrite !bool_decide_eq_true_2; [done|by right|done].
    + rewrite !bool_decide_eq_false_2; [done| |done].
      intros Hx'. apply elem_of_cons in Hx' as [->|Hx']; done.
Qed.

(** For a vertex of the graph, [dijkstra] is its loop started on the source. *)
Lemma dijkstra_vertex (set_order : list Z → list Z) (g : Graph) (v : Z) :
  v ∈ _vertices g →
  dijkstra set_order g v
  = dijkstra_loop set_order (dijkstra_fuel g) g ∅
      (<[v:=VInt 0]> (list_to_map ((λ x, (x, VEnum _inf)) <$> sorted_vertices g)))
      [v].
Proof.
  intros Hv. unfold dijkstra. rewrite bool_decide_eq_true_2; [done|].
  unfold sorted_vertices. by rewrite merge_sort_Permutation, elem_of_elements.
Qed.

Lemma dist_inv_initial (g : Graph) (v : Z) :
  dist_inv (_vertices g) v
    (<[v:=VInt 0]> (list_to_map ((λ x, (x, VEnum _inf)) <$> sorted_vertices g))).
Proof.
  split; [|split].
  - intros x Hx. apply lookup_insert_is_Some'. right.
    rewrite lookup_constant_dict, bool_decide_eq_true_2; [done|].
    unfold sorted_vertices. by rewrite merge_sort_Permutation, elem_of_elements.
  - intros x y Hy. apply lookup_insert_Some in Hy as [[_ <-]|[_ Hy]].
    + by apply ext_nonneg_int.
    + rewrite lookup_constant_dict in Hy.
      destruct (bool_decide (x ∈ sorted_vertices g)); [|done].
      injection Hy as <-. apply ext_nonneg_inf.
  - apply lookup_insert_eq.
Qed.

(** C9, as amended.  In a graph whose stored weights are non-negative
    numbers, for every order of iteration over the sets of neighbors and
    every vertex [v] of the graph, [dijkstra(v)] returns a dictionary, and
    in it [v] is at distance 0. *)
Theorem dijkstra_source_distance_zero
    (set_order : list Z → list Z) (g : Graph) (v : Z) :
  (∀ l, set_order l ≡ₚ l) →
  nonneg_weights g →
  v ∈ _vertices g →
  ∃ d, dijkstra set_order g v = Ok d ∧ d !! v = Some (VInt 0).
Proof.
  intros Hperm Hg Hv.
  pose proof (dijkstra_fuel_enough set_order Hperm g v) as Hfuel.
  rewrite dijkstra_vertex in Hfuel |- * by done.
  destruct (dijkstra_loop_inv set_order Hperm g Hg v (dijkstra_fuel g) ∅ _ [v]
              (dist_inv_initial g v)) as [Hout|(d & Hd & _ & _ & Hsrc)].
  - intros x Hx. apply list_elem_of_singleton in Hx as ->. done.
  - done.
  - eauto.
Qed.

Lemma dijkstra_source_distance_zero_witness :
  ∃ d, dijkstra id (mkGraph {[1; 2]} [Edge_init 1 2 (VInt 3) VNone] true) 1 = Ok d
       ∧ d !! 1 = Some (VInt 0).
Proof.
  apply dijkstra_source_distance_zero.
  - intros l. reflexivity.
  - intros e He. apply list_elem_of_singleton in He as ->. exists 3. split; [reflexivity|lia].
  - apply (bool_decide_unpack _). reflexivity.
Defined.

(** C9, without the hypothesis on the weights: in the directed graph with
    the vertex 1 and a loop at 1 of weight [-1], [dijkstra(1)] puts 1 at
    distance [-1]. *)
Lemma dijkstra_negative_loop :
  (g ← Graph_init {[1]} [Tuple3 1 1 (VInt (-1))] true;
   d ← dijkstra id g 1;
   dict_get d 1) = Ok (VInt (-1)).
Proof. vm_compute. reflexivity. Qed.

(** ** [Graph.dijkstra] against [Graph.floyd_warshall] *)

(** The loop depends on the order of iteration only through the lists of
    neighbors of the vertices. *)
Lemma dijkstra_loop_order_ext (ord1 ord2 : list Z → list Z) (g : Graph) :
  (∀ l, ord1 l ≡ₚ l) →
  (∀ c, c ∈ _vertices g → neighbors ord1 g c = neighbors ord2 g c) →
  ∀ fuel visited d q,
    (∀ x, x ∈ q → x ∈ _vertices g) →
    dijkstra_loop ord1 fuel g visited d q = dijkstra_loop ord2 fuel g visited d q.
Proof.
  intros Hperm Hext fuel. induction fuel as [|fuel IH]; intros visited d q Hq.
  - by destruct q.
  - destruct q as [|c q]; simpl; [done|].
    assert (Hc : c ∈ _vertices g) by (apply Hq; left).
    assert (Hq' : ∀ x, x ∈ q → x ∈ _vertices g) by (intros x Hx; apply Hq; by right).
    rewrite <- (Hext c Hc).
    destruct (bool_decide (c ∈ visited)); [by apply IH|].
    destruct (foldM (relax g c) (neighbors ord1 g c) (d, q)) as [[d' q']|e] eqn:Hf;
      simpl; [|done].
    apply IH.
    apply foldM_relax_queue in Hf as (pushed & -> & Hin & _).
    intros x Hx. apply elem_of_app in Hx as [Hx|Hx]; [by apply Hq'|].
    eapply neighbors_vertices; [apply Hperm|]. by apply Hin.
Qed.

Lemma dijkstra_order_ext (ord1 ord2 : list Z → list Z) (g : Graph) (v : Z) :
  (∀ l, ord1 l ≡ₚ l) →
  (∀ c, c ∈ _vertices g → neighbors ord1 g c = neighbors ord2 g c) →
  dijkstra ord1 g v = dijkstra ord2 g v.
Proof.
  intros Hperm Hext. destruct (decide (v ∈ _vertices g)) as [Hv|Hv].
  - rewrite !dijkstra_vertex by done.
    apply dijkstra_loop_order_ext; [done|done|].
    intros x Hx. by apply list_elem_of_singleton in Hx as ->.
  - unfold dijkstra. rewrite bool_decide_eq_false_2; [done|].
    unfold sorted_vertices. by rewrite merge_sort_Permutation, elem_of_elements.
Qed.

Lemma fifo_graph_built :
  Graph_init {[1; 2; 3; 4; 5]}
    [ Tuple3 1 2 (VInt 10); Tuple3 1 3 (VInt 1); Tuple3 3 5 (VInt 1);
      Tuple3 5 2 (VInt 1); Tuple3 2 4 (VInt 1) ] true
  = Ok fifo_graph.
Proof. reflexivity. Qed.

Lemma fifo_graph_nonneg : nonneg_weights fifo_graph.
Proof.
  intros e He. apply list_elem_of_In in He. simpl in He.
  destruct He as [<-|[<-|[<-|[<-|[<-|[]]]]]]; simpl; eexists; (split; [done|lia]).
Qed.

(** Every order of iteration agrees on [fifo_graph] with the identity or
    with the reversal: only vertex 1 has two neighbors. *)
Lemma fifo_graph_orders (set_order : list Z → list Z) :
  (∀ l, set_order l ≡ₚ l) →
  (∀ c, c ∈ _vertices fifo_graph →
        neighbors set_order fifo_graph c = neighbors id fifo_graph c)
  ∨ (∀ c, c ∈ _vertices fifo_graph →
          neighbors set_order fifo_graph c = neighbors (@rev Z) fifo_graph c).
Proof.
  intros Hperm.
  assert (H0 : set_order [] = [])
    by (apply Permutation_nil; symmetry; apply Hperm).
  assert (H1 : ∀ x, set_order [x] = [x])
    by (intros x; apply Permutation_length_1_inv; symmetry; apply Hperm).
  assert (Hn : ∀ c, c ∈ _vertices fifo_graph →
               c = 1 ∨ c = 2 ∨ c = 3 ∨ c = 4 ∨ c = 5).
  { intros c. simpl. rewrite !elem_of_union, !elem_of_singleton. tauto. }
  assert (E1 : List.filter (λ v, _are_neighbors fifo_graph 1 v)
                 (elements (_vertices fifo_graph)) = [3; 2]) by reflexivity.
  assert (E2 : List.filter (λ v, _are_neighbors fifo_graph 2 v)
                 (elements (_vertices fifo_graph)) = [4]) by reflexivity.
  assert (E3 : List.filter (λ v, _are_neighbors fifo_graph 3 v)
                 (elements (_vertices fifo_graph)) = [5]) by reflexivity.
  assert (E4 : List.filter (λ v, _are_neighbors fifo_graph 4 v)
                 (elements (_vertices fifo_graph)) = []) by reflexivity.
  assert (E5 : List.filter (λ v, _are_neighbors fifo_graph 5 v)
                 (elements (_vertices fifo_graph)) = [2]) by reflexivity.
  destruct (Permutation_length_2_inv (symmetry (Hperm [3; 2]))) as [H2|H2].
  - left. intros c Hc. unfold neighbors.
    destruct (Hn c Hc) as [->|[->|[->|[->| ->]]]];
      rewrite ?E1, ?E2, ?E3, ?E4, ?E5, ?H0, ?H1, ?H2; reflexivity.
  - right. intros c Hc. unfold neighbors.
    destruct (Hn c Hc) as [->|[->|[->|[->| ->]]]];
      rewrite ?E1, ?E2, ?E3, ?E4, ?E5, ?H0, ?H1, ?H2; reflexivity.
Qed.

(** C1.  On [fifo_graph], whose weights are non-negative numbers and whose
    sorted vertices are 1, ..., 5, [dijkstra(1)] puts vertex 4 at distance
    11 for every order of iteration over the sets of neighbors, while the
    entry of [floyd_warshall()] in the row of vertex 1 and the column of
    vertex 4 is 4, the length of the path 1, 3, 5, 2, 4. *)
Theorem dijkstra_fifo_disagrees_with_floyd_warshall
    (set_order : list Z → list Z) :
  (∀ l, set_order l ≡ₚ l) →
  nonneg_weights fifo_graph
  ∧ sorted_vertices fifo_graph = [1; 2; 3; 4; 5]
  ∧ (∃ d, dijkstra set_order fifo_graph 1 = Ok d ∧ d !! 4 = Some (VInt 11))
  ∧ (∃ D, floyd_warshall fifo_graph = Ok D ∧ getitem2 D 0 3 = Ok (VInt 4)).
Proof.
  intros Hperm. split; [apply fifo_graph_nonneg|]. split; [reflexivity|]. split.
  - destruct (fifo_graph_orders set_order Hperm) as [Hext|Hext];
      rewrite (dijkstra_order_ext _ _ _ 1 Hperm Hext);
      eexists; (split; [vm_compute; reflexivity|reflexivity]).
  - eexists. split; [vm_compute; reflexivity|reflexivity].
Qed.

Lemma dijkstra_fifo_disagrees_with_floyd_warshall_witness :
  (∃ d, dijkstra id fifo_graph 1 = Ok d ∧ d !! 4 = Some (VInt 11))
  ∧ (∃ D, floyd_warshall fifo_graph = Ok D ∧ getitem2 D 0 3 = Ok (VInt 4)).
Proof.
  destruct (dijkstra_fifo_disagrees_with_floyd_warshall id) as (_ & _ & Hd & HD).
  - intros l. reflexivity.
  - split; [exact Hd|exact HD].
Defined.

(** * Properties of the rest of the code *)

(** ** The order and the sum of the extended reals *)

Lemma ext_ltb_irrefl (a : pyval) : ext_ltb a a = false.
Proof. destruct a as [n|[]| |]; simpl; [apply Z.ltb_irrefl|done..]. Qed.

Lemma ext_ltb_trans (a b c : pyval) :
  ext_ltb a b = true → ext_ltb b c = true → ext_ltb a c = true.
Proof.
  destruct a as [x|[]| |], b as [y|[]| |], c as [z|[]| |]; simpl; try done.
  rewrite !Z.ltb_lt. lia.
Qed.

Lemma ext_ltb_total (a b : pyval) :
  ext_real a → ext_real b → a = b ∨ ext_ltb a b = true ∨ ext_ltb b a = true.
Proof.
  destruct a as [x|[]| |], b as [y|[]| |]; simpl; try done; auto.
  intros _ _. rewrite !Z.ltb_lt.
  destruct (Z.lt_trichotomy x y) as [H|[->|H]]; auto.
Qed.

(** The comparisons of the enum and of the numbers decide one strict total
    order on the extended reals, with [-∞] below every number and every
    number below [∞]; [a > b] is [b < a], and no comparison raises. *)
Theorem py_lt_total_order (a b c : pyval) :
  ext_real a → ext_real b → ext_real c →
  py_lt a b = Ok (ext_ltb a b)
  ∧ py_gt a b = Ok (ext_ltb b a)
  ∧ ext_ltb a a = false
  ∧ (ext_ltb a b = true → ext_ltb b c = true → ext_ltb a c = true)
  ∧ (a = b ∨ ext_ltb a b = true ∨ ext_ltb b a = true)
  ∧ (∀ n, ext_ltb (VEnum _neg_inf) (VInt n) = true
          ∧ ext_ltb (VInt n) (VEnum _inf) = true).
Proof.
  intros Ha Hb Hc. split; [|split; [|split; [|split; [|split]]]].
  - destruct a as [x|[]| |], b as [y|[]| |]; done.
  - destruct a as [x|[]| |], b as [y|[]| |]; try done.
    simpl. by rewrite Z.gtb_ltb.
  - apply ext_ltb_irrefl.
  - apply ext_ltb_trans.
  - by apply ext_ltb_total.
  - done.
Qed.

Lemma py_lt_total_order_witness :
  py_lt (VInt 3) (VEnum _inf) = Ok true
  ∧ py_gt (VInt 3) (VEnum _neg_inf) = Ok true.
Proof.
  destruct (py_lt_total_order (VInt 3) (VEnum _inf) (VEnum _inf) I I I) as (H1 & _).
  destruct (py_lt_total_order (VInt 3) (VEnum _neg_inf) (VEnum _inf) I I I)
    as (_ & H2 & _).
  split; [exact H1|exact H2].
Defined.

(** Addition of extended reals is commutative, as the docstring of
    [__radd__] says, and raises nothing; its value is an extended real
    except for two opposite infinities, where it is [None]. *)
Theorem py_add_commutative (a b : pyval) :
  ext_real a → ext_real b →
  py_add a b = py_add b a
  ∧ ∃ c, py_add a b = Ok c
         ∧ (ext_real c ∨ (c = VNone ∧ ∃ x y, a = VEnum x ∧ b = VEnum y ∧ x ≠ y)).
Proof.
  destruct a as [x|[]| |], b as [y|[]| |]; simpl; try done; intros _ _.
  - split; [by rewrite Z.add_comm|]. eexists. split; [done|by left].
  - split; [done|]. eexists. split; [done|by left].
  - split; [done|]. eexists. split; [done|by left].
  - split; [done|]. eexists. split; [done|by left].
  - split; [done|]. eexists. split; [done|by left].
  - split; [done|]. eexists. split; [done|]. right. split; [done|]. by eexists _, _.
  - split; [done|]. eexists. split; [done|by left].
  - split; [done|]. eexists. split; [done|]. right. split; [done|]. by eexists _, _.
  - split; [done|]. eexists. split; [done|by left].
Qed.

Lemma py_add_commutative_witness :
  py_add (VInt 2) (VEnum _inf) = py_add (VEnum _inf) (VInt 2).
Proof. exact (proj1 (py_add_commutative (VInt 2) (VEnum _inf) I I)). Defined.

(** ** The constructor of [Graph] *)

Lemma populate_edge_valid (vertices : gset Z) (directed : bool)
    (s : list Edge) (edge : edge_desc) :
  desc_valid vertices edge →
  populate_edge vertices directed s edge
  = Ok (add_pair directed s (desc_edge edge) (desc_mirror edge)).
Proof.
  intros [H0 H1]. unfold populate_edge.
  rewrite (bool_decide_eq_true_2 _ H0), (bool_decide_eq_true_2 _ H1). simpl.
  by destruct edge.
Qed.

Lemma populate_edge_invalid (vertices : gset Z) (directed : bool)
    (s : list Edge) (edge : edge_desc) :
  ¬ desc_valid vertices edge →
  populate_edge vertices directed s edge = Raise ValueError.
Proof.
  intros Hn. unfold populate_edge.
  destruct (decide (desc_0 edge ∈ vertices)) as [H0|H0].
  - destruct (decide (desc_1 edge ∈ vertices)) as [H1|H1].
    + destruct Hn. by split.
    + by rewrite (bool_decide_eq_true_2 _ H0), (bool_decide_eq_false_2 _ H1).
  - by rewrite (bool_decide_eq_false_2 _ H0).
Qed.

Lemma desc_valid_dec (vertices : gset Z) (edge : edge_desc) :
  desc_valid vertices edge ∨ ¬ desc_valid vertices edge.
Proof.
  unfold desc_valid.
  destruct (decide (desc_0 edge ∈ vertices)), (decide (desc_1 edge ∈ vertices)); tauto.
Qed.

Lemma Forall_desc_valid_dec (vertices : gset Z) (edges : list edge_desc) :
  Forall (desc_valid vertices) edges ∨ ¬ Forall (desc_valid vertices) edges.
Proof.
  induction edges as [|edge edges [IH|IH]].
  - left. constructor.
  - destruct (desc_valid_dec vertices edge) as [Hv|Hv].
    + left. by constructor.
    + right. intros H. apply Forall_cons in H as [H _]. done.
  - right. intros H. apply Forall_cons in H as [_ H]. done.
Qed.

(** The set of edges after the loop of [_populate_edges]: the described
    edges and mirrors, inserted one after the other. *)
Lemma foldM_populate_valid (vertices : gset Z) (directed : bool)
    (edges : list edge_desc) (s : list Edge) :
  Forall (desc_valid vertices) edges →
  foldM (populate_edge vertices directed) edges s
  = Ok (foldl set_add s (described directed edges)).
Proof.
  intros Hv. revert s. induction Hv as [|edge edges Hedge _ IH]; intros s; [done|].
  rewrite foldM_cons, populate_edge_valid, bind_Ok, IH by done.
  f_equal. unfold described, add_pair. simpl.
  destruct directed; simpl; by rewrite ?foldl_app.
Qed.

Lemma foldM_populate_invalid (vertices : gset Z) (directed : bool)
    (edges : list edge_desc) (s : list Edge) :
  ¬ Forall (desc_valid vertices) edges →
  foldM (populate_edge vertices directed) edges s = Raise ValueError.
Proof.
  revert s. induction edges as [|edge edges IH]; intros s Hn.
  - destruct Hn. constructor.
  - rewrite foldM_cons. destruct (desc_valid_dec vertices edge) as [Hv|Hv].
    + rewrite populate_edge_valid, bind_Ok by done. apply IH.
      intros Hall. apply Hn. by constructor.
    + by rewrite populate_edge_invalid.
Qed.

Lemma elem_of_foldl_set_add (es s : list Edge) (e : Edge) :
  e ∈ foldl set_add s es → e ∈ s ∨ e ∈ es.
Proof.
  revert s. induction es as [|x es IH]; intros s; simpl; [auto|].
  intros H. apply IH in H as [H|H]; [|right; by right].
  unfold set_add in H. destruct (set_contains s x); [by left|].
  apply elem_of_app in H as [H|H]; [by left|].
  apply list_elem_of_singleton in H as ->. right. left.
Qed.

Lemma elem_of_described (directed : bool) (edges : list edge_desc) (e : Edge) :
  e ∈ described directed edges →
  ∃ edge, edge ∈ edges
          ∧ ((_u e = desc_0 edge ∧ _v e = desc_1 edge)
             ∨ (_u e = desc_1 edge ∧ _v e = desc_0 edge)).
Proof.
  unfold described. rewrite list_elem_of_In, in_flat_map.
  intros (edge & Hedge & He). exists edge. rewrite list_elem_of_In. split; [done|].
  destruct He as [<-|He]; [left; by destruct edge|].
  destruct directed; [done|]. destruct He as [<-|[]]. right. by destruct edge.
Qed.

Lemma Graph_init_valid (vertices : gset Z) (edges : list edge_desc)
    (directed : bool) :
  Forall (desc_valid vertices) edges →
  Graph_init vertices edges directed
  = Ok (mkGraph vertices (inserted (described directed edges)) directed).
Proof.
  intros Hv. unfold Graph_init, _populate_edges.
  by rewrite foldM_populate_valid by done.
Qed.

Lemma Graph_init_invalid (vertices : gset Z) (edges : list edge_desc)
    (directed : bool) :
  ¬ Forall (desc_valid vertices) edges →
  Graph_init vertices edges directed = Raise ValueError.
Proof.
  intros Hn. unfold Graph_init, _populate_edges.
  by rewrite foldM_populate_invalid.
Qed.

(** The constructor raises [ValueError] exactly when a description has an
    endpoint outside the vertices; otherwise it returns a graph with the
    given vertices and flag, whose edges are the described ones (and their
    mirrors in an undirected graph) inserted in order, and every stored edge
    has its endpoints among the vertices. *)
Theorem Graph_init_validates (vertices : gset Z) (edges : list edge_desc)
    (directed : bool) :
  (Forall (desc_valid vertices) edges →
   Graph_init vertices edges directed
   = Ok (mkGraph vertices (inserted (described directed edges)) directed)
   ∧ endpoints_in (mkGraph vertices (inserted (described directed edges)) directed))
  ∧ (¬ Forall (desc_valid vertices) edges →
     Graph_init vertices edges directed = Raise ValueError).
Proof.
  split.
  - intros Hv. unfold Graph_init, _populate_edges.
    rewrite foldM_populate_valid by done. split; [done|].
    intros e He. simpl in *. unfold inserted in He.
    apply elem_of_foldl_set_add in He as [He|He]; [by apply elem_of_nil in He|].
    apply elem_of_described in He as (edge & Hedge & He).
    rewrite Forall_forall in Hv. destruct (Hv edge Hedge) as [H0 H1].
    destruct He as [[-> ->]|[-> ->]]; done.
  - intros Hn. unfold Graph_init, _populate_edges.
    by rewrite foldM_populate_invalid.
Qed.

(** ** Looking edges up *)

(** [_edge_weight] never raises: it returns the weight of the first stored
    edge with the endpoints asked for, and [∞] when there is none. *)
Lemma _edge_weight_find (g : Graph) (v1 v2 : Z) :
  _edge_weight g v1 v2
  = Ok (match List.find (has_endpoints v1 v2) (_edges g) with
        | Some e => _weight e
        | None => VEnum _inf
        end).
Proof.
  destruct (List.find (has_endpoints v1 v2) (_edges g)) as [e|] eqn:Hf.
  - apply _edge_weight_stored. by rewrite _get_edge_find.
  - apply _are_neighbors_find in Hf. unfold _edge_weight. by rewrite Hf.
Qed.

(** In a graph the constructor returned, [_edge_weight(u, v)] is the weight
    of the first edge from [u] to [v] among the described edges (and their
    mirrors in an undirected graph), in the order of the descriptions, and
    [∞] when none goes from [u] to [v]; [_are_neighbors(u, v)] tells which
    of the two cases holds. *)
Theorem Graph_init_lookup (vertices : gset Z) (edges : list edge_desc)
    (directed : bool) (g : Graph) (u v : Z) :
  Graph_init vertices edges directed = Ok g →
  _edge_weight g u v
  = Ok (match List.find (has_endpoints u v) (described directed edges) with
        | Some e => _weight e
        | None => VEnum _inf
        end)
  ∧ _are_neighbors g u v = existsb (has_endpoints u v) (described directed edges).
Proof.
  intros Hg.
  destruct (Forall_desc_valid_dec vertices edges) as [Hv|Hv].
  - rewrite (Graph_init_valid _ _ _ Hv) in Hg. injection Hg as <-.
    assert (Hf : List.find (has_endpoints u v) (inserted (described directed edges))
                 = List.find (has_endpoints u v) (described directed edges))
      by (unfold inserted; by rewrite find_inserted_from).
    split.
    + by rewrite _edge_weight_find, <- Hf.
    + destruct (existsb _ _) eqn:He.
      * destruct (_are_neighbors _ u v) eqn:Hn; [done|].
        apply _are_neighbors_find in Hn. simpl in Hn. rewrite Hf in Hn.
        apply find_none_existsb in Hn. congruence.
      * apply _are_neighbors_find. simpl. rewrite Hf. by apply find_none_existsb.
  - rewrite (Graph_init_invalid _ _ _ Hv) in Hg. done.
Qed.

Lemma Graph_init_lookup_witness :
  _edge_weight
    (mkGraph {[1; 2]} [Edge_init 1 2 (VInt 5) VNone; Edge_init 2 1 (VInt 5) VNone] false)
    2 1 = Ok (VInt 5).
Proof.
  exact (proj1 (Graph_init_lookup {[1; 2]} [Tuple3 1 2 (VInt 5); Tuple3 2 1 (VInt 7)]
                  false _ 2 1 eq_refl)).
Defined.

(** ** First writer wins *)

Lemma Graph_init_edges (vertices : gset Z) (edges : list edge_desc)
    (directed : bool) (g : Graph) :
  Graph_init vertices edges directed = Ok g →
  g = mkGraph vertices (inserted (described directed edges)) directed.
Proof.
  intros Hg. destruct (Forall_desc_valid_dec vertices edges) as [Hv|Hv].
  - rewrite (Graph_init_valid _ _ _ Hv) in Hg. by injection Hg as <-.
  - by rewrite (Graph_init_invalid _ _ _ Hv) in Hg.
Qed.

Lemma new_edge_Ok (g : Graph) (u v : Z) (label weight : pyval) (g' : Graph) :
  new_edge g u v label weight = Ok g' →
  g' = mkGraph (_vertices g)
         (add_pair (_directed g) (_edges g)
            (Edge_init u v label weight) (Edge_init v u label weight))
         (_directed g).
Proof.
  unfold new_edge. destruct (_ && _); [done|]. intros [= <-].
  unfold add_pair. by destruct (_directed g).
Qed.

Lemma set_add_stored (s : list Edge) (e : Edge) :
  List.find (has_endpoints (_u e) (_v e)) s ≠ None → set_add s e = s.
Proof.
  intros Hf. unfold set_add. destruct (set_contains s e) eqn:Hc; [done|].
  by apply set_contains_find in Hc.
Qed.

Lemma add_pair_stored (directed : bool) (s : list Edge) (e e' : Edge) :
  List.find (has_endpoints (_u e) (_v e)) s ≠ None →
  (directed = false → List.find (has_endpoints (_u e') (_v e')) s ≠ None) →
  add_pair directed s e e' = s.
Proof.
  intros He He'. unfold add_pair. rewrite (set_add_stored s e He).
  destruct directed; simpl; [done|]. by apply set_add_stored, He'.
Qed.

(** C6, as amended.  The constructor starts from the empty set, and the
    edge it stores for an ordered pair is the first edge inserted for that
    pair, with its weight and label; at most one edge is stored for a pair,
    and exactly one when some edge was inserted for it.  In particular, of
    two descriptions with the same endpoints the first is the one stored.
    Two calls of [new_edge] with the same endpoints on a graph: the second
    call leaves the graph as the first call made it; exactly one edge is
    stored for the pair; it is the edge the graph stored for the pair
    before the two calls when there was one, and otherwise the edge of the
    first call. *)
Theorem first_writer_wins :
  (∀ (vertices : gset Z) (edges : list edge_desc) (directed : bool)
     (g : Graph) (u v : Z),
     Graph_init vertices edges directed = Ok g →
     (pair_count (_edges g) u v ≤ 1)%nat
     ∧ _get_edge g u v = List.find (has_endpoints u v) (described directed edges)
     ∧ (List.find (has_endpoints u v) (described directed edges) ≠ None →
        pair_count (_edges g) u v = 1%nat))
  ∧ (∀ (vertices : gset Z) (directed : bool) (u v : Z) (w1 l1 w2 l2 : pyval)
       (g : Graph),
       Graph_init vertices [Tuple4 u v w1 l1; Tuple4 u v w2 l2] directed = Ok g →
       pair_count (_edges g) u v = 1%nat
       ∧ _get_edge g u v = Some (Edge_init u v w1 l1))
  ∧ (∀ (g : Graph) (u v : Z) (l1 w1 l2 w2 : pyval) (g1 g2 : Graph),
       unique_pairs (_edges g) →
       new_edge g u v l1 w1 = Ok g1 →
       new_edge g1 u v l2 w2 = Ok g2 →
       g2 = g1
       ∧ pair_count (_edges g2) u v = 1%nat
       ∧ _get_edge g2 u v
         = Some (match _get_edge g u v with
                 | Some stored => stored
                 | None => Edge_init u v l1 w1
                 end)).
Proof.
  assert (Hinit : ∀ vertices edges directed g u v,
            Graph_init vertices edges directed = Ok g →
            (pair_count (_edges g) u v ≤ 1)%nat
            ∧ _get_edge g u v = List.find (has_endpoints u v) (described directed edges)
            ∧ (List.find (has_endpoints u v) (described directed edges) ≠ None →
               pair_count (_edges g) u v = 1%nat)).
  { intros vertices edges directed g u v Hg.
    apply Graph_init_edges in Hg as ->. simpl.
    assert (Hu : unique_pairs (inserted (described directed edges)))
      by apply unique_pairs_inserted_from, unique_pairs_nil.
    assert (Hf : List.find (has_endpoints u v) (inserted (described directed edges))
                 = List.find (has_endpoints u v) (described directed edges))
      by (unfold inserted; by rewrite find_inserted_from).
    split; [apply Hu|]. split; [by rewrite _get_edge_find|].
    intros Hsome.
    destruct (List.find (has_endpoints u v) (described directed edges)) as [e|] eqn:He;
      [|done].
    by apply (pair_count_one _ u v e). }
  split; [exact Hinit|]. split.
  - intros vertices directed u v w1 l1 w2 l2 g Hg.
    destruct (Hinit _ _ _ _ u v Hg) as (_ & Hget & Hone).
    assert (Hf : List.find (has_endpoints u v)
                   (described directed [Tuple4 u v w1 l1; Tuple4 u v w2 l2])
                 = Some (Edge_init u v w1 l1)).
    { unfold described. simpl. unfold has_endpoints. simpl. by rewrite !Z.eqb_refl. }
    rewrite Hf in Hget, Hone. split; [by apply Hone|done].
  - intros g u v l1 w1 l2 w2 g1 g2 Hu H1 H2.
    apply new_edge_Ok in H1 as ->. apply new_edge_Ok in H2 as ->. simpl.
    set (e1 := Edge_init u v l1 w1). set (e1' := Edge_init v u l1 w1).
    set (s1 := add_pair (_directed g) (_edges g) e1 e1').
    assert (He1 : has_endpoints u v e1 = true) by by apply has_endpoints_eq.
    assert (He1' : has_endpoints v u e1' = true) by by apply has_endpoints_eq.
    assert (Hf : List.find (has_endpoints u v) s1
                 = Some (match List.find (has_endpoints u v) (_edges g) with
                         | Some stored => stored
                         | None => e1
                         end)).
    { unfold s1. rewrite find_add_pair, He1.
      by destruct (List.find (has_endpoints u v) (_edges g)). }
    assert (Hs : add_pair (_directed g) s1 (Edge_init u v l2 w2) (Edge_init v u l2 w2)
                 = s1).
    { apply add_pair_stored; simpl.
      - by rewrite Hf.
      - intros Hd. unfold s1. rewrite find_add_pair, Hd, He1'. simpl.
        destruct (List.find (has_endpoints v u) (_edges g)); [done|].
        by destruct (has_endpoints v u e1). }
    rewrite Hs. split; [done|]. split.
    + eapply pair_count_one; [|exact Hf].
      unfold s1. by apply unique_pairs_add_pair.
    + rewrite !_get_edge_find. simpl. exact Hf.
Qed.

Lemma first_writer_wins_witness :
  _get_edge (mkGraph {[1; 2]} [Edge_init 1 2 (VInt 5) VNone] true) 1 2
  = Some (Edge_init 1 2 (VInt 5) VNone)
  ∧ pair_count [Edge_init 1 2 (VInt 5) VNone] 1 2 = 1%nat.
Proof.
  destruct first_writer_wins as (_ & Htwo & Hnew). split.
  - exact (proj2 (Htwo {[1; 2]} true 1 2 (VInt 5) VNone (VInt 7) VNone
                    (mkGraph {[1; 2]} [Edge_init 1 2 (VInt 5) VNone] true) eq_refl)).
  - exact (proj1 (proj2 (Hnew (mkGraph {[1; 2]} [] true) 1 2 (VInt 5) VNone
                          (VInt 7) VNone
                          (mkGraph {[1; 2]} [Edge_init 1 2 (VInt 5) VNone] true)
                          (mkGraph {[1; 2]} [Edge_init 1 2 (VInt 5) VNone] true)
                          unique_pairs_nil eq_refl eq_refl))).
Defined.

(** The first of two insertions is not the edge that is kept when the graph
    stored an edge for the pair before: the graph holds the edge from 1 to
    2 of weight 9, two calls of [new_edge] insert edges from 1 to 2 of
    weights 5 and 7, and the one edge stored for the pair still has
    weight 9. *)
Lemma first_insertion_lost_on_stored_pair :
  ∃ g0 g1 g2,
    Graph_init {[1; 2]} [Tuple3 1 2 (VInt 9)] true = Ok g0
    ∧ new_edge g0 1 2 (VInt 5) VNone = Ok g1
    ∧ new_edge g1 1 2 (VInt 7) VNone = Ok g2
    ∧ pair_count (_edges g2) 1 2 = 1%nat
    ∧ _get_edge g2 1 2 = Some (Edge_init 1 2 (VInt 9) default_label)
    ∧ _edge_weight g2 1 2 = Ok (VInt 9)
    ∧ _edge_weight g2 1 2 ≠ Ok (VInt 5).
Proof. do 3 eexists. repeat split. discriminate. Qed.


(** ** [Graph.neighbors] *)

Lemma _are_neighbors_true (g : Graph) (u v : Z) :
  _are_neighbors g u v = true ↔ ∃ e, e ∈ _edges g ∧ _u e = u ∧ _v e = v.
Proof. unfold _are_neighbors. by rewrite set_contains_true. Qed.

(** Whatever the order of iteration, [neighbors(v)] holds, without
    repetition, exactly the vertices of the graph that are the second
    endpoint of a stored edge whose first endpoint is [v]; an endpoint that
    is no vertex is never a neighbor.  Where every stored edge has its
    mirror stored, being a neighbor is symmetric among the vertices. *)
Theorem neighbors_exact (set_order : list Z → list Z) (g : Graph) (v x : Z) :
  (∀ l, set_order l ≡ₚ l) →
  (x ∈ neighbors set_order g v
   ↔ x ∈ _vertices g ∧ ∃ e, e ∈ _edges g ∧ _u e = v ∧ _v e = x)
  ∧ NoDup (neighbors set_order g v)
  ∧ (mirror_closed (_edges g) → v ∈ _vertices g →
     x ∈ neighbors set_order g v → v ∈ neighbors set_order g x).
Proof.
  intros Hperm.
  assert (Hin : ∀ a b, b ∈ neighbors set_order g a
                ↔ b ∈ _vertices g ∧ ∃ e, e ∈ _edges g ∧ _u e = a ∧ _v e = b).
  { intros a b. unfold neighbors. rewrite Hperm.
    by rewrite list_elem_of_In, filter_In, <- list_elem_of_In, elem_of_elements,
         _are_neighbors_true. }
  split; [apply Hin|]. split.
  - unfold neighbors. rewrite Hperm.
    apply NoDup_ListNoDup, List.NoDup_filter, NoDup_ListNoDup, NoDup_elements.
  - intros Hm Hv Hx. apply Hin in Hx as (_ & e & He & Hu & Hw).
    apply Hin. split; [done|]. exists (mirror e). split; [by apply Hm|]. by split.
Qed.

Lemma neighbors_exact_witness :
  (2 ∈ neighbors id (mkGraph {[1]} [Edge_init 1 2 VNone (VInt 0)] true) 1
   ↔ 2 ∈ ({[1]} : gset Z)
     ∧ ∃ e, e ∈ [Edge_init 1 2 VNone (VInt 0)] ∧ _u e = 1 ∧ _v e = 2).
Proof.
  refine (proj1 (neighbors_exact id
                   (mkGraph {[1]} [Edge_init 1 2 VNone (VInt 0)] true) 1 2 _)).
  intros l. reflexivity.
Defined.

(** ** [Graph.__sub__] with a graph or a vertex *)

Lemma foldl_remove_vertices (same : Edge → Z → Z → bool) (l : list Z) (g : Graph) :
  let r := foldl (λ g vertex,
                    mkGraph (_vertices g ∖ {[vertex]})
                            (set_difference (_edges g)
                               (List.filter (λ e, isIncident (same e) e vertex)
                                            (_edges g)))
                            (_directed g)) g l in
  _vertices r = _vertices g ∖ list_to_set l
  ∧ _directed r = _directed g
  ∧ ∀ e, e ∈ _edges r → e ∈ _edges g.
Proof.
  revert g. induction l as [|x l IH]; intros g; simpl.
  - split; [by rewrite difference_empty_L|done].
  - destruct (IH (mkGraph (_vertices g ∖ {[x]})
                    (set_difference (_edges g)
                       (List.filter (λ e, isIncident (same e) e x) (_edges g)))
                    (_directed g))) as (Hv & Hd & He).
    simpl in *. split; [|split; [done|]].
    + rewrite Hv. apply set_eq. intros y.
      rewrite !elem_of_difference, elem_of_union, elem_of_singleton. tauto.
    + intros e Hin. apply He in Hin. unfold set_difference in Hin.
      apply list_elem_of_In, filter_In in Hin as [Hin _]. by apply list_elem_of_In.
Qed.

(** Where an object is identical only to objects of its own value, an edge
    with no endpoint among the removed vertices stays. *)
Lemma foldl_remove_keeps (same : Edge → Z → Z → bool) (l : list Z) (g : Graph)
    (e : Edge) :
  (∀ e' a x, same e' a x = true → a = x) →
  e ∈ _edges g → _u e ∉ l → _v e ∉ l →
  e ∈ _edges (foldl (λ g vertex,
                       mkGraph (_vertices g ∖ {[vertex]})
                               (set_difference (_edges g)
                                  (List.filter (λ e, isIncident (same e) e vertex)
                                               (_edges g)))
                               (_directed g)) g l).
Proof.
  intros Hsame. revert g. induction l as [|x l IH]; intros g He Hu Hv; [done|].
  simpl. apply IH.
  - simpl. unfold set_difference. apply list_elem_of_In, filter_In.
    split; [by apply list_elem_of_In|].
    apply negb_true_iff. destruct (set_contains _ e) eqn:Hc; [|done].
    apply set_contains_true in Hc as (y & Hy & Hyu & Hyv).
    apply list_elem_of_In, filter_In in Hy as [_ Hy].
    unfold isIncident in Hy. apply orb_true_iff in Hy as [Hy|Hy];
      apply Hsame in Hy.
    + destruct Hu. rewrite <- Hyu, Hy. left.
    + destruct Hv. rewrite <- Hyv, Hy. left.
  - intros H. apply Hu. by right.
  - intros H. apply Hv. by right.
Qed.

(** The difference with a graph raises [ValueError] exactly when a vertex
    of the right operand is no vertex of the left one.  Otherwise the graph
    it returns has the vertices of the left operand that are not vertices
    of the right one, the flag of the left operand, and no edge that the
    left operand did not store; and where an object is identical only to
    objects of its own value, it keeps every edge with no endpoint among
    the vertices of the right operand.  With a vertex as the right operand
    it is the difference with the graph of that single vertex.  All this
    holds whichever objects are identical. *)
Theorem Graph_sub_graph_vertices (same : Edge → Z → Z → bool)
    (g other : Graph) (v : Z) :
  (_vertices other ⊆ _vertices g →
   ∃ r, Graph_sub g (SubGraph other same) = Ok r
        ∧ _vertices r = _vertices g ∖ _vertices other
        ∧ _directed r = _directed g
        ∧ (∀ e, e ∈ _edges r → e ∈ _edges g)
        ∧ ((∀ e a x, same e a x = true → a = x) →
           ∀ e, e ∈ _edges g →
                _u e ∉ _vertices other → _v e ∉ _vertices other →
                e ∈ _edges r))
  ∧ (¬ _vertices other ⊆ _vertices g →
     Graph_sub g (SubGraph other same) = Raise ValueError)
  ∧ Graph_sub g (SubVertex v same)
    = Graph_sub g (SubGraph (mkGraph {[v]} [] false) same)
  ∧ (v ∉ _vertices g → Graph_sub g (SubVertex v same) = Raise ValueError).
Proof.
  split; [|split; [|split]].
  - intros Hsub. simpl. unfold Graph_sub_graph.
    rewrite (bool_decide_eq_true_2 _ Hsub). simpl. eexists. split; [done|].
    destruct (foldl_remove_vertices same (elements (_vertices other)) g)
      as (Hv & Hd & He).
    split; [|split; [done|split; [done|]]].
    + rewrite Hv. by rewrite list_to_set_elements_L.
    + intros Hsame e Hin Hu Hw.
      apply foldl_remove_keeps; [done|done| |]; by rewrite elem_of_elements.
  - intros Hsub. simpl. unfold Graph_sub_graph.
    by rewrite (bool_decide_eq_false_2 _ Hsub).
  - reflexivity.
  - intros Hv. simpl. unfold Graph_sub_graph. simpl.
    rewrite bool_decide_eq_false_2; [done|].
    intros Hsub. apply Hv, Hsub. by apply elem_of_singleton.
Qed.

(** ** The products of [Matrix] *)

Lemma width_rect (h w : nat) (m : list (list Z)) :
  rect h w m → (1 ≤ h)%nat → width (int_matrix m) = Ok w.
Proof.
  intros [Hlen Hrows] Hh. destruct m as [|row m]; [simpl in Hlen; lia|].
  apply Forall_cons in Hrows as [Hrow _].
  unfold width. simpl. by rewrite length_fmap, Hrow.
Qed.

Lemma height_rect (h w : nat) (m : list (list Z)) :
  rect h w m → height (int_matrix m) = h.
Proof. intros [Hlen _]. unfold height, int_matrix. by rewrite length_fmap. Qed.

Lemma rect_row (h w : nat) (m : list (list Z)) (i : nat) (row : list Z) :
  rect h w m → m !! i = Some row → length row = w ∧ (i < h)%nat.
Proof.
  intros [Hlen Hrows] Hi. split.
  - rewrite Forall_forall in Hrows. apply Hrows. by eapply list_elem_of_lookup_2.
  - rewrite <- Hlen. by eapply lookup_lt_Some.
Qed.

Lemma getitem2_int (m : list (list Z)) (i j : nat) (row : list Z) (x : Z) :
  m !! i = Some row → row !! j = Some x →
  getitem2 (int_matrix m) i j = Ok (VInt x).
Proof.
  intros Hi Hj. unfold getitem2.
  rewrite (getitem_Some _ i _ (int_matrix_lookup m i row Hi)), bind_Ok.
  apply getitem_Some. by rewrite list_lookup_fmap, Hj.
Qed.

Lemma mapM_range_rows {A B} (f : nat → result B) (h : A → B) (l : list A) :
  (∀ j x, l !! j = Some x → f j = Ok (h x)) →
  mapM f (range (length l)) = Ok (h <$> l).
Proof.
  intros Hf. unfold range.
  rewrite (mapM_seq_lookup f h l (length l) 0 Hf) by lia.
  by rewrite drop_0, take_ge.
Qed.

Lemma int_matrix_rectangular (h w : nat) (m : list (list Z)) :
  rect h w m → Matrix_init (int_matrix m) = Ok (int_matrix m).
Proof.
  intros [_ Hrows]. apply (Matrix_init_rectangular _ w).
  unfold int_matrix. apply Forall_fmap.
  eapply Forall_impl; [exact Hrows|]. intros row Hrow. simpl. by rewrite length_fmap.
Qed.

(** The product of a matrix of numbers by a number, in either order of the
    operands, is the matrix of the products of its entries. *)
Theorem Matrix_mul_number (h w : nat) (m : list (list Z)) (k : Z) :
  rect h w m →
  Matrix_mul (int_matrix m) (MulNumber k)
  = Ok (int_matrix ((λ row : list Z, (λ x, k * x) <$> row) <$> m))
  ∧ Matrix_rmul (int_matrix m) (MulNumber k)
    = Matrix_mul (int_matrix m) (MulNumber k).
Proof.
  intros Hm. split; [|done]. unfold Matrix_mul.
  rewrite (height_rect h w m Hm). destruct (Hm) as [Hlen Hrows]. rewrite <- Hlen.
  rewrite (mapM_range_rows _ (λ row : list Z, VInt <$> ((λ x, k * x) <$> row)) m).
  - rewrite bind_Ok.
    assert (Heq : (λ row : list Z, VInt <$> ((λ x, k * x) <$> row)) <$> m
                  = int_matrix ((λ row : list Z, (λ x, k * x) <$> row) <$> m)).
    { unfold int_matrix. by rewrite <- list_fmap_compose. }
    rewrite Heq. apply (int_matrix_rectangular h w). split.
    + by rewrite length_fmap.
    + apply Forall_fmap. eapply Forall_impl; [exact Hrows|].
      intros row Hrow. simpl. by rewrite length_fmap.
  - intros i row Hi. destruct (rect_row h w m i row Hm Hi) as [Hw Hih].
    rewrite (width_rect h w m Hm), bind_Ok by lia. rewrite <- Hw.
    rewrite (mapM_range_rows _ (λ x, VInt (k * x)) row).
    + by rewrite <- list_fmap_compose.
    + intros j x Hj. by rewrite (getitem2_int m i j row x Hi Hj), bind_Ok.
Qed.

Lemma Matrix_mul_number_witness :
  Matrix_mul [[VInt 1; VInt 2]; [VInt 3; VInt 4]] (MulNumber 2)
  = Ok [[VInt 2; VInt 4]; [VInt 6; VInt 8]].
Proof.
  refine (proj1 (Matrix_mul_number 2 2 [[1; 2]; [3; 4]] 2 _)).
  split; [reflexivity|]. repeat constructor.
Defined.

Lemma foldM_sum_terms (f : pyval → nat → result pyval) (t : nat → Z)
    (l : list nat) (acc : Z) :
  (∀ k a, k ∈ l → f (VInt a) k = Ok (VInt (a + t k))) →
  foldM f l (VInt acc) = Ok (VInt (foldl (λ acc k, acc + t k) acc l)).
Proof.
  revert acc. induction l as [|k l IH]; intros acc Hf; [done|].
  rewrite foldM_cons, (Hf k acc), bind_Ok by left. simpl. apply IH.
  intros k' a Hk'. apply Hf. by right.
Qed.

Lemma matmul_spec_rect (h w w' : nat) (a b : list (list Z)) :
  rect h w a → rect w w' b → (1 ≤ w)%nat → rect h w' (matmul_spec a b).
Proof.
  intros Ha Hb Hw.
  destruct Ha as [Hla _], Hb as [Hlb Hrb]. unfold matmul_spec. split.
  - by rewrite length_fmap.
  - apply Forall_fmap, Forall_forall. intros row _. simpl.
    rewrite length_fmap. unfold range. rewrite length_seq.
    destruct b as [|rb b]; [simpl in Hlb; lia|].
    apply Forall_cons in Hrb as [Hrb _]. done.
Qed.

Lemma Matrix_mul_int (h w w' : nat) (a b : list (list Z)) :
  rect h w a → rect w w' b → (1 ≤ h)%nat → (1 ≤ w)%nat →
  Matrix_mul (int_matrix a) (MulMatrix (int_matrix b))
  = Ok (int_matrix (matmul_spec a b)).
Proof.
  intros Ha Hb Hh Hw.
  assert (Hrect : rect h w' (matmul_spec a b)) by by apply (matmul_spec_rect h w w').
  unfold Matrix_mul.
  rewrite (width_rect h w a Ha), bind_Ok by done.
  rewrite (height_rect w w' b Hb), Nat.eqb_refl. cbn [negb].
  rewrite (height_rect h w a Ha).
  destruct (Ha) as [Hla Hra]. rewrite <- Hla.
  rewrite (mapM_range_rows _
             (λ row : list Z,
                VInt <$> ((λ j : nat,
                   foldl (λ acc k, acc + nth k row 0 * nth j (nth k b []) 0) 0
                         (range (length b)))
                 <$> range (length (hd [] b)))) a).
  - rewrite bind_Ok.
    assert (Heq : ∀ l : list (list Z),
              (λ row : list Z,
                VInt <$> ((λ j : nat,
                   foldl (λ acc k, acc + nth k row 0 * nth j (nth k b []) 0) 0
                         (range (length b)))
                 <$> range (length (hd [] b)))) <$> l
              = int_matrix ((λ row : list Z,
                   (λ j : nat,
                      foldl (λ acc k, acc + nth k row 0 * nth j (nth k b []) 0) 0
                            (range (length b)))
                   <$> range (length (hd [] b))) <$> l)).
    { intros l. unfold int_matrix. by rewrite <- list_fmap_compose. }
    rewrite Heq. fold (matmul_spec a b).
    by apply (int_matrix_rectangular h w').
  - intros i row Hi. destruct (rect_row h w a i row Ha Hi) as [Hrow Hih].
    rewrite (width_rect w w' b Hb), bind_Ok by done.
    assert (Hw' : length (hd [] b) = w').
    { destruct Hb as [Hlb Hrb]. destruct b as [|rb b]; [simpl in Hlb; lia|].
      apply Forall_cons in Hrb as [Hrb _]. done. }
    rewrite Hw'. rewrite <- list_fmap_compose.
    destruct (Hb) as [Hlb Hrb]. rewrite Hlb.
    apply mapM_Ok. intros j Hj. apply elem_of_seq in Hj.
    rewrite (foldM_sum_terms _ (λ k, nth k row 0 * nth j (nth k b []) 0));
      [done|].
    intros k acc Hk. apply elem_of_seq in Hk.
    destruct (lookup_lt_is_Some_2 row k) as [x Hx]; [lia|].
    destruct (lookup_lt_is_Some_2 b k) as [rb Hrbk]; [lia|].
    destruct (rect_row w w' b k rb Hb Hrbk) as [Hlrb _].
    destruct (lookup_lt_is_Some_2 rb j) as [y Hy]; [lia|].
    rewrite (getitem2_int a i k row x Hi Hx), bind_Ok.
    rewrite (getitem2_int b k j rb y Hrbk Hy), bind_Ok.
    simpl. rewrite (nth_lookup_Some _ _ _ _ Hx), (nth_lookup_Some _ _ _ _ Hrbk).
    by rewrite (nth_lookup_Some _ _ _ _ Hy).
Qed.

(** The product of two matrices raises [ValueError] when the height of the
    right one is not the width of the left one.  For an [h × w] and a
    [w × w'] matrix of numbers, [1 ≤ h] and [1 ≤ w], it is the [h × w']
    matrix whose entry [(i, j)] is the sum over [k] of the products of the
    entries [(i, k)] and [(k, j)]. *)
Theorem Matrix_mul_matrix (h w w' : nat) (a b : list (list Z)) (other : Matrix) :
  rect h w a → rect w w' b → (1 ≤ h)%nat → (1 ≤ w)%nat →
  Matrix_mul (int_matrix a) (MulMatrix (int_matrix b))
  = Ok (int_matrix (matmul_spec a b))
  ∧ rect h w' (matmul_spec a b)
  ∧ (height other ≠ w →
     Matrix_mul (int_matrix a) (MulMatrix other) = Raise ValueError).
Proof.
  intros Ha Hb Hh Hw. split; [|split].
  - by apply (Matrix_mul_int h w w').
  - by apply (matmul_spec_rect h w w').
  - intros Hne. unfold Matrix_mul.
    rewrite (width_rect h w a Ha), bind_Ok by done.
    destruct (height other =? w)%nat eqn:E; [apply Nat.eqb_eq in E; done|done].
Qed.

Lemma Matrix_mul_matrix_witness :
  Matrix_mul [[VInt 1; VInt 2]; [VInt 3; VInt 4]]
             (MulMatrix [[VInt 0; VInt 1]; [VInt 1; VInt 0]])
  = Ok [[VInt 2; VInt 1]; [VInt 4; VInt 3]].
Proof.
  refine (proj1 (Matrix_mul_matrix 2 2 2 [[1; 2]; [3; 4]] [[0; 1]; [1; 0]] [] _ _ _ _)).
  - split; [reflexivity|]. repeat constructor.
  - split; [reflexivity|]. repeat constructor.
  - lia.
  - lia.
Defined.

(** The difference of two matrices returns for no pair of matrices: it is
    the sum with the product by [-1], and that sum raises. *)
Theorem Matrix_sub_raises (self other : Matrix) :
  ∃ e, Matrix_sub self other = Raise e.
Proof.
  unfold Matrix_sub. destruct (Matrix_rmul other (MulNumber (-1))) as [neg|e].
  - rewrite bind_Ok. eexists. apply Matrix_add_raises.
  - by exists e.
Qed.

(** ** [Matrix.__pow__] *)

Lemma bind_ret_r {A} (m : result A) : m ≫= Ok = m.
Proof. by destruct m. Qed.

Lemma bind_assoc {A B C} (m : result A) (f : A → result B) (g : B → result C) :
  (m ≫= f) ≫= g = m ≫= λ a, f a ≫= g.
Proof. by destruct m. Qed.

(** The last round of the loop of [__pow__] is one more product by [self]. *)
Lemma pow_loop_last (rounds : nat) (self r0 : Matrix) :
  pow_loop (S rounds) self r0
  = pow_loop rounds self r0 ≫= λ r, Matrix_mul r (MulMatrix self).
Proof.
  revert r0. induction rounds as [|rounds IH]; intros r0.
  - simpl. by rewrite bind_ret_r.
  - change (pow_loop (S (S rounds)) self r0)
      with (Matrix_mul r0 (MulMatrix self) ≫= λ r, pow_loop (S rounds) self r).
    change (pow_loop (S rounds) self r0)
      with (Matrix_mul r0 (MulMatrix self) ≫= λ r, pow_loop rounds self r).
    rewrite bind_assoc. apply bind_ext. intros r _. apply IH.
Qed.

Lemma identity_rows_rectangular (n : nat) :
  Matrix_init (identity_rows n) = Ok (identity_rows n).
Proof.
  apply (Matrix_init_rectangular _ n). unfold identity_rows.
  apply Forall_fmap, Forall_forall. intros j _. simpl.
  unfold range. by rewrite length_fmap, length_seq.
Qed.

Lemma Matrix_pow_square (self : Matrix) (w : nat) (n : Z) :
  width self = Ok w → height self = w →
  Matrix_pow self (VInt n)
  = if 1 <=? n then pow_loop (Z.to_nat (n - 1)) self self
    else if n =? 0 then Matrix_init (identity_rows w)
    else Raise ValueError.
Proof.
  intros Hw Hh. unfold Matrix_pow. by rewrite Hw, bind_Ok, Hh, Nat.eqb_refl.
Qed.

(** For a matrix with a first row of [w] entries: when it has [w] rows,
    the power 0 is the identity matrix with [w] rows, the power 1 is the
    matrix itself, the power [n + 1] is the power [n] multiplied by the
    matrix, and a negative power raises [ValueError]; when it has another
    number of rows, every power raises [ValueError]; and an exponent that
    is no integer raises [ValueError]. *)
Theorem Matrix_pow_laws (self : Matrix) (w : nat) :
  width self = Ok w →
  (height self = w →
   Matrix_pow self (VInt 0) = Ok (identity_rows w)
   ∧ Matrix_pow self (VInt 1) = Ok self
   ∧ (∀ n, 1 ≤ n →
        Matrix_pow self (VInt (n + 1))
        = Matrix_pow self (VInt n) ≫= λ r, Matrix_mul r (MulMatrix self))
   ∧ (∀ n, n < 0 → Matrix_pow self (VInt n) = Raise ValueError))
  ∧ (height self ≠ w → ∀ x, Matrix_pow self x = Raise ValueError)
  ∧ (∀ x, (∀ n, x ≠ VInt n) → Matrix_pow self x = Raise ValueError).
Proof.
  intros Hw. split; [|split].
  - intros Hh.
    assert (Hpow := λ n, Matrix_pow_square self w n Hw Hh).
    split; [|split; [|split]].
    + rewrite Hpow. simpl. apply identity_rows_rectangular.
    + rewrite Hpow. reflexivity.
    + intros n Hn. rewrite !Hpow.
      destruct (1 <=? n + 1) eqn:E1; [|apply Z.leb_gt in E1; lia].
      destruct (1 <=? n) eqn:E2; [|apply Z.leb_gt in E2; lia].
      replace (Z.to_nat (n + 1 - 1)) with (S (Z.to_nat (n - 1))) by lia.
      apply pow_loop_last.
    + intros n Hn. rewrite Hpow.
      destruct (1 <=? n) eqn:E1; [apply Z.leb_le in E1; lia|].
      destruct (n =? 0) eqn:E2; [apply Z.eqb_eq in E2; lia|done].
  - intros Hh x. unfold Matrix_pow. destruct x; try done.
    rewrite Hw, bind_Ok.
    destruct (height self =? w)%nat eqn:E; [apply Nat.eqb_eq in E; done|done].
  - intros x Hx. unfold Matrix_pow. destruct x; try done. by destruct (Hx n).
Qed.

Lemma Matrix_pow_laws_witness :
  Matrix_pow [[VInt 1; VInt 2]; [VInt 3; VInt 4]] (VInt 0)
  = Ok [[VInt 1; VInt 0]; [VInt 0; VInt 1]]
  ∧ Matrix_pow [[VInt 1; VInt 2]; [VInt 3; VInt 4]] (VInt 1)
    = Ok [[VInt 1; VInt 2]; [VInt 3; VInt 4]].
Proof.
  destruct (Matrix_pow_laws [[VInt 1; VInt 2]; [VInt 3; VInt 4]] 2 eq_refl)
    as [Hsq _].
  destruct (Hsq eq_refl) as (H0 & H1 & _).
  split; [exact H0|exact H1].
Defined.

(** *** The power 0 is neutral for the product *)

Lemma sum_delta (f : nat → Z) (j : nat) (n s : nat) (acc : Z) :
  foldl (λ acc k, acc + f k * (if (j =? k)%nat then 1 else 0)) acc (seq s n)
  = acc + (if bool_decide (s ≤ j < s + n)%nat then f j else 0).
Proof.
  revert s acc. induction n as [|n IH]; intros s acc; simpl.
  - rewrite bool_decide_eq_false_2 by lia. lia.
  - rewrite IH. destruct (j =? s)%nat eqn:E.
    + apply Nat.eqb_eq in E as ->.
      rewrite bool_decide_eq_false_2 by lia.
      rewrite bool_decide_eq_true_2 by lia. lia.
    + apply Nat.eqb_neq in E.
      destruct (decide (S s ≤ j < S s + n)%nat) as [H|H].
      * rewrite !bool_decide_eq_true_2 by lia. lia.
      * rewrite !bool_decide_eq_false_2 by lia. lia.
Qed.

(** Two loop bodies that agree give the same sum. *)
Lemma foldl_ext_Z (f g : Z → nat → Z) (l : list nat) (acc : Z) :
  (∀ a k, f a k = g a k) → foldl f acc l = foldl g acc l.
Proof.
  intros H. revert acc. induction l as [|k l IH]; intros acc; simpl; [done|].
  by rewrite H, IH.
Qed.

Lemma nth_identity_spec (n k j : nat) :
  nth j (nth k (identity_spec n) []) 0
  = if bool_decide (k < n ∧ j < n ∧ j = k)%nat then 1 else 0.
Proof.
  unfold identity_spec, range.
  destruct (decide (k < n)%nat) as [Hk|Hk].
  - erewrite (nth_lookup_Some _ k); last first.
    { rewrite list_lookup_fmap, lookup_seq_lt by done. done. }
    destruct (decide (j < n)%nat) as [Hj|Hj].
    + erewrite (nth_lookup_Some _ j); last first.
      { rewrite list_lookup_fmap, lookup_seq_lt by done. done. }
      simpl. destruct (j =? k)%nat eqn:E.
      * apply Nat.eqb_eq in E. by rewrite bool_decide_eq_true_2.
      * apply Nat.eqb_neq in E. rewrite bool_decide_eq_false_2; [done|lia].
    + rewrite nth_overflow by (rewrite length_fmap, length_seq; lia).
      rewrite bool_decide_eq_false_2; [done|lia].
  - rewrite (nth_overflow (_ <$> _) (n:=k)) by (rewrite length_fmap, length_seq; lia).
    rewrite bool_decide_eq_false_2 by lia. by destruct j.
Qed.

Lemma fmap_nth_range (row : list Z) :
  (λ j, nth j row 0) <$> range (length row) = row.
Proof.
  apply list_eq. intros i. unfold range. rewrite list_lookup_fmap.
  destruct (decide (i < length row)%nat) as [Hi|Hi].
  - rewrite lookup_seq_lt by done. simpl.
    destruct (lookup_lt_is_Some_2 row i Hi) as [x Hx].
    by rewrite Hx, (nth_lookup_Some _ _ _ _ Hx).
  - rewrite lookup_seq_ge by lia. simpl. symmetry. apply lookup_ge_None. lia.
Qed.

Lemma identity_spec_rect (n : nat) : rect n n (identity_spec n).
Proof.
  unfold identity_spec, range. split; [by rewrite length_fmap, length_seq|].
  apply Forall_fmap, Forall_forall. intros j _. simpl.
  by rewrite length_fmap, length_seq.
Qed.

Lemma hd_rect (h w : nat) (m : list (list Z)) :
  rect h w m → (1 ≤ h)%nat → length (hd [] m) = w.
Proof.
  intros [Hlen Hrows] Hh. destruct m as [|r0 m']; [simpl in Hlen; lia|].
  by apply Forall_cons in Hrows as [H0 _].
Qed.

Lemma matmul_spec_identity_r (h n : nat) (m : list (list Z)) :
  rect h n m → (1 ≤ n)%nat → matmul_spec m (identity_spec n) = m.
Proof.
  intros [Hlen Hrows] Hn. unfold matmul_spec.
  rewrite (hd_rect n n _ (identity_spec_rect n) Hn).
  rewrite (proj1 (identity_spec_rect n)).
  rewrite <- (list_fmap_id m) at 2. apply list_fmap_ext. intros i row Hrow.
  assert (Hlr : length row = n).
  { rewrite Forall_forall in Hrows. apply Hrows. by eapply list_elem_of_lookup_2. }
  simpl. transitivity ((λ j, nth j row 0) <$> range n);
    [|rewrite <- Hlr; apply fmap_nth_range].
  apply list_fmap_ext. intros i' j Hj. unfold range in Hj.
  apply lookup_seq in Hj as [-> Hj]. simpl. unfold range.
  rewrite (foldl_ext_Z _ (λ acc k, acc + nth k row 0 * (if (i' =? k)%nat then 1 else 0))).
  - by rewrite sum_delta, bool_decide_eq_true_2 by lia.
  - intros acc k. f_equal. rewrite nth_identity_spec.
    destruct (decide (k < n)%nat) as [Hk|Hk].
    + destruct (i' =? k)%nat eqn:E.
      * apply Nat.eqb_eq in E. by rewrite bool_decide_eq_true_2.
      * apply Nat.eqb_neq in E. rewrite bool_decide_eq_false_2; [done|lia].
    + rewrite (nth_overflow row (n:=k)) by lia. lia.
Qed.

Lemma matmul_spec_identity_l (n : nat) (m : list (list Z)) :
  rect n n m → (1 ≤ n)%nat → matmul_spec (identity_spec n) m = m.
Proof.
  intros Hm Hn. unfold matmul_spec.
  rewrite (hd_rect n n _ Hm Hn). destruct Hm as [Hlen Hrows]. rewrite Hlen.
  apply list_eq. intros i. rewrite list_lookup_fmap.
  unfold identity_spec at 1. unfold range. rewrite list_lookup_fmap.
  destruct (decide (i < n)%nat) as [Hi|Hi].
  - rewrite lookup_seq_lt by done. simpl.
    destruct (lookup_lt_is_Some_2 m i) as [row Hrow]; [lia|]. rewrite Hrow. f_equal.
    assert (Hlr : length row = n).
    { rewrite Forall_forall in Hrows. apply Hrows. by eapply list_elem_of_lookup_2. }
    transitivity ((λ j, nth j row 0) <$> seq 0 n);
      [|rewrite <- Hlr; apply fmap_nth_range].
    apply list_fmap_ext. intros i' j Hj.
    apply lookup_seq in Hj as [-> Hj]. simpl.
    rewrite (foldl_ext_Z _ (λ acc k, acc + nth i' (nth k m []) 0
                                           * (if (i =? k)%nat then 1 else 0))).
    + rewrite (sum_delta (λ k, nth i' (nth k m []) 0)), bool_decide_eq_true_2 by lia.
      by rewrite (nth_lookup_Some _ _ _ _ Hrow).
    + intros acc k. f_equal. rewrite Z.mul_comm. f_equal.
      destruct (decide (k < n)%nat) as [Hk|Hk].
      * erewrite (nth_lookup_Some _ k); last first.
        { rewrite list_lookup_fmap, lookup_seq_lt by done. done. }
        simpl. by rewrite (Nat.eqb_sym k i).
      * rewrite nth_overflow by (rewrite length_fmap, length_seq; lia).
        destruct (i =? k)%nat eqn:E; [apply Nat.eqb_eq in E; lia|by destruct k].
  - rewrite lookup_seq_ge by lia. simpl. symmetry. apply lookup_ge_None. lia.
Qed.

(** The identity matrix of [__pow__] is the one of the specification. *)
Lemma identity_rows_int (n : nat) :
  identity_rows n = int_matrix (identity_spec n).
Proof.
  unfold identity_rows, int_matrix, identity_spec. rewrite <- list_fmap_compose.
  apply list_fmap_ext. intros ? j _. simpl. rewrite <- list_fmap_compose.
  apply list_fmap_ext. intros ? i' _. simpl. by destruct (i' =? j)%nat.
Qed.

(** For a square matrix of numbers with at least one row, the power 0 is
    neutral for the product on both sides. *)
Theorem Matrix_pow_zero_neutral (n : nat) (m : list (list Z)) :
  (1 ≤ n)%nat → square n m →
  ∃ one, Matrix_pow (int_matrix m) (VInt 0) = Ok one
         ∧ Matrix_mul one (MulMatrix (int_matrix m)) = Ok (int_matrix m)
         ∧ Matrix_mul (int_matrix m) (MulMatrix one) = Ok (int_matrix m).
Proof.
  intros Hn Hsq.
  assert (Hm : rect n n m) by exact Hsq.
  exists (identity_rows n). split; [|split].
  - rewrite (Matrix_pow_square _ n 0 (width_rect n n m Hm Hn) (height_rect n n m Hm)).
    simpl. apply identity_rows_rectangular.
  - rewrite identity_rows_int.
    rewrite (Matrix_mul_int n n n (identity_spec n) m (identity_spec_rect n) Hm Hn Hn).
    by rewrite matmul_spec_identity_l.
  - rewrite identity_rows_int.
    rewrite (Matrix_mul_int n n n m (identity_spec n) Hm (identity_spec_rect n) Hn Hn).
    by rewrite (matmul_spec_identity_r n n).
Qed.

Lemma Matrix_pow_zero_neutral_witness :
  ∃ one, Matrix_pow [[VInt 1; VInt 2]; [VInt 3; VInt 4]] (VInt 0) = Ok one
         ∧ Matrix_mul one (MulMatrix [[VInt 1; VInt 2]; [VInt 3; VInt 4]])
           = Ok [[VInt 1; VInt 2]; [VInt 3; VInt 4]]
         ∧ Matrix_mul [[VInt 1; VInt 2]; [VInt 3; VInt 4]] (MulMatrix one)
           = Ok [[VInt 1; VInt 2]; [VInt 3; VInt 4]].
Proof.
  refine (Matrix_pow_zero_neutral 2 [[1; 2]; [3; 4]] _ _).
  - lia.
  - split; [reflexivity|]. repeat constructor.
Defined.

(** ** Walks and the matrix of [floyd_warshall] *)

Lemma walk_app (g : Graph) (u v x : Z) (a b : Z) :
  walk g u v a → walk g v x b → walk g u x (a + b).
Proof.
  intros Huv Hvx. induction Hvx as [v|v y z b c e Hvy IH He Hu Hv Hw].
  - by rewrite Z.add_0_r.
  - rewrite Z.add_assoc. eapply walk_step; eauto.
Qed.

Lemma walk_edge (g : Graph) (u v b : Z) :
  _edge_weight g u v = Ok (VInt b) → walk g u v b.
Proof.
  intros Hw. rewrite _edge_weight_find in Hw.
  destruct (List.find (has_endpoints u v) (_edges g)) as [e|] eqn:Hf.
  - apply find_elem in Hf as [He Hp]. injection Hw as Hw.
    unfold has_endpoints in Hp. apply andb_true_iff in Hp as [Hu Hv].
    apply Z.eqb_eq in Hu, Hv.
    change b with (0 + b). eapply walk_step; eauto. apply walk_nil.
  - done.
Qed.

Lemma py_lt_ext_real (a b : pyval) :
  ext_real a → ext_real b → py_lt a b = Ok (ext_ltb a b).
Proof. destruct a as [x|[]| |], b as [y|[]| |]; done. Qed.

Lemma ext_nonneg_real (x : pyval) : ext_nonneg x → ext_real x.
Proof. by intros [->|(n & -> & _)]. Qed.

Lemma ext_ltb_nonneg_zero (w : pyval) : ext_nonneg w → ext_ltb w (VInt 0) = false.
Proof. intros [->|(n & -> & Hn)]; simpl; [done|]. apply Z.ltb_ge. lia. Qed.

Lemma py_add_ints (a b : pyval) (c : Z) :
  ext_nonneg a → ext_nonneg b → py_add a b = Ok (VInt c) →
  ∃ x y, a = VInt x ∧ b = VInt y ∧ c = x + y.
Proof.
  intros [->|(n & -> & Hn)] [->|(m & -> & Hm)]; simpl; try done.
  intros [= <-]. eauto.
Qed.

(** *** Writing an entry *)

Lemma getitem2_setitem2 (D D' : Matrix) (i j i' j' : nat) (x : pyval) :
  setitem2 D i j x = Ok D' →
  getitem2 D' i' j' = if bool_decide (i' = i ∧ j' = j) then Ok x else getitem2 D i' j'.
Proof.
  unfold setitem2, getitem2, getitem. intros H.
  destruct (D !! i) as [row|] eqn:Hrow; [|done]. simpl in H.
  destruct (bool_decide (j < length row)%nat) eqn:Hj; [|done].
  apply bool_decide_eq_true in Hj. injection H as <-.
  destruct (decide (i' = i)) as [->|Hi].
  - rewrite list_lookup_insert_eq by (by eapply lookup_lt_Some). simpl.
    destruct (decide (j' = j)) as [->|Hj'].
    + rewrite bool_decide_eq_true_2 by done.
      by rewrite list_lookup_insert_eq.
    + rewrite bool_decide_eq_false_2 by (intros [_ ?]; done).
      rewrite list_lookup_insert_ne by done. by rewrite Hrow.
  - rewrite bool_decide_eq_false_2 by (intros [? _]; done).
    by rewrite list_lookup_insert_ne by done.
Qed.

Lemma setitem2_shape (n : nat) (D : Matrix) (i j : nat) (x : pyval) :
  shape n D → (i < n)%nat → (j < n)%nat →
  ∃ D', setitem2 D i j x = Ok D' ∧ shape n D'.
Proof.
  intros [Hlen Hrows] Hi Hj. unfold setitem2, getitem.
  destruct (lookup_lt_is_Some_2 D i) as [row Hrow]; [lia|]. rewrite Hrow. simpl.
  assert (Hlr : length row = n).
  { rewrite Forall_forall in Hrows. apply Hrows. by eapply list_elem_of_lookup_2. }
  rewrite bool_decide_eq_true_2 by lia.
  eexists. split; [done|]. split.
  - by rewrite length_insert.
  - apply Forall_insert; [done|]. by rewrite length_insert.
Qed.

(** Writing [x] at [(i, j)] keeps what holds of the other entries. *)
Lemma setitem2_entries (n : nat) (R R' : nat → nat → pyval → Prop)
    (D : Matrix) (i j : nat) (x : pyval) :
  entries n R D → (i < n)%nat → (j < n)%nat →
  (∀ i' j' y, R i' j' y → ¬ (i' = i ∧ j' = j) → R' i' j' y) →
  R' i j x →
  ∃ D', setitem2 D i j x = Ok D' ∧ entries n R' D'.
Proof.
  intros [Hshape HR] Hi Hj Hkeep Hx.
  destruct (setitem2_shape n D i j x Hshape Hi Hj) as (D' & HD' & Hshape').
  exists D'. split; [done|]. split; [done|].
  intros i' j' Hi' Hj'. rewrite (getitem2_setitem2 D D' i j i' j' x HD').
  destruct (decide (i' = i ∧ j' = j)) as [[-> ->]|Hne].
  - rewrite bool_decide_eq_true_2 by done. eauto.
  - rewrite bool_decide_eq_false_2 by done.
    destruct (HR i' j' Hi' Hj') as (y & Hy & HRy). eauto.
Qed.

Lemma entries_mono (n : nat) (R R' : nat → nat → pyval → Prop) (D : Matrix) :
  entries n R D → (∀ i j y, (i < n)%nat → (j < n)%nat → R i j y → R' i j y) →
  entries n R' D.
Proof.
  intros [Hshape HR] Himp. split; [done|]. intros i j Hi Hj.
  destruct (HR i j Hi Hj) as (y & Hy & HRy). eauto.
Qed.

(** A loop whose body keeps an invariant returns, and the invariant holds
    of its result. *)
Lemma foldM_inv {A S} (P : list A → S → Prop) (f : S → A → result S)
    (l : list A) (s : S) :
  P [] s →
  (∀ done a s, P done s → a ∈ l → ∃ s', f s a = Ok s' ∧ P (done ++ [a]) s') →
  ∃ s', foldM f l s = Ok s' ∧ P l s'.
Proof.
  intros H0 Hstep.
  assert (Hgen : ∀ rest done s, done ++ rest = l → P done s →
                 ∃ s', foldM f rest s = Ok s' ∧ P l s').
  { intros rest. induction rest as [|a rest IH]; intros done s0 Heq Hs.
    - rewrite app_nil_r in Heq. subst. simpl. eauto.
    - destruct (Hstep done a s0 Hs) as (s1 & Hf & Hs1).
      { rewrite <- Heq. rewrite elem_of_app. right. left. }
      rewrite foldM_cons, Hf, bind_Ok.
      apply (IH (done ++ [a])); [|done]. by rewrite <- app_assoc. }
  by apply (Hgen l []).
Qed.

Section FloydWarshall.

Variable g : Graph.
Hypothesis g_nonneg : nonneg_weights g.

Lemma fw_entry_zero (i j : nat) : fw_entry g i j (VInt 0).
Proof.
  split; [apply ext_nonneg_int; lia|]. split; [done|].
  intros vi vj w _ _ Hw.
  destruct (_edge_weight_ext_nonneg g vi vj g_nonneg) as (w' & Hw' & Hnn).
  rewrite Hw in Hw'. injection Hw' as <-. by apply ext_ltb_nonneg_zero.
Qed.

Lemma fw_init_entry_inv (rows : list nat) (i : nat) (cols : list nat)
    (D : Matrix) (j : nat) :
  fw_init_inv g rows i cols D →
  (i < length (sorted_vertices g))%nat → (j < length (sorted_vertices g))%nat →
  j ≠ i →
  ∃ D', fw_init_entry g (sorted_vertices g) i D j = Ok D'
        ∧ fw_init_inv g rows i (cols ++ [j]) D'.
Proof.
  intros HD Hi Hj Hne. unfold fw_init_entry, getitem.
  destruct (lookup_lt_is_Some_2 (sorted_vertices g) i Hi) as [vi Hvi].
  destruct (lookup_lt_is_Some_2 (sorted_vertices g) j Hj) as [vj Hvj].
  rewrite Hvi, Hvj. simpl.
  assert (Hkeep : ∀ i' j' y,
            fw_entry g i' j' y ∧ (fw_init_done rows i cols i' j' → fw_sound g i' j' y) →
            ¬ (i' = i ∧ j' = j) →
            fw_entry g i' j' y
            ∧ (fw_init_done rows i (cols ++ [j]) i' j' → fw_sound g i' j' y)).
  { intros i' j' y [He Hs] Hn. split; [done|]. intros [Hr|[-> Hc]].
    - apply Hs. by left.
    - apply elem_of_app in Hc as [Hc|Hc].
      + apply Hs. by right.
      + apply list_elem_of_singleton in Hc. subst. by destruct Hn. }
  destruct (_are_neighbors g vi vj) eqn:Hnb.
  - destruct (_edge_weight_ext_nonneg g vi vj g_nonneg) as (w & Hw & Hnn).
    rewrite Hw, bind_Ok.
    apply (setitem2_entries (length (sorted_vertices g)) _ _ D i j w HD Hi Hj Hkeep).
    split; [split; [done|split]|].
    + intros ->. done.
    + intros vi' vj' w' Hvi' Hvj' Hw'.
      rewrite Hvi in Hvi'. rewrite Hvj in Hvj'.
      injection Hvi' as <-. injection Hvj' as <-.
      rewrite Hw in Hw'. injection Hw' as <-. apply ext_ltb_irrefl.
    + intros _ vi' vj' d Hvi' Hvj' ->.
      rewrite Hvi in Hvi'. rewrite Hvj in Hvj'.
      injection Hvi' as <-. injection Hvj' as <-.
      by apply walk_edge.
  - apply (setitem2_entries (length (sorted_vertices g)) _ _ D i j (VEnum _inf) HD Hi Hj Hkeep).
    split; [split; [apply ext_nonneg_inf|split]|].
    + intros ->. done.
    + intros vi' vj' w' Hvi' Hvj' Hw'.
      rewrite Hvi in Hvi'. rewrite Hvj in Hvj'.
      injection Hvi' as <-. injection Hvj' as <-.
      unfold _edge_weight in Hw'. rewrite Hnb in Hw'. simpl in Hw'.
      by injection Hw' as <-.
    + intros _ vi' vj' d _ _ [=].
Qed.

Lemma fw_init_row_inv (rows : list nat) (D : Matrix) (i : nat) :
  fw_init_inv g rows i [] D → (i < length (sorted_vertices g))%nat →
  ∃ D', fw_init_row g (sorted_vertices g) D i = Ok D'
        ∧ fw_init_inv g (rows ++ [i]) i [] D'.
Proof.
  intros HD Hi. unfold fw_init_row.
  destruct (setitem2_entries (length (sorted_vertices g)) _
              (λ i' j' y, fw_entry g i' j' y
                          ∧ (fw_init_done rows i [i] i' j' → fw_sound g i' j' y))
              D i i (VInt 0) HD Hi Hi) as (D1 & HD1 & Hinv1).
  { intros i' j' y [He Hs] Hn. split; [done|]. intros [Hr|[-> Hc]].
    - apply Hs. by left.
    - apply list_elem_of_singleton in Hc. subst. by destruct Hn. }
  { split; [apply fw_entry_zero|].
    intros _ vi vj d Hvi Hvj [= <-]. rewrite Hvi in Hvj. injection Hvj as <-.
    apply walk_nil. }
  rewrite HD1, bind_Ok.
  set (js := List.filter (λ j, negb (j =? i)%nat)
                         (range (length (sorted_vertices g)))).
  destruct (foldM_inv (λ done D', fw_init_inv g rows i ([i] ++ done) D')
              (fw_init_entry g (sorted_vertices g) i) js D1) as (D2 & HD2 & Hinv2).
  - by rewrite app_nil_r.
  - intros done j D' HD' Hj.
    unfold js in Hj. rewrite list_elem_of_In in Hj. apply filter_In in Hj as [Hj Hji].
    apply in_seq in Hj. apply negb_true_iff, Nat.eqb_neq in Hji.
    rewrite app_assoc. apply fw_init_entry_inv; [done|done|lia|done].
  - exists D2. split; [done|].
    apply (entries_mono (length (sorted_vertices g)) _ _ D2 Hinv2).
    intros i' j' y Hi' Hj' [He Hs]. split; [done|]. intros [Hr|[_ Hc]].
    + apply elem_of_app in Hr as [Hr|Hr].
      * apply Hs. by left.
      * apply list_elem_of_singleton in Hr. subst. apply Hs. right. split; [done|].
        destruct (decide (j' = i)) as [->|Hne]; [by left|]. right.
        unfold js. rewrite list_elem_of_In. apply filter_In. split.
        -- apply in_seq. lia.
        -- by apply negb_true_iff, Nat.eqb_neq.
    + by apply elem_of_nil in Hc.
Qed.

Lemma fw_relax_inv (k i : nat) (D : Matrix) (j : nat) :
  fw_full_inv g D →
  (k < length (sorted_vertices g))%nat → (i < length (sorted_vertices g))%nat →
  (j < length (sorted_vertices g))%nat →
  ∃ D', fw_relax k i D j = Ok D' ∧ fw_full_inv g D'.
Proof.
  intros HD Hk Hi Hj. unfold fw_relax.
  destruct (HD) as [_ HR].
  destruct (HR i j Hi Hj) as (dij & Hdij & (Hnij & Hdiag & Hle) & Hsij).
  destruct (HR i k Hi Hk) as (dik & Hdik & (Hnik & _ & _) & Hsik).
  destruct (HR k j Hk Hj) as (dkj & Hdkj & (Hnkj & _ & _) & Hskj).
  rewrite Hdij, bind_Ok, Hdik, bind_Ok, Hdkj, bind_Ok.
  destruct (py_add_ext_nonneg dik dkj Hnik Hnkj) as (s & Hs & Hns).
  rewrite Hs, bind_Ok. unfold py_min.
  rewrite (py_lt_ext_real s dij) by by apply ext_nonneg_real.
  rewrite bind_Ok, bind_Ok.
  apply (setitem2_entries (length (sorted_vertices g)) _ _ D i j _ HD Hi Hj).
  { intros i' j' y Hy _. exact Hy. }
  destruct (ext_ltb s dij) eqn:Hlt; [|done].
  split; [split; [done|split]|].
  - intros Heq. rewrite (Hdiag Heq) in Hlt.
    by rewrite (ext_ltb_nonneg_zero s Hns) in Hlt.
  - intros vi vj w Hvi Hvj Hw.
    destruct (ext_ltb w s) eqn:Hws; [|done].
    specialize (Hle vi vj w Hvi Hvj Hw).
    by rewrite (ext_ltb_trans w s dij Hws Hlt) in Hle.
  - intros vi vj d Hvi Hvj ->.
    destruct (py_add_ints dik dkj d Hnik Hnkj Hs) as (x & y & -> & -> & ->).
    destruct (lookup_lt_is_Some_2 (sorted_vertices g) k Hk) as [vk Hvk].
    apply (walk_app g vi vk vj).
    + by apply (Hsik vi vk x).
    + by apply (Hskj vk vj y).
Qed.

Lemma floyd_warshall_inv : ∃ D, floyd_warshall g = Ok D ∧ fw_full_inv g D.
Proof.
  unfold floyd_warshall.
  rewrite (Matrix_init_rectangular _ (length (sorted_vertices g))); last first.
  { apply Forall_fmap, Forall_forall. intros v _. simpl. by rewrite length_fmap. }
  rewrite bind_Ok.
  set (D0 := (λ _ : Z, (λ _ : Z, VInt 0) <$> sorted_vertices g) <$> sorted_vertices g).
  assert (H0 : fw_init_inv g [] 0 [] D0).
  { split.
    - split; [by unfold D0; rewrite length_fmap|].
      apply Forall_fmap, Forall_forall. intros v _. simpl. by rewrite length_fmap.
    - intros i j Hi Hj.
      destruct (lookup_lt_is_Some_2 (sorted_vertices g) i Hi) as [vi Hvi].
      destruct (lookup_lt_is_Some_2 (sorted_vertices g) j Hj) as [vj Hvj].
      exists (VInt 0). split.
      + unfold getitem2, getitem, D0. rewrite list_lookup_fmap, Hvi. simpl.
        by rewrite list_lookup_fmap, Hvj.
      + split; [apply fw_entry_zero|].
        intros [Hr|[_ Hc]]; [by apply elem_of_nil in Hr|by apply elem_of_nil in Hc]. }
  destruct (foldM_inv (λ done D, ∀ i cols, cols = [] → fw_init_inv g done i cols D)
              (fw_init_row g (sorted_vertices g))
              (range (length (sorted_vertices g))) D0) as (D1 & HD1 & Hinv1).
  - intros i cols ->. apply (entries_mono (length (sorted_vertices g)) _ _ D0 H0).
    intros i' j' y _ _ [He Hs]. split; [done|].
    intros [Hr|[_ Hc]]; [by apply elem_of_nil in Hr|by apply elem_of_nil in Hc].
  - intros done i D HD Hi. apply elem_of_seq in Hi.
    destruct (fw_init_row_inv done D i (HD i [] eq_refl)) as (D' & HD' & Hinv'); [lia|].
    exists D'. split; [done|]. intros i0 cols ->.
    apply (entries_mono (length (sorted_vertices g)) _ _ D' Hinv').
    intros i' j' y _ _ [He Hs]. split; [done|].
    intros [Hr|[_ Hc]]; [apply Hs; by left|by apply elem_of_nil in Hc].
  - rewrite HD1, bind_Ok.
    assert (Hfull : fw_full_inv g D1).
    { apply (entries_mono (length (sorted_vertices g)) _ _ D1 (Hinv1 0%nat [] eq_refl)).
      intros i j y Hi Hj [He Hs]. split; [done|]. apply Hs. left.
      apply elem_of_seq. lia. }
    destruct (foldM_inv (λ _ D, fw_full_inv g D)
                (λ D k,
                   foldM (λ D i,
                            foldM (fw_relax k i) (range (length (sorted_vertices g))) D)
                         (range (length (sorted_vertices g))) D)
                (range (length (sorted_vertices g))) D1 Hfull) as (D2 & HD2 & Hinv2); [|eauto].
    intros _ k D HD Hk. apply elem_of_seq in Hk.
    apply (foldM_inv (λ _ D, fw_full_inv g D)); [done|].
    intros _ i D' HD' Hi. apply elem_of_seq in Hi.
    apply (foldM_inv (λ _ D, fw_full_inv g D)); [done|].
    intros _ j D'' HD'' Hj. apply elem_of_seq in Hj.
    apply fw_relax_inv; [done|lia..].
Qed.

End FloydWarshall.

Lemma sorted_vertices_length (g : Graph) :
  length (sorted_vertices g) = size (_vertices g).
Proof. unfold sorted_vertices. by rewrite merge_sort_Permutation. Qed.

Lemma elem_of_sorted_vertices (g : Graph) (v : Z) :
  v ∈ sorted_vertices g ↔ v ∈ _vertices g.
Proof. unfold sorted_vertices. by rewrite merge_sort_Permutation, elem_of_elements. Qed.

Lemma getitem2_shape (n : nat) (D : Matrix) (i j : nat) (x : pyval) :
  shape n D → getitem2 D i j = Ok x →
  (i < n)%nat ∧ (j < n)%nat ∧ x ∈ Matrix_iter D.
Proof.
  intros [Hlen Hrows] H. unfold getitem2, getitem in H.
  destruct (D !! i) as [row|] eqn:Hrow; [|done]. simpl in H.
  destruct (row !! j) as [y|] eqn:Hy; [|done]. injection H as ->.
  assert (Hlr : length row = n).
  { rewrite Forall_forall in Hrows. apply Hrows. by eapply list_elem_of_lookup_2. }
  split; [|split].
  - rewrite <- Hlen. by eapply lookup_lt_Some.
  - rewrite <- Hlr. by eapply lookup_lt_Some.
  - unfold Matrix_iter. apply list_elem_of_In, in_concat. exists row.
    split; apply list_elem_of_In; by eapply list_elem_of_lookup_2.
Qed.

(** On a graph whose stored weights are non-negative numbers,
    [floyd_warshall] returns a matrix with one row and one column per
    vertex, whose entries are [∞] or non-negative numbers and whose diagonal
    is 0. *)
Theorem floyd_warshall_returns (g : Graph) :
  nonneg_weights g →
  ∃ D, floyd_warshall g = Ok D ∧ fw_inv (size (_vertices g)) D.
Proof.
  intros Hg. destruct (floyd_warshall_inv g Hg) as (D & HD & Hshape & HR).
  rewrite sorted_vertices_length in Hshape, HR.
  exists D. split; [done|]. split; [done|]. split.
  - intros i j x Hx.
    destruct (getitem2_shape _ D i j x Hshape Hx) as (Hi & Hj & _).
    destruct (HR i j Hi Hj) as (y & Hy & (Hnn & _) & _). congruence.
  - intros i Hi. destruct (HR i i Hi Hi) as (y & Hy & (_ & Hdiag & _) & _).
    by rewrite Hy, (Hdiag eq_refl).
Qed.

Lemma floyd_warshall_returns_witness :
  ∃ D, floyd_warshall fifo_graph = Ok D ∧ fw_inv (size (_vertices fifo_graph)) D.
Proof. apply (floyd_warshall_returns fifo_graph). exact fifo_graph_nonneg. Defined.


(** On a graph whose stored weights are non-negative numbers, every entry
    of the matrix of [floyd_warshall] that is a number is the length of a
    walk along stored edges between the two vertices, and no entry is
    above the weight [_edge_weight] gives for the two vertices. *)
Theorem floyd_warshall_sound (g : Graph) :
  nonneg_weights g →
  ∃ D, floyd_warshall g = Ok D
       ∧ ∀ i j vi vj,
           sorted_vertices g !! i = Some vi → sorted_vertices g !! j = Some vj →
           ∃ x, getitem2 D i j = Ok x
                ∧ (∀ d, x = VInt d → walk g vi vj d)
                ∧ (∃ w, _edge_weight g vi vj = Ok w ∧ ext_ltb w x = false).
Proof.
  intros Hg. destruct (floyd_warshall_inv g Hg) as (D & HD & Hshape & HR).
  exists D. split; [done|]. intros i j vi vj Hvi Hvj.
  destruct (HR i j) as (x & Hx & (_ & _ & Hle) & Hs);
    [by eapply lookup_lt_Some..|].
  exists x. split; [done|]. split.
  - intros d ->. by apply (Hs vi vj d).
  - destruct (_edge_weight_ext_nonneg g vi vj Hg) as (w & Hw & _).
    exists w. split; [done|]. by apply (Hle vi vj w).
Qed.

Lemma floyd_warshall_sound_witness :
  ∃ D, floyd_warshall fifo_graph = Ok D
       ∧ ∀ i j vi vj,
           sorted_vertices fifo_graph !! i = Some vi →
           sorted_vertices fifo_graph !! j = Some vj →
           ∃ x, getitem2 D i j = Ok x
                ∧ (∀ d, x = VInt d → walk fifo_graph vi vj d)
                ∧ (∃ w, _edge_weight fifo_graph vi vj = Ok w ∧ ext_ltb w x = false).
Proof. apply (floyd_warshall_sound fifo_graph). exact fifo_graph_nonneg. Defined.


(** On a graph whose stored weights are non-negative numbers,
    [is_connected] returns, and when it answers [True], a walk along stored
    edges leads from every vertex to every vertex. *)
Theorem is_connected_sound (g : Graph) :
  nonneg_weights g →
  ∃ b, is_connected g = Ok b
       ∧ (b = true →
          ∀ u v, u ∈ _vertices g → v ∈ _vertices g → ∃ d, walk g u v d).
Proof.
  intros Hg. destruct (floyd_warshall_inv g Hg) as (D & HD & Hshape & HR).
  unfold is_connected. rewrite HD, bind_Ok. eexists. split; [done|].
  intros Hall u v Hu Hv.
  apply elem_of_sorted_vertices, list_elem_of_lookup in Hu as [i Hi].
  apply elem_of_sorted_vertices, list_elem_of_lookup in Hv as [j Hj].
  destruct (HR i j) as (x & Hx & _ & Hs); [by eapply lookup_lt_Some..|].
  destruct (getitem2_shape _ D i j x Hshape Hx) as (_ & _ & Hin).
  rewrite forallb_forall in Hall. apply list_elem_of_In, Hall in Hin.
  destruct x as [d| | |]; try done. exists d. by apply (Hs u v d).
Qed.

Lemma is_connected_sound_witness :
  ∃ b, is_connected two_cycle = Ok b
       ∧ (b = true →
          ∀ u v, u ∈ _vertices two_cycle → v ∈ _vertices two_cycle →
                 ∃ d, walk two_cycle u v d).
Proof.
  apply (is_connected_sound two_cycle).
  intros e He. apply list_elem_of_In in He. simpl in He.
  destruct He as [<-|[<-|[]]]; exists 5; (split; [reflexivity|lia]).
Defined.


(** ** The distances of [dijkstra] are lengths of walks *)

(** A sum is a number only when both terms are. *)
Lemma py_add_number (a b : pyval) (c : Z) :
  py_add a b = Ok (VInt c) → ∃ x y, a = VInt x ∧ b = VInt y ∧ c = x + y.
Proof.
  destruct a as [x|[]| |], b as [y|[]| |]; simpl; try done.
  intros [= <-]. eauto.
Qed.

Lemma dict_get_Ok (d : gmap Z pyval) (k : Z) (x : pyval) :
  dict_get d k = Ok x → d !! k = Some x.
Proof. unfold dict_get. destruct (d !! k); [by intros [= ->]|done]. Qed.

Lemma relax_walk (g : Graph) (src c x : Z) (d d' : gmap Z pyval) (q q' : list Z) :
  walk_inv g src d → relax g c (d, q) x = Ok (d', q') → walk_inv g src d'.
Proof.
  intros [Hkeys Hwalk] H. unfold relax in H.
  apply bind_Ok_inv in H as (dc & Hdc & H).
  apply bind_Ok_inv in H as (w & Hw & H).
  apply bind_Ok_inv in H as (t & Ht & H).
  apply bind_Ok_inv in H as (dn & Hdn & H).
  apply bind_Ok_inv in H as (b & _ & H).
  destruct b; injection H as <- <-; [|done].
  apply dict_get_Ok in Hdc, Hdn. split.
  - intros y. rewrite <- Hkeys. rewrite lookup_insert_is_Some'.
    split; [|auto]. intros [->|Hy]; [by rewrite Hdn|done].
  - intros y n Hy. apply lookup_insert_Some in Hy as [[<- ->]|[_ Hy]]; [|by apply Hwalk].
    apply py_add_number in Ht as (a & b & -> & -> & ->).
    apply (walk_app g src c x); [by apply Hwalk|by apply walk_edge].
Qed.

Lemma foldM_relax_walk (g : Graph) (src c : Z) (ns : list Z)
    (d d' : gmap Z pyval) (q q' : list Z) :
  walk_inv g src d → foldM (relax g c) ns (d, q) = Ok (d', q') →
  walk_inv g src d'.
Proof.
  revert d q. induction ns as [|x ns IH]; intros d q Hd; simpl.
  - by intros [= <- <-].
  - intros H. apply bind_Ok_inv in H as ([d1 q1] & H1 & H).
    apply (IH d1 q1); [|done]. by eapply relax_walk.
Qed.

Lemma dijkstra_loop_walk (set_order : list Z → list Z) (g : Graph) (src : Z)
    (fuel : nat) (visited : gset Z) (d d' : gmap Z pyval) (q : list Z) :
  walk_inv g src d →
  dijkstra_loop set_order fuel g visited d q = Ok d' → walk_inv g src d'.
Proof.
  revert visited d q. induction fuel as [|fuel IH]; intros visited d q Hd.
  - destruct q; simpl; [by intros [= <-]|done].
  - destruct q as [|c q]; simpl; [by intros [= <-]|].
    destruct (bool_decide (c ∈ visited)); [by apply IH|].
    intros H. apply bind_Ok_inv in H as ([d1 q1] & H1 & H). simpl in H.
    apply (IH ({[c]} ∪ visited) d1 q1); [|done]. by eapply foldM_relax_walk.
Qed.

Lemma walk_inv_initial (g : Graph) (v : Z) :
  v ∈ _vertices g →
  walk_inv g v
    (<[v:=VInt 0]> (list_to_map ((λ x, (x, VEnum _inf)) <$> sorted_vertices g))).
Proof.
  intros Hv. split.
  - intros x. rewrite lookup_insert_is_Some', lookup_constant_dict.
    destruct (decide (x ∈ sorted_vertices g)) as [Hx|Hx].
    + rewrite bool_decide_eq_true_2 by done.
      apply elem_of_sorted_vertices in Hx. split; [done|]. intros _. by right.
    + rewrite bool_decide_eq_false_2 by done.
      rewrite elem_of_sorted_vertices in Hx. split.
      * intros [<-|[? ?]]; done.
      * done.
  - intros x n Hx. apply lookup_insert_Some in Hx as [[<- [= <-]]|[_ Hx]].
    + apply walk_nil.
    + rewrite lookup_constant_dict in Hx.
      by destruct (bool_decide (x ∈ sorted_vertices g)).
Qed.

(** The run of [dijkstra] on a graph with non-negative weights. *)
Lemma dijkstra_run (set_order : list Z → list Z) (g : Graph) (v : Z) :
  (∀ l, set_order l ≡ₚ l) → nonneg_weights g → v ∈ _vertices g →
  ∃ d, dijkstra set_order g v = Ok d
       ∧ dist_inv (_vertices g) v d ∧ walk_inv g v d.
Proof.
  intros Hperm Hg Hv.
  pose proof (dijkstra_fuel_enough set_order Hperm g v) as Hfuel.
  rewrite dijkstra_vertex in Hfuel |- * by done.
  destruct (dijkstra_loop_inv set_order Hperm g Hg v (dijkstra_fuel g) ∅ _ [v]
              (dist_inv_initial g v)) as [Hout|(d & Hd & Hinv)].
  - intros x Hx. apply list_elem_of_singleton in Hx as ->. done.
  - done.
  - exists d. split; [done|]. split; [done|].
    eapply dijkstra_loop_walk; [|exact Hd]. by apply walk_inv_initial.
Qed.

(** In a graph whose stored weights are non-negative numbers, for every
    order of iteration over the sets of neighbors and every vertex [v] of
    the graph, [dijkstra(v)] returns a dictionary whose keys are the
    vertices of the graph, whose values are [∞] or non-negative numbers,
    and in which every value that is a number is the length of a walk
    along stored edges from [v] to the key. *)
Theorem dijkstra_sound (set_order : list Z → list Z) (g : Graph) (v : Z) :
  (∀ l, set_order l ≡ₚ l) → nonneg_weights g → v ∈ _vertices g →
  ∃ d, dijkstra set_order g v = Ok d
       ∧ (∀ x, is_Some (d !! x) ↔ x ∈ _vertices g)
       ∧ (∀ x y, d !! x = Some y → ext_nonneg y)
       ∧ (∀ x n, d !! x = Some (VInt n) → walk g v x n).
Proof.
  intros Hperm Hg Hv.
  destruct (dijkstra_run set_order g v Hperm Hg Hv)
    as (d & Hd & (_ & Hvals & _) & Hkeys & Hwalk).
  exists d. auto.
Qed.

Lemma dijkstra_sound_witness :
  ∃ d, dijkstra id fifo_graph 1 = Ok d
       ∧ (∀ x, is_Some (d !! x) ↔ x ∈ _vertices fifo_graph)
       ∧ (∀ x y, d !! x = Some y → ext_nonneg y)
       ∧ (∀ x n, d !! x = Some (VInt n) → walk fifo_graph 1 x n).
Proof.
  apply (dijkstra_sound id fifo_graph 1).
  - intros l. reflexivity.
  - exact fifo_graph_nonneg.
  - apply (bool_decide_unpack _). reflexivity.
Defined.

(** ** [eccentricity] *)

Lemma py_gt_ext_real (a b : pyval) :
  ext_real a → ext_real b → py_gt a b = Ok (ext_ltb b a).
Proof.
  destruct a as [x|[]| |], b as [y|[]| |]; try done.
  intros _ _. simpl. by rewrite Z.gtb_ltb.
Qed.

Lemma ext_ltb_real (a b : pyval) : ext_ltb a b = true → ext_real a ∧ ext_real b.
Proof. destruct a as [x|[]| |], b as [y|[]| |]; done. Qed.

(** The loop of [max]: its result is the first value or one of the later
    ones, and none of them is above it. *)
Lemma py_max_loop (l : list pyval) (cur : pyval) :
  ext_real cur → Forall ext_real l →
  ∃ x, foldM (λ cur item, py_gt item cur ≫= λ c : bool, Ok (if c then item else cur))
             l cur = Ok x
       ∧ (x = cur ∨ x ∈ l)
       ∧ ext_ltb x cur = false
       ∧ ∀ y, y ∈ l → ext_ltb x y = false.
Proof.
  revert cur. induction l as [|item l IH]; intros cur Hcur Hl.
  - exists cur. simpl. split; [done|]. split; [by left|].
    split; [apply ext_ltb_irrefl|]. intros y Hy. by apply elem_of_nil in Hy.
  - apply Forall_cons in Hl as [Hitem Hl].
    rewrite foldM_cons, (py_gt_ext_real item cur Hitem Hcur), bind_Ok, bind_Ok.
    destruct (ext_ltb cur item) eqn:Hlt.
    + destruct (IH item Hitem Hl) as (x & Hx & Hin & Hge & Hall).
      exists x. split; [done|]. split; [|split].
      * right. destruct Hin as [->|Hin]; [left|by right].
      * destruct (ext_ltb x cur) eqn:Hxc; [|done].
        by rewrite (ext_ltb_trans x cur item Hxc Hlt) in Hge.
      * intros y Hy. apply elem_of_cons in Hy as [->|Hy]; [done|by apply Hall].
    + destruct (IH cur Hcur Hl) as (x & Hx & Hin & Hge & Hall).
      exists x. split; [done|]. split; [|split; [done|]].
      * destruct Hin as [->|Hin]; [by left|right; by right].
      * intros y Hy. apply elem_of_cons in Hy as [->|Hy]; [|by apply Hall].
        destruct (ext_ltb x item) eqn:Hxi; [|done].
        destruct (ext_ltb_real x item Hxi) as [Hrx _].
        destruct (ext_ltb_total x cur Hrx Hcur) as [->|[H|H]].
        -- congruence.
        -- congruence.
        -- rewrite (ext_ltb_trans cur x item H Hxi) in Hlt. done.
Qed.

Lemma py_max_spec (l : list pyval) :
  l ≠ [] → Forall ext_real l →
  ∃ x, py_max l = Ok x ∧ x ∈ l ∧ ∀ y, y ∈ l → ext_ltb x y = false.
Proof.
  intros Hne Hl. destruct l as [|cur l]; [done|].
  apply Forall_cons in Hl as [Hcur Hl].
  destruct (py_max_loop l cur Hcur Hl) as (x & Hx & Hin & Hge & Hall).
  exists x. split; [done|]. split.
  - destruct Hin as [->|Hin]; [left|by right].
  - intros y Hy. apply elem_of_cons in Hy as [->|Hy]; [done|by apply Hall].
Qed.

(** In a graph whose stored weights are non-negative numbers, for every
    order of iteration over the sets of neighbors and every vertex [v] of
    the graph, [eccentricity(v)] returns one of the distances [dijkstra(v)]
    gives, none of these distances is above it, and it is [∞] or a
    non-negative number. *)
Theorem eccentricity_is_max (set_order : list Z → list Z) (g : Graph) (v : Z) :
  (∀ l, set_order l ≡ₚ l) → nonneg_weights g → v ∈ _vertices g →
  ∃ d x, dijkstra set_order g v = Ok d
         ∧ eccentricity set_order g v = Ok x
         ∧ ext_nonneg x
         ∧ (∃ u, d !! u = Some x)
         ∧ (∀ u y, d !! u = Some y → ext_ltb x y = false).
Proof.
  intros Hperm Hg Hv.
  destruct (dijkstra_run set_order g v Hperm Hg Hv)
    as (d & Hd & (_ & Hvals & _) & Hkeys & _).
  assert (Hget : ∀ u, u ∈ sorted_vertices g →
                 dict_get d u = Ok (default VNone (d !! u))).
  { intros u Hu. apply elem_of_sorted_vertices, Hkeys in Hu as [y Hy].
    unfold dict_get. by rewrite Hy. }
  set (vals := (λ u, default VNone (d !! u)) <$> sorted_vertices g).
  assert (Hin : ∀ y, y ∈ vals ↔ ∃ u, d !! u = Some y).
  { intros y. unfold vals. rewrite list_elem_of_fmap. split.
    - intros (u & -> & Hu). exists u.
      apply elem_of_sorted_vertices, Hkeys in Hu as [z Hz]. by rewrite Hz.
    - intros (u & Hu). exists u. rewrite Hu. split; [done|].
      apply elem_of_sorted_vertices, Hkeys. eauto. }
  destruct (py_max_spec vals) as (x & Hx & Hxin & Hmax).
  - intros Hnil.
    assert (Hv0 : default VNone (d !! v) ∈ vals).
    { unfold vals. apply list_elem_of_fmap. exists v. split; [done|].
      by apply elem_of_sorted_vertices. }
    rewrite Hnil in Hv0. by apply elem_of_nil in Hv0.
  - apply Forall_forall. intros y Hy. apply Hin in Hy as [u Hu].
    apply ext_nonneg_real. by eapply Hvals.
  - exists d, x. split; [done|]. split.
    { unfold eccentricity. rewrite Hd, bind_Ok.
      rewrite (mapM_Ok _ (λ u, default VNone (d !! u))) by done.
      by rewrite bind_Ok. }
    apply Hin in Hxin as [u Hu]. split; [by eapply Hvals|]. split; [eauto|].
    intros u' y Hy. apply Hmax, Hin. eauto.
Qed.

Lemma eccentricity_is_max_witness :
  ∃ d x, dijkstra id fifo_graph 1 = Ok d
         ∧ eccentricity id fifo_graph 1 = Ok x
         ∧ ext_nonneg x
         ∧ (∃ u, d !! u = Some x)
         ∧ (∀ u y, d !! u = Some y → ext_ltb x y = false).
Proof.
  apply (eccentricity_is_max id fifo_graph 1).
  - intros l. reflexivity.
  - exact fifo_graph_nonneg.
  - apply (bool_decide_unpack _). reflexivity.
Defined.

(** ** [Matrix.cofactor] *)

Lemma square_minor_pq (n p q : nat) (m : list (list Z)) :
  square (S n) m → (p < S n)%nat → (q < S n)%nat → square n (minor_pq p q m).
Proof.
  intros [Hlen Hrows] Hp Hq. unfold minor_pq. split.
  - rewrite length_fmap, length_app, length_take, length_drop. lia.
  - apply Forall_fmap, Forall_app. split.
    + apply Forall_take. eapply Forall_impl; [exact Hrows|].
      intros row Hrow. simpl in *.
      rewrite length_app, length_take, length_drop. lia.
    + apply Forall_drop. eapply Forall_impl; [exact Hrows|].
      intros row Hrow. simpl in *.
      rewrite length_app, length_take, length_drop. lia.
Qed.

(** A row of the minor: the entries of row [j] without column [p]. *)
Lemma minor_row (n p : nat) (m : list (list Z)) (j : nat) (row : list Z) :
  m !! j = Some row → length row = S n → (p < S n)%nat →
  mapM (λ i, getitem2 (int_matrix m) j i) (seq 0 p ++ seq (S p) (S n - S p))
  = Ok (VInt <$> (take p row ++ drop (S p) row)).
Proof.
  intros Hrow Hl Hp.
  assert (Hget : ∀ i, getitem2 (int_matrix m) j i = getitem (VInt <$> row) i).
  { intros i. unfold getitem2.
    by rewrite (getitem_Some _ j _ (int_matrix_lookup m j row Hrow)). }
  rewrite (mapM_ext _ (getitem (VInt <$> row))) by (intros; apply Hget).
  rewrite fmap_app, fmap_take, fmap_drop.
  apply mapM_app.
  - rewrite (mapM_seq_lookup _ id (VInt <$> row) p 0);
      [|intros ???; by apply getitem_Some|rewrite length_fmap; lia].
    by rewrite drop_0, list_fmap_id.
  - rewrite (mapM_seq_lookup _ id (VInt <$> row) (S n - S p) (S p));
      [|intros ???; by apply getitem_Some|rewrite length_fmap; lia].
    rewrite list_fmap_id, take_ge; [done|].
    rewrite length_drop, length_fmap. lia.
Qed.

(** On a square matrix of numbers, [minor(p, q)] is the matrix without
    column [p] and row [q]. *)
Lemma minor_pq_int_matrix (n p q : nat) (m : list (list Z)) :
  square (S n) m → (p < S n)%nat → (q < S n)%nat →
  minor (int_matrix m) (Z.of_nat p) (Z.of_nat q)
  = Ok (int_matrix (minor_pq p q m)).
Proof.
  intros Hsq Hp Hq. unfold minor.
  destruct (Z.of_nat p <? 0) eqn:E1; [apply Z.ltb_lt in E1; lia|].
  rewrite (width_int_matrix (S n) m Hsq), bind_Ok by lia.
  destruct (Z.of_nat (S n) - 1 <? Z.of_nat p) eqn:E2; [apply Z.ltb_lt in E2; lia|].
  rewrite (height_int_matrix (S n) m Hsq).
  destruct (Z.of_nat q <? 0) eqn:E3; [apply Z.ltb_lt in E3; lia|].
  destruct (Z.of_nat (S n) - 1 <? Z.of_nat q) eqn:E4; [apply Z.ltb_lt in E4; lia|].
  cbn [orb].
  rewrite !filter_seq_ne by done.
  pose proof (square_minor_pq n p q m Hsq Hp Hq) as Hsq'.
  destruct Hsq as [Hlen Hrows].
  assert (Hrow : ∀ j row', int_matrix m !! j = Some row' →
            mapM (λ i, getitem2 (int_matrix m) j i) (seq 0 p ++ seq (S p) (S n - S p))
            = Ok ((λ row : list pyval, take p row ++ drop (S p) row) row')).
  { intros j row' Hj.
    unfold int_matrix in Hj. apply list_lookup_fmap_Some in Hj as (row & -> & Hrow).
    rewrite (minor_row n p m j row Hrow); [|
      rewrite Forall_forall in Hrows; apply Hrows; by eapply list_elem_of_lookup_2|done].
    by rewrite fmap_app, fmap_take, fmap_drop. }
  erewrite mapM_app; last first.
  - apply (mapM_seq_lookup _ (λ row : list pyval, take p row ++ drop (S p) row)
             (int_matrix m) (S n - S q) (S q) Hrow).
    unfold int_matrix. rewrite length_fmap. lia.
  - apply (mapM_seq_lookup _ (λ row : list pyval, take p row ++ drop (S p) row)
             (int_matrix m) q 0 Hrow).
    unfold int_matrix. rewrite length_fmap. lia.
  - rewrite bind_Ok, drop_0, <- fmap_app.
    rewrite (take_ge (drop (S q) (int_matrix m)))
      by (unfold int_matrix; rewrite length_drop, length_fmap; lia).
    assert (Heq : (λ row : list pyval, take p row ++ drop (S p) row)
                    <$> (take q (int_matrix m) ++ drop (S q) (int_matrix m))
                  = int_matrix (minor_pq p q m)).
    { unfold int_matrix, minor_pq.
      rewrite <- fmap_take, <- fmap_drop, <- fmap_app, <- !list_fmap_compose.
      apply list_fmap_ext. intros i row _. simpl.
      by rewrite fmap_app, fmap_take, fmap_drop. }
    rewrite Heq. apply (int_matrix_rectangular n n). exact Hsq'.
Qed.

Lemma _cofactor_int_matrix (n p q : nat) (m : list (list Z)) :
  (2 ≤ n)%nat → square (S n) m → (p < S n)%nat → (q < S n)%nat →
  _cofactor (int_matrix m) p q
  = Ok (VInt ((-1) ^ Z.of_nat (p + q) * det_spec n (minor_pq p q m))).
Proof.
  intros Hn Hsq Hp Hq. unfold _cofactor.
  rewrite (minor_pq_int_matrix n p q m Hsq Hp Hq), bind_Ok.
  rewrite (det_int_matrix n _ Hn (square_minor_pq n p q m Hsq Hp Hq)).
  by rewrite bind_Ok.
Qed.

Lemma cofactor_spec_square (n : nat) (m : list (list Z)) :
  rect n n (cofactor_spec n m).
Proof.
  unfold cofactor_spec, range. split; [by rewrite length_fmap, length_seq|].
  apply Forall_fmap, Forall_forall. intros j _. simpl.
  by rewrite length_fmap, length_seq.
Qed.

Lemma minor_pq_first_row (p : nat) (m : list (list Z)) :
  minor_pq p 0 m = minor_spec p m.
Proof. unfold minor_pq, minor_spec. by rewrite take_0. Qed.

Lemma Zsum_ext (f h : nat → Z) (l : list nat) :
  (∀ i, i ∈ l → f i = h i) → Zsum f l = Zsum h l.
Proof.
  unfold Zsum. generalize 0. induction l as [|i l IH]; intros acc Hf; [done|].
  simpl. rewrite (Hf i) by left. apply IH. intros k Hk. apply Hf. by right.
Qed.

Lemma cofactor_spec_first_row (n i : nat) (m : list (list Z)) :
  (i < n)%nat →
  nth i (hd [] (cofactor_spec n m)) 0
  = (-1) ^ Z.of_nat i * det_spec (n - 1) (minor_spec i m).
Proof.
  intros Hi. unfold cofactor_spec.
  destruct n as [|n]; [lia|]. unfold range at 2. cbn [seq fmap list_fmap hd].
  erewrite (nth_lookup_Some _ i); last first.
  { unfold range. rewrite list_lookup_fmap, lookup_seq_lt by lia. done. }
  by rewrite Nat.add_0_r, minor_pq_first_row.
Qed.

(** On an [n × n] matrix of numbers, [3 ≤ n], [cofactor] returns the
    matrix of the signed determinants of the minors, and the entries of its
    first row, multiplied by the entries of the first row of the matrix,
    add up to the determinant [det] returns.  On a [2 × 2] matrix of
    numbers [cofactor] returns [[d, -c], [-b, a]]. *)
Theorem cofactor_int_matrix (n : nat) (m : list (list Z)) :
  (3 ≤ n)%nat → square n m →
  cofactor (int_matrix m) = Ok (int_matrix (cofactor_spec n m))
  ∧ det (int_matrix m)
    = Ok (VInt (Zsum (λ i, nth i (hd [] m) 0 * nth i (hd [] (cofactor_spec n m)) 0)
                     (range n)))
  ∧ ∀ a b c d,
      cofactor (int_matrix [[a; b]; [c; d]]) = Ok (int_matrix [[d; - c]; [- b; a]]).
Proof.
  intros Hn Hsq. destruct n as [|n']; [lia|].
  split; [|split].
  - unfold cofactor. rewrite (height_int_matrix (S n') m Hsq).
    destruct (S n' =? 2)%nat eqn:E; [apply Nat.eqb_eq in E; lia|].
    rewrite bind_Ok.
    rewrite (mapM_Ok _ (λ j : nat,
               (λ i : nat, VInt ((-1) ^ Z.of_nat (i + j)
                                 * det_spec n' (minor_pq i j m)))
               <$> range (S n'))).
    + rewrite bind_Ok.
      assert (Heq : (λ j : nat,
                 (λ i : nat, VInt ((-1) ^ Z.of_nat (i + j)
                                   * det_spec n' (minor_pq i j m)))
                 <$> range (S n')) <$> range (S n')
              = int_matrix (cofactor_spec (S n') m)).
      { unfold int_matrix, cofactor_spec.
        replace (S n' - 1)%nat with n' by lia. rewrite <- list_fmap_compose.
        apply list_fmap_ext. intros ? j _. cbn beta. unfold compose.
        by rewrite <- list_fmap_compose. }
      rewrite Heq. apply (int_matrix_rectangular (S n') (S n')).
      apply cofactor_spec_square.
    + intros j Hj. apply elem_of_seq in Hj.
      rewrite (width_int_matrix (S n') m Hsq), bind_Ok by lia.
      apply mapM_Ok. intros i Hi. apply elem_of_seq in Hi.
      apply _cofactor_int_matrix; [lia|done|lia|lia].
  - rewrite (det_int_matrix (S n') m) by (done || lia). do 2 f_equal.
    rewrite det_spec_expansion by lia.
    apply Zsum_ext. intros i Hi. apply elem_of_seq in Hi.
    rewrite cofactor_spec_first_row by lia.
    replace (S n' - 1)%nat with n' by lia. lia.
  - intros a b c d. unfold cofactor. simpl.
    by replace (-1 * c) with (- c) by lia; replace (-1 * b) with (- b) by lia.
Qed.

Lemma cofactor_int_matrix_witness :
  cofactor (int_matrix [[1; 2; 3]; [4; 5; 6]; [7; 8; 10]])
  = Ok (int_matrix (cofactor_spec 3 [[1; 2; 3]; [4; 5; 6]; [7; 8; 10]])).
Proof.
  refine (proj1 (cofactor_int_matrix 3 [[1; 2; 3]; [4; 5; 6]; [7; 8; 10]] _ _)).
  - lia.
  - split; [reflexivity|]. repeat constructor.
Defined.

(** ** [Graph.adjacency] *)

Lemma _are_neighbors_mirror (g : Graph) (u v : Z) :
  mirror_closed (_edges g) → _are_neighbors g u v = _are_neighbors g v u.
Proof.
  intros Hm.
  assert (H : ∀ a b, _are_neighbors g a b = true → _are_neighbors g b a = true).
  { intros a b. rewrite !_are_neighbors_true. intros (e & He & Hu & Hv).
    exists (mirror e). split; [by apply Hm|]. by split. }
  destruct (_are_neighbors g u v) eqn:E1, (_are_neighbors g v u) eqn:E2; try done.
  - apply H in E1. congruence.
  - apply H in E2. congruence.
Qed.

Lemma getitem2_adjacency (g : Graph) (r c : nat) :
  getitem2 ((λ j : Z,
               (λ i : Z, VInt (if _are_neighbors g i j then 1 else 0))
               <$> sorted_vertices g) <$> sorted_vertices g) r c
  = match sorted_vertices g !! r, sorted_vertices g !! c with
    | Some vr, Some vc => Ok (VInt (if _are_neighbors g vc vr then 1 else 0))
    | _, _ => Raise IndexError
    end.
Proof.
  unfold getitem2, getitem. rewrite list_lookup_fmap.
  destruct (sorted_vertices g !! r) as [vr|]; [|done]. simpl.
  rewrite list_lookup_fmap. by destruct (sorted_vertices g !! c).
Qed.

(** [adjacency] returns, for every graph, a matrix with one row and one
    column per vertex; with the vertices in sorted order, the entry in row
    [r] and column [c] is 1 when an edge from vertex [c] to vertex [r] is
    stored, and 0 otherwise.  When every stored edge has its mirror stored,
    the matrix is symmetric. *)
Theorem adjacency_entries (g : Graph) :
  ∃ A, adjacency g = Ok A
       ∧ shape (size (_vertices g)) A
       ∧ (∀ r c vr vc,
            sorted_vertices g !! r = Some vr → sorted_vertices g !! c = Some vc →
            getitem2 A r c = Ok (VInt (if _are_neighbors g vc vr then 1 else 0)))
       ∧ (mirror_closed (_edges g) → ∀ r c, getitem2 A r c = getitem2 A c r).
Proof.
  eexists. split; [|split; [|split]].
  - unfold adjacency. apply (Matrix_init_rectangular _ (length (sorted_vertices g))).
    apply Forall_fmap, Forall_forall. intros v _. simpl. by rewrite length_fmap.
  - rewrite <- sorted_vertices_length. split; [by rewrite length_fmap|].
    apply Forall_fmap, Forall_forall. intros v _. simpl. by rewrite length_fmap.
  - intros r c vr vc Hr Hc. by rewrite getitem2_adjacency, Hr, Hc.
  - intros Hm r c. rewrite !getitem2_adjacency.
    destruct (sorted_vertices g !! r) as [vr|], (sorted_vertices g !! c) as [vc|];
      try done.
    by rewrite (_are_neighbors_mirror g vc vr Hm).
Qed.

(** ** [Graph.__add__] *)

Lemma filter_Permutation (P : Edge → bool) (s s' : list Edge) :
  s ≡ₚ s' → List.filter P s ≡ₚ List.filter P s'.
Proof.
  induction 1 as [|x s s' _ IH|x y s|s s' s'' _ IH1 _ IH2]; simpl.
  - done.
  - destruct (P x); [by constructor|done].
  - destruct (P x), (P y); try done. apply perm_swap.
  - by etrans.
Qed.

Lemma find_head_filter (P : Edge → bool) (s : list Edge) :
  List.find P s = head (List.filter P s).
Proof. induction s as [|x s IH]; simpl; [done|]. by destruct (P x). Qed.

(** In a set of edges the edge found for a pair of endpoints does not
    depend on the order of iteration. *)
Lemma find_Permutation (u v : Z) (s s' : list Edge) :
  unique_pairs s → s' ≡ₚ s →
  List.find (has_endpoints u v) s' = List.find (has_endpoints u v) s.
Proof.
  intros Hs Hp. rewrite !find_head_filter.
  pose proof (filter_Permutation (has_endpoints u v) s' s Hp) as Hf.
  specialize (Hs u v). unfold pair_count in Hs.
  destruct (List.filter (has_endpoints u v) s) as [|x [|y l]] eqn:E.
  - apply Permutation_nil_r in Hf. by rewrite Hf.
  - apply Permutation_singleton_r in Hf. by rewrite Hf.
  - simpl in Hs. lia.
Qed.

Lemma find_set_union (u v : Z) (s t : list Edge) :
  List.find (has_endpoints u v) (set_union s t)
  = match List.find (has_endpoints u v) s with
    | Some x => Some x
    | None => List.find (has_endpoints u v) t
    end.
Proof. apply find_inserted_from. Qed.

Lemma find_flat_map_head (P : Edge → bool) (f : Edge → list Edge) (l : list Edge) (x : Edge) :
  x ∈ l → P x = true → List.find P (flat_map (λ e, e :: f e) l) ≠ None.
Proof.
  induction l as [|y l IH]; intros Hx HP; [by apply elem_of_nil in Hx|].
  simpl. apply elem_of_cons in Hx as [<-|Hx]; [by rewrite HP|].
  destruct (P y); [done|].
  rewrite find_none_existsb, existsb_app, orb_false_iff, <- !find_none_existsb.
  intros [_ H]. by apply IH.
Qed.

Lemma described_EdgeObj (directed : bool) (l : list Edge) :
  described directed (EdgeObj <$> l)
  = flat_map (λ e, e :: if directed then [] else [reverse e]) l.
Proof.
  unfold described. induction l as [|e l IH]; [done|].
  csimpl. by rewrite IH.
Qed.

Section GraphAdd.

Variable edge_order : list Edge → list Edge.
Hypothesis edge_order_perm : ∀ l, edge_order l ≡ₚ l.

Variables g1 g2 : Graph.
Hypothesis g1_endpoints : endpoints_in g1.
Hypothesis g2_endpoints : endpoints_in g2.
Hypothesis g1_unique : unique_pairs (_edges g1).

Lemma united_valid :
  Forall (desc_valid (_vertices g1 ∪ _vertices g2))
         (EdgeObj <$> edge_order (set_union (_edges g1) (_edges g2))).
Proof.
  apply Forall_fmap, Forall_forall. intros e He.
  rewrite edge_order_perm in He.
  apply elem_of_foldl_set_add in He. unfold desc_valid. simpl.
  rewrite !elem_of_union.
  destruct He as [He|He].
  - destruct (g1_endpoints e He). auto.
  - destruct (g2_endpoints e He). auto.
Qed.

Lemma find_united (u v : Z) :
  List.find (has_endpoints u v) (edge_order (set_union (_edges g1) (_edges g2)))
  = match List.find (has_endpoints u v) (_edges g1) with
    | Some x => Some x
    | None => List.find (has_endpoints u v) (_edges g2)
    end.
Proof.
  rewrite find_Permutation with (s := set_union (_edges g1) (_edges g2)).
  - apply find_set_union.
  - by apply unique_pairs_inserted_from.
  - apply edge_order_perm.
Qed.

Lemma Graph_add_graph_result :
  Graph_add_graph edge_order g1 g2
  = Ok (mkGraph (_vertices g1 ∪ _vertices g2)
          (inserted (described (_directed g1 || _directed g2)
             (EdgeObj <$> edge_order (set_union (_edges g1) (_edges g2)))))
          (_directed g1 || _directed g2)).
Proof. unfold Graph_add_graph. apply Graph_init_valid, united_valid. Qed.

Lemma find_added (u v : Z) :
  List.find (has_endpoints u v)
    (inserted (described (_directed g1 || _directed g2)
       (EdgeObj <$> edge_order (set_union (_edges g1) (_edges g2)))))
  = List.find (has_endpoints u v)
      (flat_map (λ e, e :: if _directed g1 || _directed g2 then [] else [reverse e])
                (edge_order (set_union (_edges g1) (_edges g2)))).
Proof. unfold inserted. by rewrite find_inserted_from, described_EdgeObj. Qed.

End GraphAdd.

(** The sum of two graphs whose stored edges have their endpoints among
    their vertices: whatever the order of iteration over the union of the
    sets of edges, the result has the union of the vertices, is directed
    when one of the two is, and joins by an edge every two vertices that
    one of the two graphs joins.  When the result is directed, it joins no
    other vertices, and the weight of an edge is the one of the left
    graph where the left graph has the edge, and the one of the right graph
    elsewhere. *)
Theorem Graph_add_graph_union (edge_order : list Edge → list Edge) (g1 g2 : Graph) :
  (∀ l, edge_order l ≡ₚ l) →
  endpoints_in g1 → endpoints_in g2 → unique_pairs (_edges g1) →
  ∃ g, Graph_add_graph edge_order g1 g2 = Ok g
       ∧ _vertices g = _vertices g1 ∪ _vertices g2
       ∧ _directed g = _directed g1 || _directed g2
       ∧ (∀ u v, _are_neighbors g1 u v || _are_neighbors g2 u v = true →
                 _are_neighbors g u v = true)
       ∧ (_directed g = true →
          ∀ u v, _are_neighbors g u v = _are_neighbors g1 u v || _are_neighbors g2 u v
                 ∧ _edge_weight g u v
                   = if _are_neighbors g1 u v then _edge_weight g1 u v
                     else _edge_weight g2 u v).
Proof.
  intros Hperm H1 H2 Hu.
  set (g := mkGraph (_vertices g1 ∪ _vertices g2)
              (inserted (described (_directed g1 || _directed g2)
                 (EdgeObj <$> edge_order (set_union (_edges g1) (_edges g2)))))
              (_directed g1 || _directed g2)).
  exists g. split; [by apply Graph_add_graph_result|].
  split; [done|]. split; [done|]. split.
  - intros u v Hn.
    destruct (_are_neighbors g u v) eqn:E; [done|].
    apply _are_neighbors_find in E. simpl in E. rewrite find_added in E.
    assert (Hf : List.find (has_endpoints u v)
                   (edge_order (set_union (_edges g1) (_edges g2))) ≠ None).
    { rewrite (find_united edge_order Hperm g1 g2 Hu).
      apply orb_true_iff in Hn as [Hn|Hn].
      - destruct (List.find (has_endpoints u v) (_edges g1)) eqn:Ef; [done|].
        apply _are_neighbors_find in Ef. congruence.
      - destruct (List.find (has_endpoints u v) (_edges g1)); [done|].
        intros Ef. apply _are_neighbors_find in Ef. congruence. }
    destruct (List.find (has_endpoints u v)
                (edge_order (set_union (_edges g1) (_edges g2)))) as [e|] eqn:Ee; [|done].
    apply find_elem in Ee as [He HP].
    by destruct (find_flat_map_head _ _ _ e He HP E).
  - simpl. intros Hd u v.
    assert (Hfind : List.find (has_endpoints u v)
                      (inserted (described (_directed g1 || _directed g2)
                         (EdgeObj <$> edge_order (set_union (_edges g1) (_edges g2)))))
                    = match List.find (has_endpoints u v) (_edges g1) with
                      | Some x => Some x
                      | None => List.find (has_endpoints u v) (_edges g2)
                      end).
    { rewrite find_added, Hd, <- (find_united edge_order Hperm g1 g2 Hu). f_equal.
      induction (edge_order _) as [|e l IH]; simpl; [done|]. by rewrite IH. }
    split.
    + destruct (_are_neighbors g1 u v) eqn:E1.
      * destruct (_are_neighbors g u v) eqn:E; [done|].
        apply _are_neighbors_find in E. simpl in E. rewrite Hfind in E.
        destruct (List.find (has_endpoints u v) (_edges g1)) eqn:Ef; [done|].
        apply _are_neighbors_find in Ef. congruence.
      * apply _are_neighbors_find in E1. simpl.
        destruct (_are_neighbors g2 u v) eqn:E2.
        -- destruct (_are_neighbors g u v) eqn:E; [done|].
           apply _are_neighbors_find in E. simpl in E. rewrite Hfind, E1 in E.
           apply _are_neighbors_find in E. congruence.
        -- apply _are_neighbors_find. simpl. rewrite Hfind, E1.
           by apply _are_neighbors_find.
    + rewrite !_edge_weight_find. simpl. rewrite Hfind.
      destruct (_are_neighbors g1 u v) eqn:E1.
      * destruct (List.find (has_endpoints u v) (_edges g1)) eqn:Ef; [done|].
        apply _are_neighbors_find in Ef. congruence.
      * apply _are_neighbors_find in E1. by rewrite E1.
Qed.

Lemma Graph_add_graph_union_witness :
  ∃ g, Graph_add_graph id
         (mkGraph {[1; 2]} [Edge_init 1 2 (VInt 5) VNone] true)
         (mkGraph {[2; 3]} [Edge_init 2 3 (VInt 7) VNone] true) = Ok g
       ∧ _vertices g = {[1; 2]} ∪ {[2; 3]}
       ∧ _directed g = true
       ∧ _edge_weight g 1 2 = Ok (VInt 5)
       ∧ _edge_weight g 2 3 = Ok (VInt 7).
Proof.
  destruct (Graph_add_graph_union id
              (mkGraph {[1; 2]} [Edge_init 1 2 (VInt 5) VNone] true)
              (mkGraph {[2; 3]} [Edge_init 2 3 (VInt 7) VNone] true))
    as (g & Hg & Hv & Hd & _ & Hw).
  - intros l. reflexivity.
  - intros e He. apply list_elem_of_singleton in He as ->.
    split; apply (bool_decide_unpack _); reflexivity.
  - intros e He. apply list_elem_of_singleton in He as ->.
    split; apply (bool_decide_unpack _); reflexivity.
  - intros u v. unfold pair_count. simpl.
    destruct (has_endpoints u v _); simpl; lia.
  - exists g. split; [exact Hg|]. split; [exact Hv|]. split; [exact Hd|].
    split.
    + exact (proj2 (Hw Hd 1 2)).
    + exact (proj2 (Hw Hd 2 3)).
Defined.

